(** * merlins-config-manager: deep merge, dotted paths and the section store

    A shallow embedding of [src/ConfigMerger.ts], [src/ConfigManager.ts]
    and [src/ConfigFactory.ts].

    The TypeScript code works on JavaScript objects that are shared and
    mutated in place, so the embedding keeps an explicit object heap:
    a value is a primitive or a reference into the heap, and every function
    of the source becomes a function that threads the heap (and, for the
    store, the file it persists to).

    Scope of the model.
    - Numbers are integers ([Z]); NaN and fractions do not occur.
    - An object is the list of its own enumerable properties, in insertion
      order.  JavaScript enumerates integer-like keys first; no statement
      below depends on the enumeration order.
    - Members inherited from [Object.prototype] ([constructor], [__proto__],
      ...) are not modelled: a key that is not an own property reads as
      [undefined].
    - A file is represented by what [JSON.parse] makes of its text.
    - [path.join] of Node.js, which names the files of a factory, is a
      parameter of the model of the factory. *)

From Stdlib Require Import ZArith String Ascii List Bool Lia DecimalString
  DecimalNat Sorted.
From stdpp Require Import base option list strings gmap.
Import ListNotations.
Local Open Scope string_scope.
Local Open Scope list_scope.
Set Warnings "-register-all,-clear-no-such-hyp".

(** ** Values, objects and the heap *)

Abbreviation loc := nat (only parsing).

Inductive value : Type :=
| VUndef
| VNull
| VBool (b : bool)
| VNum (n : Z)
| VStr (s : string)
| VRef (l : loc).

(** A plain object, or an array: its elements ([None] is a hole) and the
    named properties that were put on it. *)
Inductive obj : Type :=
| Obj (props : list (string * value))
| Arr (elems : list (option value)) (props : list (string * value)).

Abbreviation heap := (list obj) (only parsing).

#[global] Instance value_eq_dec : EqDecision value.
Proof. solve_decision. Defined.

#[global] Instance obj_eq_dec : EqDecision obj.
Proof. solve_decision. Defined.

Inductive jstype : Type :=
| TUndefined | TObject | TBoolean | TNumber | TString.

#[global] Instance jstype_eq_dec : EqDecision jstype.
Proof. solve_decision. Defined.

(** [typeof v] *)
Definition typeof (v : value) : jstype :=
  match v with
  | VUndef => TUndefined
  | VNull => TObject
  | VBool _ => TBoolean
  | VNum _ => TNumber
  | VStr _ => TString
  | VRef _ => TObject
  end.

(** ToBoolean, as used by [!x], [x && y] and [x || y]. *)
Definition truthy (v : value) : bool :=
  match v with
  | VUndef | VNull => false
  | VBool b => b
  | VNum n => negb (n =? 0)%Z
  | VStr s => negb (String.eqb s "")
  | VRef _ => true
  end.

(** [a === b] *)
Definition strict_eq (a b : value) : bool := bool_decide (a = b).

(** ** Outcomes *)

Inductive exn : Type :=
| TypeError
| RangeError
| SyntaxError
| InvalidPathCharacter
| InvalidPathBoundary
| InvalidPathSegment.

(** [Unmodelled]: the call reached JavaScript behaviour outside the model
    (a write to an array's [length], a string used as an object).
    [OutOfFuel]: the recursion went deeper than the fuel given. *)
Inductive outcome (A : Type) : Type :=
| Ok (a : A)
| Throw (e : exn)
| Unmodelled
| OutOfFuel.

Arguments Ok {A} a.
Arguments Throw {A} e.
Arguments Unmodelled {A}.
Arguments OutOfFuel {A}.

#[global] Instance outcome_ret : MRet outcome := fun A a => Ok a.

#[global] Instance outcome_bind : MBind outcome := fun A B f m =>
  match m with
  | Ok a => f a
  | Throw e => Throw e
  | Unmodelled => Unmodelled
  | OutOfFuel => OutOfFuel
  end.

(** ** Property lists *)

Section Assoc.
Context {A : Type}.

Fixpoint assoc_get (k : string) (ps : list (string * A)) : option A :=
  match ps with
  | [] => None
  | (k', v) :: r => if String.eqb k k' then Some v else assoc_get k r
  end.

(** Assignment keeps the position of an existing key and appends a new
    one. *)
Fixpoint assoc_set (k : string) (v : A) (ps : list (string * A))
  : list (string * A) :=
  match ps with
  | [] => [(k, v)]
  | (k', v') :: r =>
      if String.eqb k k' then (k, v) :: r else (k', v') :: assoc_set k v r
  end.

Fixpoint assoc_del (k : string) (ps : list (string * A))
  : list (string * A) :=
  match ps with
  | [] => []
  | (k', v') :: r =>
      if String.eqb k k' then assoc_del k r else (k', v') :: assoc_del k r
  end.
End Assoc.

(** ** Array indices *)

Definition index_key (i : nat) : string :=
  NilEmpty.string_of_uint (Nat.to_uint i).

(** A key is an array index when it is the canonical decimal form of a
    number. *)
Definition parse_index (k : string) : option nat :=
  match NilEmpty.uint_of_string k with
  | Some u =>
      let i := Nat.of_uint u in
      if String.eqb (index_key i) k then Some i else None
  | None => None
  end.

Definition length_key : string := "length".

(** ** Reading and writing properties *)

Definition heap_get (h : heap) (l : loc) : obj := default (Obj []) (h !! l).

Definition heap_set (h : heap) (l : loc) (o : obj) : heap := <[l := o]> h.

Definition alloc (h : heap) (o : obj) : loc * heap := (length h, h ++ [o]).

Definition get_prop (o : obj) (k : string) : value :=
  match o with
  | Obj ps => default VUndef (assoc_get k ps)
  | Arr es ps =>
      match parse_index k with
      | Some i => default VUndef (mjoin (es !! i))
      | None =>
          if String.eqb k length_key then VNum (Z.of_nat (length es))
          else default VUndef (assoc_get k ps)
      end
  end.

Definition set_prop (o : obj) (k : string) (v : value) : outcome obj :=
  match o with
  | Obj ps => Ok (Obj (assoc_set k v ps))
  | Arr es ps =>
      match parse_index k with
      | Some i =>
          if decide (i < length es)%nat then Ok (Arr (<[i := Some v]> es) ps)
          else Ok (Arr (es ++ replicate (i - length es) None ++ [Some v]) ps)
      | None =>
          if String.eqb k length_key then Unmodelled
          else Ok (Arr es (assoc_set k v ps))
      end
  end.

(** [delete o[k]] in strict mode. *)
Definition delete_prop (o : obj) (k : string) : outcome obj :=
  match o with
  | Obj ps => Ok (Obj (assoc_del k ps))
  | Arr es ps =>
      match parse_index k with
      | Some i => Ok (Arr (if decide (i < length es)%nat
                           then <[i := None]> es else es) ps)
      | None =>
          if String.eqb k length_key then Throw TypeError
          else Ok (Arr es (assoc_del k ps))
      end
  end.

Fixpoint elem_keys (i : nat) (es : list (option value)) : list string :=
  match es with
  | [] => []
  | Some _ :: r => index_key i :: elem_keys (S i) r
  | None :: r => elem_keys (S i) r
  end.

(** The own enumerable keys: what [for ... in] and [Object.keys] visit. *)
Definition own_keys (o : obj) : list string :=
  match o with
  | Obj ps => ps.*1
  | Arr es ps => elem_keys 0 es ++ ps.*1
  end.

Definition string_chars (s : string) : list string :=
  map (fun c => String c EmptyString) (list_ascii_of_string s).

(** [v[k]] *)
Definition get (h : heap) (v : value) (k : string) : outcome value :=
  match v with
  | VUndef | VNull => Throw TypeError
  | VBool _ | VNum _ => Ok VUndef
  | VStr s =>
      match parse_index k with
      | Some i => Ok (default VUndef (VStr <$> string_chars s !! i))
      | None =>
          if String.eqb k length_key then Ok (VNum (Z.of_nat (String.length s)))
          else Ok VUndef
      end
  | VRef l => Ok (get_prop (heap_get h l) k)
  end.

(** [v[k] = x] in strict mode. *)
Definition set (h : heap) (v : value) (k : string) (x : value)
  : outcome heap :=
  match v with
  | VRef l => o ← set_prop (heap_get h l) k x; Ok (heap_set h l o)
  | _ => Throw TypeError
  end.

(** [delete v[k]] in strict mode. *)
Definition delete (h : heap) (v : value) (k : string) : outcome heap :=
  match v with
  | VUndef | VNull => Throw TypeError
  | VBool _ | VNum _ => Ok h
  | VStr _ => Unmodelled
  | VRef l => o ← delete_prop (heap_get h l) k; Ok (heap_set h l o)
  end.

(** [Object.keys(v)] *)
Definition keys (h : heap) (v : value) : outcome (list string) :=
  match v with
  | VUndef | VNull => Throw TypeError
  | VBool _ | VNum _ => Ok []
  | VStr s => Ok (map index_key (seq 0 (String.length s)))
  | VRef l => Ok (own_keys (heap_get h l))
  end.

(** A fresh [{}]. *)
Definition new_object (h : heap) : value * heap :=
  let '(l, h') := alloc h (Obj []) in (VRef l, h').

(** A fresh [{[k]: v}]. *)
Definition new_singleton (h : heap) (k : string) (v : value) : value * heap :=
  let '(l, h') := alloc h (Obj [(k, v)]) in (VRef l, h').

(** ** ConfigMerger.ts *)

(** [isObject(item)]:
    [item && typeof item === 'object' && !Array.isArray(item)]. *)
Definition isObject (h : heap) (item : value) : bool :=
  match item with
  | VRef l => match heap_get h l with Obj _ => true | Arr _ _ => false end
  | _ => false
  end.

(** The body of the [for (const key in source)] loop; [rec] is the
    recursive call [mergeConfigs(target[key], source[key])]. *)
Definition merge_step
    (rec : heap -> value -> list value -> outcome (value * heap))
    (target source : value) (acc : outcome heap) (key : string)
  : outcome heap :=
  h0 ← acc;
  sv ← get h0 source key;
  if isObject h0 sv then
    tv ← get h0 target key;
    h1 ← (if truthy tv then Ok h0
          else let '(e, h') := new_object h0 in set h' target key e);
    tv1 ← get h1 target key;
    sv1 ← get h1 source key;
    '(_, h2) ← rec h1 tv1 [sv1];
    Ok h2
  else
    set h0 target key sv.

(** [mergeConfigs(target, ...sources)].  The loop runs over the keys that
    [source] has when the loop starts; the body reads [source[key]] and
    [target[key]] from the current heap. *)
Fixpoint mergeConfigs (fuel : nat) (h : heap) (target : value)
    (sources : list value) : outcome (value * heap) :=
  match fuel with
  | O => OutOfFuel
  | S fuel' =>
      match sources with
      | [] => Ok (target, h)
      | source :: rest =>
          h1 ← (if isObject h target && isObject h source then
                  ks ← keys h source;
                  fold_left (merge_step (mergeConfigs fuel') target source)
                    ks (Ok h)
                else Ok h);
          mergeConfigs fuel' h1 target rest
      end
  end.

(** ** JSON documents *)

Inductive json : Type :=
| JNull
| JBool (b : bool)
| JNum (n : Z)
| JStr (s : string)
| JArr (es : list json)
| JObj (ps : list (string * json)).

Definition build_elems (build : json -> heap -> value * heap)
  : list json -> heap -> list (option value) * heap :=
  fix go es h :=
    match es with
    | [] => ([], h)
    | e :: r =>
        let '(v, h1) := build e h in
        let '(vs, h2) := go r h1 in
        (Some v :: vs, h2)
    end.

Definition build_props (build : json -> heap -> value * heap)
  : list (string * json) -> heap -> list (string * value) * heap :=
  fix go ps h :=
    match ps with
    | [] => ([], h)
    | (k, e) :: r =>
        let '(v, h1) := build e h in
        let '(kvs, h2) := go r h1 in
        ((k, v) :: kvs, h2)
    end.

(** A repeated key keeps its first position and its last value. *)
Definition dedup {A} (kvs : list (string * A)) : list (string * A) :=
  fold_left (fun acc kv => assoc_set kv.1 kv.2 acc) kvs [].

(** The object graph of a JSON text ([JSON.parse]) or of an object literal:
    fresh objects, children before their parent. *)
Fixpoint build (t : json) (h : heap) : value * heap :=
  match t with
  | JNull => (VNull, h)
  | JBool b => (VBool b, h)
  | JNum n => (VNum n, h)
  | JStr s => (VStr s, h)
  | JArr es =>
      let '(vs, h1) := build_elems build es h in
      let '(l, h2) := alloc h1 (Arr vs []) in
      (VRef l, h2)
  | JObj ps =>
      let '(kvs, h1) := build_props build ps h in
      let '(l, h2) := alloc h1 (Obj (dedup kvs)) in
      (VRef l, h2)
  end.

(** [JSON.stringify(v)], as the document it denotes; [None] is
    [undefined].  A property whose value is [undefined] is left out, a hole
    or an [undefined] element prints as [null], and an object met again
    below itself raises a [TypeError].  [stack] holds the objects being
    printed. *)
Fixpoint stringify (fuel : nat) (h : heap) (stack : list loc) (v : value)
  : outcome (option json) :=
  match fuel with
  | O => OutOfFuel
  | S fuel' =>
      match v with
      | VUndef => Ok None
      | VNull => Ok (Some JNull)
      | VBool b => Ok (Some (JBool b))
      | VNum n => Ok (Some (JNum n))
      | VStr s => Ok (Some (JStr s))
      | VRef l =>
          if bool_decide (l ∈ stack) then Throw TypeError
          else
            match heap_get h l with
            | Obj ps =>
                r ← fold_right
                      (fun kv acc =>
                         rest ← acc;
                         t ← stringify fuel' h (l :: stack) kv.2;
                         Ok (match t with
                             | Some t => (kv.1, t) :: rest
                             | None => rest
                             end))
                      (Ok []) ps;
                Ok (Some (JObj r))
            | Arr es _ =>
                r ← fold_right
                      (fun e acc =>
                         rest ← acc;
                         t ← stringify fuel' h (l :: stack) (default VUndef e);
                         Ok (default JNull t :: rest))
                      (Ok []) es;
                Ok (Some (JArr r))
            end
      end
  end.

(** Every object on a cycle-free descent is new to the stack, so the depth
    never exceeds the number of objects. *)
Definition to_json (h : heap) (v : value) : outcome (option json) :=
  stringify (S (length h)) h [] v.

(** ** Worked merges *)

Definition merge_literals (target source : json) : outcome (option json) :=
  let '(t, h1) := build target [] in
  let '(s, h2) := build source h1 in
  '(r, h3) ← mergeConfigs 16 h2 t [s];
  to_json h3 r.

(** ** Dotted paths *)

(** The regular expressions of [validatePath], and [RegExp.prototype.test]
    on a fresh expression: a match may start anywhere in the string. *)
Inductive regex : Type :=
| RClass (f : ascii -> bool)
| RBol
| REol
| RSeq (r1 r2 : regex)
| RAlt (r1 r2 : regex)
| RRep (min : nat) (r : regex).

(** [rmatch r bol s k]: [r] matches a prefix of [s] and [k] accepts the
    rest; [bol] tells whether [s] starts at the beginning of the input. *)
Fixpoint rmatch (r : regex) (bol : bool) (s : list ascii)
    (k : bool -> list ascii -> bool) : bool :=
  match r with
  | RClass f =>
      match s with
      | c :: s' => f c && k false s'
      | [] => false
      end
  | RBol => bol && k bol s
  | REol => match s with [] => k bol s | _ :: _ => false end
  | RSeq r1 r2 => rmatch r1 bol s (fun b s' => rmatch r2 b s' k)
  | RAlt r1 r2 => rmatch r1 bol s k || rmatch r2 bol s k
  | RRep min r =>
      (fix rep (fuel min : nat) (bol : bool) (s : list ascii) : bool :=
         match fuel with
         | O => false
         | S fuel' =>
             match min with O => k bol s | S _ => false end
             || rmatch r bol s
                  (fun b s' =>
                     (length s' <? length s)%nat && rep fuel' (pred min) b s')
         end) (S (length s)) min bol s
  end.

Fixpoint search (r : regex) (bol : bool) (s : list ascii) : bool :=
  rmatch r bol s (fun _ _ => true)
  || match s with
     | [] => false
     | _ :: s' => search r false s'
     end.

Definition regex_test (r : regex) (s : string) : bool :=
  search r true (list_ascii_of_string s).

Definition in_range (lo hi c : ascii) : bool :=
  (nat_of_ascii lo <=? nat_of_ascii c)%nat
  && (nat_of_ascii c <=? nat_of_ascii hi)%nat.

Definition is_dot (c : ascii) : bool := Ascii.eqb c ".".

(** The class [[a-z0-9_\-.]] under the [i] flag. *)
Definition path_char (c : ascii) : bool :=
  in_range "a" "z" c || in_range "A" "Z" c || in_range "0" "9" c
  || Ascii.eqb c "_" || Ascii.eqb c "-" || is_dot c.

(** [/[a-z0-9_\-.]+/gi] *)
Definition re_chars : regex := RRep 1 (RClass path_char).

(** [/(^\.)|(\.$)/g] *)
Definition re_boundary : regex :=
  RAlt (RSeq RBol (RClass is_dot)) (RSeq (RClass is_dot) REol).

(** [/[.]{2,}/g] *)
Definition re_dots : regex := RRep 2 (RClass is_dot).

(** [ConfigManager.validatePath] *)
Definition validatePath (path : string) : outcome unit :=
  if String.eqb path "" then Ok tt
  else if negb (regex_test re_chars path) then Throw InvalidPathCharacter
  else if regex_test re_boundary path then Throw InvalidPathBoundary
  else if regex_test re_dots path then Throw InvalidPathSegment
  else Ok tt.

(** [path.split('.')] *)
Fixpoint split (path : string) : list string :=
  match path with
  | EmptyString => [""]
  | String c r =>
      if is_dot c then "" :: split r
      else match split r with
           | x :: xs => String c x :: xs
           | [] => [String c ""]
           end
  end.

(** ** ConfigManager.ts *)

(** A file, by what [JSON.parse] makes of its text. *)
Inductive file : Type :=
| JsonText (t : json)
| BadText.

Record world : Type := World {
  objects : heap;
  disk : list (string * file);
}.

(** The fields of a [ConfigManager] instance; they are assigned in the
    constructor only.  A field that was never assigned reads as
    [undefined]. *)
Record ConfigManager : Type := {
  configFileName : string;
  created : bool;
  oldConfig : value;
  config : value;
  defaultConfig : value;
  configFileLoadingError : option exn;
}.

Definition constructor (fuel : nat) (configFileName : string) (w : world)
  : outcome (ConfigManager * world) :=
  let '(old0, h1) := new_object (objects w) in
  let '(def0, h2) := new_object h1 in
  match assoc_get configFileName (disk w) with
  | Some (JsonText t) =>
      let '(cfg, h3) := build t h2 in
      let '(e, h4) := new_object h3 in
      '(old, h5) ← mergeConfigs fuel h4 e [cfg];
      Ok ({| configFileName := configFileName; created := false;
             oldConfig := old; config := cfg; defaultConfig := def0;
             configFileLoadingError := None |},
          World h5 (disk w))
  | Some BadText =>
      Ok ({| configFileName := configFileName; created := false;
             oldConfig := old0; config := VUndef; defaultConfig := def0;
             configFileLoadingError := Some SyntaxError |},
          World h2 (disk w))
  | None =>
      let '(cfg, h3) := new_object h2 in
      Ok ({| configFileName := configFileName; created := true;
             oldConfig := old0; config := cfg; defaultConfig := def0;
             configFileLoadingError := None |},
          World h3 (disk w))
  end.

(** One turn of the loop of [getOrCreateConfigPath]. *)
Definition descend (acc : outcome (value * heap)) (p : string)
  : outcome (value * heap) :=
  '(root, h0) ← acc;
  v ← get h0 root p;
  h1 ← (if bool_decide (typeof v ≠ TObject)
        then let '(e, h') := new_object h0 in set h' root p e
        else Ok h0);
  root' ← get h1 root p;
  Ok (root', h1).

Definition getOrCreateConfigPath (cm : ConfigManager) (path : string)
    (h : heap) : outcome (value * heap) :=
  if String.eqb path "" then Ok (config cm, h)
  else
    _ ← validatePath path;
    fold_left descend (split path) (Ok (config cm, h)).

Definition saveConfig (cm : ConfigManager) (w : world) : outcome world :=
  t ← to_json (objects w) (config cm);
  match t with
  | Some t =>
      Ok (World (objects w) (assoc_set (configFileName cm) (JsonText t) (disk w)))
  | None => Throw TypeError
  end.

(** [Object.assign(target, source)] *)
Definition object_assign (h : heap) (target source : value) : outcome heap :=
  match target with
  | VUndef | VNull => Throw TypeError
  | VBool _ | VNum _ => Ok h
  | VStr _ => Unmodelled
  | VRef _ =>
      match source with
      | VUndef | VNull => Ok h
      | _ =>
          ks ← keys h source;
          fold_left
            (fun acc k => h0 ← acc; v ← get h0 source k; set h0 target k v)
            ks (Ok h)
      end
  end.

(** One call of the [forEach] callback of [updateConfigPath], at index
    [ip.1] of the [n] reversed segments. *)
Definition nest (cm : ConfigManager) (n : nat) (acc : outcome (value * heap))
    (ip : nat * string) : outcome (value * heap) :=
  '(values, h0) ← acc;
  if bool_decide (ip.1 + 1 ≠ n)%nat
  then Ok (new_singleton h0 ip.2 values)
  else h' ← set h0 (config cm) ip.2 values; Ok (values, h').

Definition updateConfigPath (cm : ConfigManager) (path : string)
    (values : value) (w : world) : outcome (value * world) :=
  '(_, h1) ← getOrCreateConfigPath cm path (objects w);
  h2 ← (if negb (String.eqb path "") then
          let paths := rev (split path) in
          '(_, h') ← fold_left (nest cm (length paths)) (imap pair paths)
                      (Ok (values, h1));
          Ok h'
        else object_assign h1 (config cm) values);
  w3 ← saveConfig cm (World h2 (disk w));
  '(r, h4) ← getOrCreateConfigPath cm path (objects w3);
  Ok (r, World h4 (disk w3)).

Definition addDefaultConfig (fuel : nat) (cm : ConfigManager) (path : string)
    (defaults : value) (h : heap) : outcome heap :=
  _ ← validatePath path;
  let '(root, h1) :=
    fold_left (fun acc p => new_singleton acc.2 p acc.1)
      (rev (split path)) (defaults, h) in
  '(_, h2) ← mergeConfigs fuel h1 (defaultConfig cm) [root];
  Ok h2.

Definition configSection (fuel : nat) (cm : ConfigManager) (path : string)
    (defaults : value) (w : world) : outcome (value * world) :=
  '(root, h1) ← getOrCreateConfigPath cm path (objects w);
  if strict_eq root defaults then Ok (root, World h1 (disk w))
  else
    h2 ← addDefaultConfig fuel cm path defaults h1;
    let '(src, h3) := if truthy root then (root, h2) else new_object h2 in
    '(merged, h4) ← mergeConfigs fuel h3 defaults [src];
    updateConfigPath cm path merged (World h4 (disk w)).

Module ConfigValidation.
Inductive created_t : Type :=
| All
| Keys (ks : list string).

Record t : Type := Build {
  created : created_t;
  wrongTypes : list (string * jstype * jstype);
  unusedValues : list string;
}.
End ConfigValidation.

(** The accumulators of one validation: the [created] array and the two
    lists of [result]. *)
Record report : Type := Report {
  r_created : list string;
  r_wrongTypes : list (string * jstype * jstype);
  r_unusedValues : list string;
}.

Definition propKey (firstLevel : bool) (path key : string) : string :=
  if firstLevel then key else path +:+ "." +:+ key.

(** The body of the loop of [resolve] over [Object.keys(conf)]; [rec] is
    the recursive call, below the first level. *)
Definition visit
    (rec : string -> value -> value -> value -> report * heap
           -> outcome (report * heap))
    (clearUnusedValues firstLevel : bool) (path : string)
    (conf oldConf defConf : value)
    (acc : outcome (report * heap)) (key : string)
  : outcome (report * heap) :=
  '(r, h) ← acc;
  let propKey := propKey firstLevel path key in
  ov ← get h oldConf key;
  let r1 :=
    if strict_eq ov VUndef
    then Report (r_created r ++ [propKey]) (r_wrongTypes r) (r_unusedValues r)
    else r in
  cv ← get h conf key;
  dv ← get h defConf key;
  '(r2, h2) ←
    (if bool_decide (typeof cv ≠ typeof dv) then
       if bool_decide (typeof dv = TUndefined) then
         h' ← (if clearUnusedValues then delete h conf key else Ok h);
         Ok (Report (r_created r1) (r_wrongTypes r1)
               (r_unusedValues r1 ++ [propKey]), h')
       else
         Ok (Report (r_created r1)
               (r_wrongTypes r1 ++ [(propKey, typeof dv, typeof cv)])
               (r_unusedValues r1), h)
     else Ok (r1, h));
  cv' ← get h2 conf key;
  dv' ← get h2 defConf key;
  if bool_decide (typeof cv' = TObject) && bool_decide (typeof dv' = TObject)
  then
    ov' ← get h2 oldConf key;
    let '(o, h3) := if truthy ov' then (ov', h2) else new_object h2 in
    rec propKey cv' o dv' (r2, h3)
  else Ok (r2, h2).

(** The [resolve] closure of [validateConfig]. *)
Fixpoint resolve (fuel : nat) (clearUnusedValues firstLevel : bool)
    (path : string) (conf oldConf defConf : value) (st : report * heap)
  : outcome (report * heap) :=
  match fuel with
  | O => OutOfFuel
  | S fuel' =>
      ks ← keys st.2 conf;
      fold_left
        (visit (resolve fuel' clearUnusedValues false)
           clearUnusedValues firstLevel path conf oldConf defConf)
        ks (Ok st)
  end.

Definition validateConfig (fuel : nat) (cm : ConfigManager)
    (clearUnusedValues : bool) (w : world)
  : outcome (ConfigValidation.t * world) :=
  '(r, h) ← resolve fuel clearUnusedValues true ""
              (config cm) (oldConfig cm) (defaultConfig cm)
              (Report [] [] [], objects w);
  let result :=
    ConfigValidation.Build
      (if created cm then ConfigValidation.All
       else ConfigValidation.Keys (r_created r))
      (r_wrongTypes r) (r_unusedValues r) in
  w' ← (if clearUnusedValues then saveConfig cm (World h (disk w))
        else Ok (World h (disk w)));
  Ok (result, w').

(** ** ConfigFactory.ts *)

Module ConfigFactory.
(** The fields of a [ConfigFactory] instance.  [_configManagers] is the
    object that maps a key to its store. *)
Record t : Type := Build {
  _configManagers : list (string * ConfigManager);
  _config : value;
  _defaultConfig : value;
  _folder : option string;
}.

(** [this._folder || 'conf'] *)
Definition folder (f : t) : string :=
  match _folder f with
  | Some s => if String.eqb s "" then "conf" else s
  | None => "conf"
  end.

Section Join.
(** [join] of the [path] module of Node.js, which is not part of the
    repository. *)
Variable join : string -> string -> string.

(** The body of the loop of [readConfig]. *)
Definition readConfig_step (fuel : nat) (f : t)
    (acc : outcome (list (string * ConfigManager) * world)) (key : string)
  : outcome (list (string * ConfigManager) * world) :=
  '(cms, w) ← acc;
  '(cm, w1) ← constructor fuel (join (folder f) (key +:+ ".json")) w;
  let cms1 := assoc_set key cm cms in
  config ← get (objects w1) (_defaultConfig f) key;
  '(r, w2) ← configSection fuel cm "" config w1;
  h3 ← set (objects w2) (_config f) key r;
  Ok (cms1, World h3 (disk w2)).

Definition readConfig (fuel : nat) (f : t) (w : world) : outcome (t * world) :=
  let f0 := Build [] (_defaultConfig f) (_defaultConfig f) (_folder f) in
  ks ← keys (objects w) (_defaultConfig f0);
  '(cms, w') ← fold_left (readConfig_step fuel f0) ks (Ok ([], w));
  Ok (Build cms (_config f0) (_defaultConfig f0) (_folder f0), w').

(** [new ConfigFactory(_defaultConfig, _folder)] *)
Definition new (fuel : nat) (defaultConfig : value) (folder : option string)
    (w : world) : outcome (t * world) :=
  if bool_decide (typeof defaultConfig ≠ TObject) then Throw TypeError
  else readConfig fuel (Build [] defaultConfig defaultConfig folder) w.
End Join.

Definition config (f : t) : value := _config f.

Definition defaultConfig (f : t) : value := _defaultConfig f.

(** The getter [configAnalysis]: [validateConfig()] of every store. *)
Definition configAnalysis (fuel : nat) (f : t) (w : world)
  : outcome (list (string * ConfigValidation.t) * world) :=
  fold_left
    (fun acc kc =>
       '(out, w0) ← acc;
       '(rep, w1) ← validateConfig fuel kc.2 false w0;
       Ok (assoc_set kc.1 rep out, w1))
    (_configManagers f) (Ok ([], w)).
End ConfigFactory.

(** * Specification *)

(** ** JSON documents, structurally *)

Section JsonInd.
Variable P : json -> Prop.
Hypothesis Hnull : P JNull.
Hypothesis Hbool : forall b, P (JBool b).
Hypothesis Hnum : forall n, P (JNum n).
Hypothesis Hstr : forall s, P (JStr s).
Hypothesis Harr : forall es, Forall P es -> P (JArr es).
Hypothesis Hobj : forall ps, Forall (fun p => P p.2) ps -> P (JObj ps).

Fixpoint json_rect' (t : json) : P t :=
  match t with
  | JNull => Hnull
  | JBool b => Hbool b
  | JNum n => Hnum n
  | JStr s => Hstr s
  | JArr es =>
      Harr es
        ((fix go (es : list json) : Forall P es :=
            match es with
            | [] => List.Forall_nil P
            | e :: r => @List.Forall_cons _ P e r (json_rect' e) (go r)
            end) es)
  | JObj ps =>
      Hobj ps
        ((fix go (ps : list (string * json)) : Forall (fun p => P p.2) ps :=
            match ps with
            | [] => List.Forall_nil _
            | p :: r => @List.Forall_cons _ _ p r (json_rect' p.2) (go r)
            end) ps)
  end.
End JsonInd.

Fixpoint height (t : json) : nat :=
  match t with
  | JArr es => S (foldr (fun e n => max (height e) n) 0 es)
  | JObj ps => S (foldr (fun p n => max (height p.2) n) 0 ps)
  | _ => 0
  end.

Definition is_mapping (t : json) : bool :=
  match t with JObj _ => true | _ => false end.

(** ** What a value denotes *)

(** [rden h A v t]: in heap [h], the value [v] is the document [t], and
    every object this reading visits lies in [A]. *)
Inductive rden (h : heap) (A : gset loc) : value -> json -> Prop :=
| rden_null : rden h A VNull JNull
| rden_bool b : rden h A (VBool b) (JBool b)
| rden_num n : rden h A (VNum n) (JNum n)
| rden_str s : rden h A (VStr s) (JStr s)
| rden_arr l es ps ts :
    l ∈ A -> h !! l = Some (Arr es ps) ->
    Forall2 (fun e t => exists v, e = Some v /\ rden h A v t) es ts ->
    rden h A (VRef l) (JArr ts)
| rden_obj l ps ts :
    l ∈ A -> h !! l = Some (Obj ps) -> NoDup ps.*1 ->
    Forall2 (fun p q => p.1 = q.1 /\ rden h A p.2 q.2) ps ts ->
    rden h A (VRef l) (JObj ts).

(** [den h A W v t]: [v] is the document [t]; its mappings, down to the
    first array or scalar, are distinct objects inside [W], each reached
    along one path only; what lies below an array is read inside [A]. *)
Inductive den (h : heap) (A : gset loc) : gset loc -> value -> json -> Prop :=
| den_leaf W v t :
    is_mapping t = false -> rden h A v t -> den h A W v t
| den_obj W l ps ts :
    l ∈ W -> h !! l = Some (Obj ps) -> NoDup ps.*1 ->
    den_props h A (W ∖ {[l]}) ps ts ->
    den h A W (VRef l) (JObj ts)
with den_props (h : heap) (A : gset loc)
  : gset loc -> list (string * value) -> list (string * json) -> Prop :=
| dp_nil W : den_props h A W [] []
| dp_cons W W1 W2 k v t ps ts :
    W1 ## W2 -> W1 ∪ W2 ⊆ W ->
    den h A W1 v t -> den_props h A W2 ps ts ->
    den_props h A W ((k, v) :: ps) ((k, t) :: ts).

Scheme den_mut := Minimality for den Sort Prop
  with den_props_mut := Minimality for den_props Sort Prop.

Combined Scheme den_mutind from den_mut, den_props_mut.

Section RdenInd.
Variables (h : heap) (A : gset loc) (P : value -> json -> Prop).
Hypothesis Hnull : P VNull JNull.
Hypothesis Hbool : forall b, P (VBool b) (JBool b).
Hypothesis Hnum : forall n, P (VNum n) (JNum n).
Hypothesis Hstr : forall s, P (VStr s) (JStr s).
Hypothesis Harr : forall l es ps ts,
  l ∈ A -> h !! l = Some (Arr es ps) ->
  Forall2 (fun e t => exists v, e = Some v /\ rden h A v t /\ P v t) es ts ->
  P (VRef l) (JArr ts).
Hypothesis Hobj : forall l ps ts,
  l ∈ A -> h !! l = Some (Obj ps) -> NoDup ps.*1 ->
  Forall2 (fun p q => p.1 = q.1 /\ rden h A p.2 q.2 /\ P p.2 q.2) ps ts ->
  P (VRef l) (JObj ts).

Fixpoint rden_ind' (v : value) (t : json) (H : rden h A v t) : P v t :=
  match H with
  | rden_null _ _ => Hnull
  | rden_bool _ _ b => Hbool b
  | rden_num _ _ n => Hnum n
  | rden_str _ _ s => Hstr s
  | rden_arr _ _ l es ps ts Hl Hh HF =>
      Harr l es ps ts Hl Hh
        ((fix go es ts (HF : Forall2 (fun e t => exists v, e = Some v /\ rden h A v t) es ts)
            : Forall2 (fun e t => exists v, e = Some v /\ rden h A v t /\ P v t) es ts :=
            match HF with
            | List.Forall2_nil _ => List.Forall2_nil _
            | @List.Forall2_cons _ _ _ _ _ _ _ (ex_intro _ v (conj He Hv)) HF' =>
                List.Forall2_cons _ _
                  (ex_intro _ v (conj He (conj Hv (rden_ind' _ _ Hv))))
                  (go _ _ HF')
            end) es ts HF)
  | rden_obj _ _ l ps ts Hl Hh Hnd HF =>
      Hobj l ps ts Hl Hh Hnd
        ((fix go ps ts (HF : Forall2 (fun p q => p.1 = q.1 /\ rden h A p.2 q.2) ps ts)
            : Forall2 (fun p q => p.1 = q.1 /\ rden h A p.2 q.2 /\ P p.2 q.2) ps ts :=
            match HF with
            | List.Forall2_nil _ => List.Forall2_nil _
            | @List.Forall2_cons _ _ _ _ _ _ _ (conj He Hv) HF' =>
                List.Forall2_cons _ _
                  (conj He (conj Hv (rden_ind' _ _ Hv)))
                  (go _ _ HF')
            end) ps ts HF)
  end.
End RdenInd.

(** ** Deep merge on documents *)

Definition jtruthy (t : json) : bool :=
  match t with
  | JNull => false
  | JBool b => b
  | JNum n => negb (n =? 0)%Z
  | JStr s => negb (String.eqb s "")
  | JArr _ | JObj _ => true
  end.

(** The effect of [mergeConfigs(target, source)] on the document that
    [target] denotes, when [target] and [source] are separate trees. *)
Fixpoint merge_doc (target source : json) {struct source} : json :=
  match source, target with
  | JObj px, JObj pc =>
      JObj
        ((fix loop (px : list (string * json)) (pc : list (string * json))
            : list (string * json) :=
            match px with
            | [] => pc
            | (k, sv) :: r =>
                loop r
                  (match sv with
                   | JObj _ =>
                       match assoc_get k pc with
                       | Some tv =>
                           if jtruthy tv
                           then assoc_set k (merge_doc tv sv) pc
                           else assoc_set k (merge_doc (JObj []) sv) pc
                       | None => assoc_set k (merge_doc (JObj []) sv) pc
                       end
                   | _ => assoc_set k sv pc
                   end)
            end) px pc)
  | _, _ => target
  end.

Definition merge_key (pc : list (string * json)) (k : string) (sv : json)
  : list (string * json) :=
  match sv with
  | JObj _ =>
      match assoc_get k pc with
      | Some tv =>
          if jtruthy tv
          then assoc_set k (merge_doc tv sv) pc
          else assoc_set k (merge_doc (JObj []) sv) pc
      | None => assoc_set k (merge_doc (JObj []) sv) pc
      end
  | _ => assoc_set k sv pc
  end.

Definition merge_props (pc px : list (string * json)) : list (string * json) :=
  fold_left (fun pc p => merge_key pc p.1 p.2) px pc.

(** ** Regions of the heap *)

Definition bounded (h : heap) (X : gset loc) : Prop :=
  forall l, l ∈ X -> (l < length h)%nat.

(** The objects allocated between [h] and [h']. *)
Definition fresh (h h' : heap) : gset loc :=
  list_to_set (seq (length h) (length h' - length h)).

(** [h'] differs from [h] inside [X] and by new objects only. *)
Definition frame (X : gset loc) (h h' : heap) : Prop :=
  (length h <= length h')%nat
  /\ forall l, l ∉ X -> (l < length h)%nat -> h' !! l = h !! l.

(** ** The contract of [mergeConfigs] *)

Definition merge_spec (f : nat) (tx : json) : Prop :=
  forall h c x tc W A R,
    den h A W c tc -> rden h R x tx ->
    W ## A -> W ## R -> bounded h (W ∪ A ∪ R) ->
    exists h',
      mergeConfigs f h c [x] = Ok (c, h')
      /\ den h' (A ∪ R) (W ∪ fresh h h') c (merge_doc tc tx)
      /\ frame W h h'.

(** ** Documents built and read back *)

(** The document a JSON text denotes once repeated keys are resolved. *)
Fixpoint norm (t : json) : json :=
  match t with
  | JArr es => JArr (map norm es)
  | JObj ps => JObj (dedup (map (fun p => (p.1, norm p.2)) ps))
  | _ => t
  end.

Definition build_spec (t : json) : Prop :=
  forall h, exists ext W A,
    (build t h).2 = h ++ ext
    /\ den (h ++ ext) A W (build t h).1 (norm t)
    /\ W ## A /\ W ∪ A ⊆ fresh h (h ++ ext).

(** [v] denotes the document [t]. *)
Definition reads (h : heap) (v : value) (t : json) : Prop :=
  exists A, rden h A v t.


(** ** Deep merge: the statements *)


(** A document no mapping of which repeats a key. *)
Inductive distinct : json -> Prop :=
| distinct_null : distinct JNull
| distinct_bool b : distinct (JBool b)
| distinct_num n : distinct (JNum n)
| distinct_str s : distinct (JStr s)
| distinct_arr es : Forall distinct es -> distinct (JArr es)
| distinct_obj ps :
    NoDup ps.*1 -> Forall (fun p => distinct p.2) ps -> distinct (JObj ps).

Definition nested_doc : json := JObj [("a", JObj [("x", JNum 1)])].

(** ** The section store: scenarios *)

(** A process that constructs a store over [name], builds the [defaults]
    literal and registers it at [path]: the value returned, what
    [defaults] reads as afterwards, the Document, the DefaultsTree, and the
    file, all as documents. *)
Definition register_section (files : list (string * file)) (name : string)
    (path : string) (defaults : json)
  : outcome (value * value * option json * option json * option json
             * option json * option file) :=
  '(cm, w1) ← constructor 16 name (World [] files);
  let '(d, h2) := build defaults (objects w1) in
  '(r, w3) ← configSection 16 cm path d (World h2 (disk w1));
  rj ← to_json (objects w3) r;
  dj ← to_json (objects w3) d;
  cj ← to_json (objects w3) (config cm);
  fj ← to_json (objects w3) (defaultConfig cm);
  Ok (r, d, rj, dj, cj, fj, assoc_get name (disk w3)).

(** A process that constructs a store over ["config.json"] and then runs
    [op] on it. *)
Definition on_store {A} (files : list (string * file))
    (op : ConfigManager -> world -> outcome A)
  : outcome (ConfigManager * outcome A) :=
  '(cm, w) ← constructor 16 "config.json" (World [] files);
  Ok (cm, op cm w).

Definition section_of (path : string) (defaults : json)
    (cm : ConfigManager) (w : world) : outcome (option json) :=
  let '(d, h) := build defaults (objects w) in
  '(r, w') ← configSection 16 cm path d (World h (disk w));
  to_json (objects w') r.

Definition section_then_validate (path : string) (defaults : json)
    (cm : ConfigManager) (w : world)
  : outcome (option json * option json * list string) :=
  let '(d, h) := build defaults (objects w) in
  '(_, w1) ← configSection 16 cm path d (World h (disk w));
  '(rep, w2) ← validateConfig 16 cm false w1;
  cj ← to_json (objects w2) (config cm);
  fj ← to_json (objects w2) (defaultConfig cm);
  Ok (cj, fj, ConfigValidation.unusedValues rep).

Definition get_or_create (path : string) (cm : ConfigManager) (w : world)
  : outcome (value * option json * option json) :=
  '(r, h) ← getOrCreateConfigPath cm path (objects w);
  rj ← to_json h r;
  cj ← to_json h (config cm);
  Ok (r, rj, cj).

(** ** The chain of nested mappings *)

(** [{[p_1]: ... {[p_n]: v}}] for the segments [p_n; ...; p_1]. *)
Definition wrap (ps : list string) (v : value) (h : heap) : value * heap :=
  fold_left (fun acc p => new_singleton acc.2 p acc.1) ps (v, h).

(** [v[k_1]...[k_n]] *)
Definition get_path (h : heap) (v : value) (ks : list string) : outcome value :=
  fold_left (fun acc k => v ← acc; get h v k) ks (Ok v).


(** *** An instance: the store of C1 *)

Definition section_cm : ConfigManager :=
  {| configFileName := "config.json"; created := false;
     oldConfig := VRef 4; config := VRef 3; defaultConfig := VRef 1;
     configFileLoadingError := None |}.

Definition section_world : world :=
  World
    [Obj []; Obj []; Obj [("host", VStr "stored")];
     Obj [("DB", VRef 2)]; Obj [("DB", VRef 5)];
     Obj [("host", VStr "stored")];
     Obj [("host", VStr "localhost"); ("port", VNum 5432)]]
    [("config.json",
      JsonText (JObj [("DB", JObj [("host", JStr "stored")])]))].


(** ** A Document that is a tree *)

(** [owned h W v]: every object below [v] lies in [W] and is reached
    along one path only; [reg k] is the part of [W] below the key [k]. *)
Inductive owned (h : heap) : gset loc -> value -> Prop :=
| owned_leaf W v : (forall l, v <> VRef l) -> owned h W v
| owned_node W l (reg : string -> gset loc) :
    l ∈ W -> NoDup (own_keys (heap_get h l)) ->
    (forall k, reg k ⊆ W ∖ {[l]}) ->
    (forall k1 k2, k1 <> k2 -> reg k1 ## reg k2) ->
    (forall k, owned h (reg k) (get_prop (heap_get h l) k)) ->
    owned h W (VRef l).

(** [R] holds everything that can be read from its members. *)
Definition closed (h : heap) (R : gset loc) : Prop :=
  forall l k l', l ∈ R -> get_prop (heap_get h l) k = VRef l' -> l' ∈ R.


(** ** What one visit and one loop change *)




(** ** The keys that the walk visits *)

(** The dotted path of the keys [ks] below [path], as [resolve] builds it. *)
Fixpoint dotted (firstLevel : bool) (path : string) (ks : list string) : string :=
  match ks with
  | [] => path
  | k :: ks => dotted false (propKey firstLevel path k) ks
  end.

(** [reached h conf def ks cv dv]: [ks] is a path of keys of [conf], every
    proper prefix of which holds a value of kind ['object'] in [conf] and in
    [def]; [cv] and [dv] are the values at [ks] in the two. *)
Inductive reached (h : heap)
  : value -> value -> list string -> value -> value -> Prop :=
| reached_here conf def kl k cv dv :
    keys h conf = Ok kl -> k ∈ kl ->
    get h conf k = Ok cv -> get h def k = Ok dv ->
    reached h conf def [k] cv dv
| reached_below conf def kl k cv0 dv0 ks cv dv :
    keys h conf = Ok kl -> k ∈ kl ->
    get h conf k = Ok cv0 -> get h def k = Ok dv0 ->
    typeof cv0 = TObject -> typeof dv0 = TObject ->
    reached h cv0 dv0 ks cv dv ->
    reached h conf def (k :: ks) cv dv.

(** ** Enough fuel *)






(** ** Validation: the statements and two stores *)





(** A store over a file holding [{"S": {"a": 1, "junk": 2}, "X": {"y": 1}}]
    on which the section ["S"] is registered with the defaults
    [{a: 5, b: 7}]. *)
Definition pruned_store : outcome (ConfigManager * world) :=
  '(cm, w1) ← constructor 16 "config.json"
                (World []
                   [("config.json",
                     JsonText
                       (JObj [("S", JObj [("a", JNum 1); ("junk", JNum 2)]);
                              ("X", JObj [("y", JNum 1)])]))]);
  let '(d, h2) := build (JObj [("a", JNum 5); ("b", JNum 7)]) (objects w1) in
  '(_, w3) ← configSection 16 cm "S" d (World h2 (disk w1));
  Ok (cm, w3).

Definition pruned_cm : ConfigManager :=
  {| configFileName := "config.json"; created := false;
     oldConfig := VRef 5; config := VRef 4; defaultConfig := VRef 1;
     configFileLoadingError := None |}.

Definition pruned_objects : heap :=
  [Obj []; Obj [("S", VRef 10)];
   Obj [("a", VNum 1); ("junk", VNum 2)]; Obj [("y", VNum 1)];
   Obj [("S", VRef 8); ("X", VRef 3)];
   Obj [("S", VRef 6); ("X", VRef 7)];
   Obj [("a", VNum 1); ("junk", VNum 2)]; Obj [("y", VNum 1)];
   Obj [("a", VNum 1); ("b", VNum 7); ("junk", VNum 2)];
   Obj [("S", VRef 8)]; Obj [("a", VNum 5); ("b", VNum 7)]].

Definition pruned_world : world :=
  World pruned_objects
    [("config.json",
      JsonText
        (JObj [("S", JObj [("a", JNum 1); ("b", JNum 7); ("junk", JNum 2)]);
               ("X", JObj [("y", JNum 1)])]))].





(** ** Paths, character by character *)

Definition starts_with_dot (s : list ascii) : bool :=
  match s with
  | c :: _ => is_dot c
  | [] => false
  end.

Definition ends_with_dot (s : list ascii) : bool :=
  match last s with
  | Some c => is_dot c
  | None => false
  end.

Fixpoint double_dot (s : list ascii) : bool :=
  match s with
  | c :: r =>
      match r with
      | c' :: _ => is_dot c && is_dot c' || double_dot r
      | [] => false
      end
  | [] => false
  end.

Fixpoint dot_suffix (ks : list string) : string :=
  match ks with
  | [] => ""
  | k :: ks => "." +:+ k +:+ dot_suffix ks
  end.

(** ** Paths through the heap *)

(** [walks h v ks r]: following the keys [ks] from [v] leads to [r], through
    values of kind ['object'] only. *)
Fixpoint walks (h : heap) (v : value) (ks : list string) (r : value) : Prop :=
  match ks with
  | [] => r = v
  | k :: ks' =>
      exists v', get h v k = Ok v' /\ typeof v' = TObject /\ walks h v' ks' r
  end.

(** Every reference stored in an object of [h] points into [h]. *)
Definition linked (h : heap) : Prop :=
  forall l k l', get_prop (heap_get h l) k = VRef l' -> (l' < length h)%nat.

Definition allocated (h : heap) (v : value) : Prop :=
  forall l, v = VRef l -> (l < length h)%nat.

(** ** Plain objects and scalars *)

Definition is_plain (o : obj) : bool :=
  match o with Obj _ => true | Arr _ _ => false end.


(** ** A merge without recursion *)


(** ** The entries of a report *)

(** The value that the walk of [resolve] has for [oldConf] at the keys
    [ks]: below a key whose old value is falsy the walk continues with
    [{}], where every key is [undefined]. *)
Fixpoint old_value (h : heap) (old : value) (ks : list string) : outcome value :=
  match ks with
  | [] => Ok old
  | k :: ks' =>
      ov ← get h old k;
      match ks' with
      | [] => Ok ov
      | _ => if truthy ov then old_value h ov ks' else Ok VUndef
      end
  end.

(** One entry of a report. *)
Inductive entry : Type :=
| ECreated (path : string)
| EWrong (path : string) (expected actual : jstype)
| EUnused (path : string).

Definition has (r : report) (e : entry) : Prop :=
  match e with
  | ECreated p => p ∈ r_created r
  | EWrong p ex ac => (p, ex, ac) ∈ r_wrongTypes r
  | EUnused p => p ∈ r_unusedValues r
  end.

(** The entry [e] is what the walk records, under the dotted path [p], at
    keys [ks] that hold [cv] in the Document and [dv] in the
    DefaultsTree. *)
Definition finding (h : heap) (old : value) (p : string) (ks : list string)
    (cv dv : value) (e : entry) : Prop :=
  match e with
  | ECreated q => q = p /\ old_value h old ks = Ok VUndef
  | EWrong q ex ac =>
      q = p /\ ex = typeof dv /\ ac = typeof cv
      /\ typeof cv <> typeof dv /\ typeof dv <> TUndefined
  | EUnused q => q = p /\ typeof cv <> typeof dv /\ typeof dv = TUndefined
  end.

(** [reached], with the first key taken from [kl]. *)
Definition reached_from (h : heap) (conf def : value) (kl : list string)
    (ks : list string) (cv dv : value) : Prop :=
  exists k ks' cv0 dv0,
    ks = k :: ks' /\ k ∈ kl
    /\ get h conf k = Ok cv0 /\ get h def k = Ok dv0
    /\ ((ks' = [] /\ cv = cv0 /\ dv = dv0)
        \/ (typeof cv0 = TObject /\ typeof dv0 = TObject
            /\ reached h cv0 dv0 ks' cv dv)).

(** What a walk without [clearUnusedValues] adds to the report. *)
Definition plain_walk
    (rec : string -> value -> value -> value -> report * heap
           -> outcome (report * heap)) : Prop :=
  forall path conf old def r h r' h',
    rec path conf old def (r, h) = Ok (r', h') ->
    (forall l, heap_get h' l = heap_get h l)
    /\ forall e,
         has r' e
         <-> has r e
             \/ exists ks cv dv,
                  reached h conf def ks cv dv
                  /\ finding h old (dotted false path ks) ks cv dv e.

(** ** Instances *)

(** The values held by an object. *)
Definition stored (o : obj) : list value :=
  match o with
  | Obj ps => ps.*2
  | Arr es ps => omap id es ++ ps.*2
  end.

(** [linked], as a check. *)
Definition linkedb (h : heap) : bool :=
  forallb
    (fun o =>
       forallb (fun v => match v with
                         | VRef l => (l <? length h)%nat
                         | _ => true
                         end) (stored o))
    h.

(** A store over a file holding [{"X": {"Y": 1, "Z": 2}}]. *)
Definition siblings_store : outcome (ConfigManager * world) :=
  constructor 16 "config.json"
    (World []
       [("config.json",
         JsonText (JObj [("X", JObj [("Y", JNum 1); ("Z", JNum 2)])]))]).

(** A store over a file holding [{"S": {"a": "text", "junk": 1}}] on which
    the section ["S"] is registered with the defaults [{a: 5, b: 7}]. *)
Definition mistyped_store : outcome (ConfigManager * world) :=
  '(cm, w1) ← constructor 16 "config.json"
                (World []
                   [("config.json",
                     JsonText
                       (JObj [("S", JObj [("a", JStr "text");
                                          ("junk", JNum 1)])]))]);
  let '(d, h2) := build (JObj [("a", JNum 5); ("b", JNum 7)]) (objects w1) in
  '(_, w3) ← configSection 16 cm "S" d (World h2 (disk w1));
  Ok (cm, w3).

Definition siblings_cm : ConfigManager :=
  {| configFileName := "config.json"; created := false;
     oldConfig := VRef 4; config := VRef 3; defaultConfig := VRef 1;
     configFileLoadingError := None |}.

Definition siblings_world : world :=
  World
    [Obj []; Obj []; Obj [("Y", VNum 1); ("Z", VNum 2)];
     Obj [("X", VRef 2)]; Obj [("X", VRef 5)];
     Obj [("Y", VNum 1); ("Z", VNum 2)]]
    [("config.json",
      JsonText (JObj [("X", JObj [("Y", JNum 1); ("Z", JNum 2)])]))].

Definition mistyped_cm : ConfigManager :=
  {| configFileName := "config.json"; created := false;
     oldConfig := VRef 4; config := VRef 3; defaultConfig := VRef 1;
     configFileLoadingError := None |}.

Definition mistyped_world : world :=
  World
    [Obj []; Obj [("S", VRef 8)];
     Obj [("a", VStr "text"); ("junk", VNum 1)];
     Obj [("S", VRef 6)]; Obj [("S", VRef 5)];
     Obj [("a", VStr "text"); ("junk", VNum 1)];
     Obj [("a", VStr "text"); ("b", VNum 7); ("junk", VNum 1)];
     Obj [("S", VRef 6)]; Obj [("a", VNum 5); ("b", VNum 7)]]
    [("config.json",
      JsonText
        (JObj [("S", JObj [("a", JStr "text"); ("b", JNum 7);
                           ("junk", JNum 1)])]))].


Definition mapping_and_array : heap :=
  [Obj []; Obj [("list", VRef 2)]; Arr [Some (VNum 1)] []].

(** ** Arrays in a merge *)

(** From [h] to [h'] no object changes its kind, and no array changes. *)
Definition plain_step (h h' : heap) : Prop :=
  (forall l, is_plain (heap_get h' l) = is_plain (heap_get h l))
  /\ forall l, is_plain (heap_get h l) = false -> heap_get h' l = heap_get h l.

(** ** Footprints *)

Section Footprint.
Variable I : loc -> Prop.

(** The value [v] is not a reference, or it refers to a member of [I]. *)
Definition inside (v : value) : Prop := forall l, v = VRef l -> I l.

(** [I] holds every object that [h] has not allocated yet, and whatever
    can be read from its members. *)
Definition sealed (h : heap) : Prop :=
  (forall l, (length h <= l)%nat -> I l)
  /\ forall l k l', I l -> get_prop (heap_get h l) k = VRef l' -> I l'.

(** From [h] to [h'] the objects outside [I] are as they were, and [I] is
    still sealed. *)
Definition keeps (h h' : heap) : Prop :=
  sealed h' /\ (length h <= length h')%nat
  /\ forall l, ~ I l -> heap_get h' l = heap_get h l.
End Footprint.

(** A factory over the defaults [{db: {host: "h"}, app: {port: 1}}], with
    no file on the disk. *)
Definition factory_defaults : json :=
  JObj [("db", JObj [("host", JStr "h")]); ("app", JObj [("port", JNum 1)])].

Definition posix_join (folder file : string) : string :=
  folder +:+ "/" +:+ file.

Definition example_factory : outcome (ConfigFactory.t * world) :=
  let '(d, h) := build factory_defaults [] in
  ConfigFactory.new posix_join 16 d None (World h []).

Section FactoryInv.
Variable join : string -> string -> string.
Variable I : loc -> Prop.

(** The state of the loop of [readConfig] once the keys [visited] are
    done: the entries of [d] refer into [I], and the entry of a visited
    key is the Document of the store of that key. *)
Definition factory_inv (f : ConfigFactory.t) (ld : loc)
    (visited : list string) (st : list (string * ConfigManager) * world) : Prop :=
  sealed I (objects st.2)
  /\ (ld < length (objects st.2))%nat
  /\ (forall k l, get_prop (heap_get (objects st.2) ld) k = VRef l -> I l)
  /\ forall k, k ∈ visited ->
       (k <> length_key \/ is_plain (heap_get (objects st.2) ld) = true)
       /\ exists cm,
            assoc_get k st.1 = Some cm
            /\ get (objects st.2) (VRef ld) k = Ok (config cm)
            /\ configFileName cm
               = join (ConfigFactory.folder f) (k +:+ ".json").
End FactoryInv.

Definition factory_objects : heap :=
  [Obj [("host", VStr "h")]; Obj [("port", VNum 1)];
   Obj [("db", VRef 0); ("app", VRef 1)]].

(** * Lemmas and theorems *)

(** ** The model at work *)

Example merge_scalar_precedence :
  merge_literals (JObj [("a", JNum 1); ("b", JNum 2)]) (JObj [("b", JNum 3)])
  = Ok (Some (JObj [("a", JNum 1); ("b", JNum 3)])).
Proof. reflexivity. Qed.

Example split_XY : split "X.Y" = ["X"; "Y"].
Proof. reflexivity. Qed.

Example split_empty : split "" = [""].
Proof. reflexivity. Qed.

Example validatePath_examples :
  validatePath "" = Ok tt /\ validatePath "A" = Ok tt
  /\ validatePath "A.B-2_c" = Ok tt
  /\ validatePath ".A" = Throw InvalidPathBoundary
  /\ validatePath "A." = Throw InvalidPathBoundary
  /\ validatePath "A..B" = Throw InvalidPathSegment.
Proof. repeat split; reflexivity. Qed.

(** ** What a value denotes *)

Lemma rden_weaken h A A' v t :
  A ⊆ A' -> rden h A v t -> rden h A' v t.
Proof.
  intros HA Hd. induction Hd using rden_ind'; try constructor.
  - econstructor; [set_solver | done |].
    eapply Forall2_impl; [done |]. intros ? ? (v & -> & ? & ?); eauto.
  - econstructor; [set_solver | done | done |].
    eapply Forall2_impl; [done |]. intros ? ? (? & ? & ?); eauto.
Qed.

Lemma rden_frame h h' A v t :
  (forall l, l ∈ A -> h' !! l = h !! l) -> rden h A v t -> rden h' A v t.
Proof.
  intros HA Hd. induction Hd using rden_ind'; try constructor.
  - econstructor; [done | by rewrite HA |].
    eapply Forall2_impl; [done |]. intros ? ? (v & -> & ? & ?); eauto.
  - econstructor; [done | by rewrite HA | done |].
    eapply Forall2_impl; [done |]. intros ? ? (? & ? & ?); eauto.
Qed.

Lemma den_weaken_mut h A :
  (forall W v t, den h A W v t ->
     forall W' A', W ⊆ W' -> A ⊆ A' -> den h A' W' v t)
  /\ (forall W ps ts, den_props h A W ps ts ->
        forall W' A', W ⊆ W' -> A ⊆ A' -> den_props h A' W' ps ts).
Proof.
  apply den_mutind.
  - intros W v t Ht Hr W' A' HS HA. apply den_leaf; [done |].
    by eapply rden_weaken.
  - intros W l ps ts Hl Hh Hnd _ IH W' A' HS HA.
    eapply den_obj; [set_solver | done | done |].
    apply IH; set_solver.
  - intros. constructor.
  - intros W W1 W2 k v t ps ts Hdisj Hsub _ IH1 _ IH2 W' A' HS HA.
    eapply dp_cons with (W1 := W1) (W2 := W2); [done | set_solver | |].
    + by apply IH1.
    + by apply IH2.
Qed.

Lemma den_weaken h A W v t W' A' :
  den h A W v t -> W ⊆ W' -> A ⊆ A' -> den h A' W' v t.
Proof. intros. by eapply (proj1 (den_weaken_mut h A)). Qed.

Lemma den_props_weaken h A W ps ts W' A' :
  den_props h A W ps ts -> W ⊆ W' -> A ⊆ A' -> den_props h A' W' ps ts.
Proof. intros. by eapply (proj2 (den_weaken_mut h A)). Qed.

Lemma den_frame_mut h h' A :
  (forall l, l ∈ A -> h' !! l = h !! l) ->
  (forall W v t, den h A W v t ->
     (forall l, l ∈ W -> h' !! l = h !! l) -> den h' A W v t)
  /\ (forall W ps ts, den_props h A W ps ts ->
        (forall l, l ∈ W -> h' !! l = h !! l) -> den_props h' A W ps ts).
Proof.
  intros HA. apply den_mutind.
  - intros W v t Ht Hr HS. apply den_leaf; [done |].
    by eapply rden_frame.
  - intros W l ps ts Hl Hh Hnd _ IH HS.
    eapply den_obj; [done | by rewrite HS | done |].
    apply IH. intros l' Hl'. apply HS. set_solver.
  - intros. constructor.
  - intros W W1 W2 k v t ps ts Hdisj Hsub _ IH1 _ IH2 HS.
    eapply dp_cons with (W1 := W1) (W2 := W2); [done | done | |].
    + apply IH1. intros l Hl. apply HS. set_solver.
    + apply IH2. intros l Hl. apply HS. set_solver.
Qed.

Lemma den_frame h h' A W v t :
  den h A W v t ->
  (forall l, l ∈ W ∪ A -> h' !! l = h !! l) -> den h' A W v t.
Proof.
  intros Hd Hf.
  assert (HA : forall l, l ∈ A -> h' !! l = h !! l)
    by (intros l Hl; apply Hf; set_solver).
  eapply (proj1 (den_frame_mut h h' A HA)); [done |].
  intros l Hl; apply Hf; set_solver.
Qed.

Lemma den_props_frame h h' A W ps ts :
  den_props h A W ps ts ->
  (forall l, l ∈ W ∪ A -> h' !! l = h !! l) -> den_props h' A W ps ts.
Proof.
  intros Hd Hf.
  assert (HA : forall l, l ∈ A -> h' !! l = h !! l)
    by (intros l Hl; apply Hf; set_solver).
  eapply (proj2 (den_frame_mut h h' A HA)); [done |].
  intros l Hl; apply Hf; set_solver.
Qed.

(** A document that is owned can be read. *)
Lemma den_rden_mut h A :
  (forall W v t, den h A W v t -> rden h (A ∪ W) v t)
  /\ (forall W ps ts, den_props h A W ps ts ->
        Forall2 (fun p q => p.1 = q.1 /\ rden h (A ∪ W) p.2 q.2) ps ts).
Proof.
  apply den_mutind.
  - intros W v t _ Hr. eapply rden_weaken; [| done]. set_solver.
  - intros W l ps ts Hl Hh Hnd _ IH.
    eapply rden_obj; [set_solver | done | done |].
    eapply Forall2_impl; [done |]. intros ? ? [? ?]. split; [done |].
    eapply rden_weaken; [| done]. set_solver.
  - intros. constructor.
  - intros W W1 W2 k v t ps ts Hdisj Hsub _ IH1 _ IH2.
    constructor.
    + split; [done |]. eapply rden_weaken; [| done]. set_solver.
    + eapply Forall2_impl; [done |]. intros ? ? [? ?]. split; [done |].
      eapply rden_weaken; [| done]. set_solver.
Qed.

Lemma den_rden h A W v t : den h A W v t -> rden h (A ∪ W) v t.
Proof. apply den_rden_mut. Qed.

Lemma rden_isObject h A v t : rden h A v t -> isObject h v = is_mapping t.
Proof.
  destruct 1; simpl; try done; unfold heap_get; by rewrite H0.
Qed.

Lemma den_isObject h A W v t : den h A W v t -> isObject h v = is_mapping t.
Proof. intros Hd. eapply rden_isObject, den_rden, Hd. Qed.

(** ** Property lists *)

Section AssocFacts.
Context {A : Type}.
Implicit Types (ps : list (string * A)) (k : string) (v : A).

Lemma assoc_get_None ps k : assoc_get k ps = None <-> k ∉ ps.*1.
Proof.
  induction ps as [| [k' v'] ps IH]; simpl.
  - split; [intros _; apply not_elem_of_nil | done].
  - destruct (String.eqb_spec k k') as [-> | Hne].
    + split; [done | intros []; left].
    + rewrite IH, not_elem_of_cons. naive_solver.
Qed.

Lemma assoc_get_set_eq ps k v : assoc_get k (assoc_set k v ps) = Some v.
Proof.
  induction ps as [| [k' v'] ps IH]; simpl.
  - by rewrite String.eqb_refl.
  - destruct (String.eqb_spec k k') as [-> | Hne]; simpl.
    + by rewrite String.eqb_refl.
    + by destruct (String.eqb_spec k k').
Qed.

Lemma assoc_get_set_ne ps k k' v :
  k <> k' -> assoc_get k' (assoc_set k v ps) = assoc_get k' ps.
Proof.
  intros Hne. induction ps as [| [k0 v0] ps IH]; simpl.
  - by destruct (String.eqb_spec k' k).
  - destruct (String.eqb_spec k k0) as [-> | Hne0]; simpl.
    + by destruct (String.eqb_spec k' k0).
    + by rewrite IH.
Qed.

Lemma assoc_set_new ps k v :
  assoc_get k ps = None -> assoc_set k v ps = ps ++ [(k, v)].
Proof.
  induction ps as [| [k' v'] ps IH]; simpl; [done |].
  destruct (String.eqb_spec k k'); [done |]. intros H. by rewrite IH.
Qed.

Lemma assoc_set_same ps k v :
  assoc_get k ps = Some v -> assoc_set k v ps = ps.
Proof.
  induction ps as [| [k' v'] ps IH]; simpl; [done |].
  destruct (String.eqb_spec k k') as [-> | Hne].
  - by intros [= ->].
  - intros H. by rewrite IH.
Qed.

Lemma assoc_set_keys ps k v w :
  assoc_get k ps = Some w -> (assoc_set k v ps).*1 = ps.*1.
Proof.
  induction ps as [| [k' v'] ps IH]; simpl; [done |].
  destruct (String.eqb_spec k k') as [-> | Hne]; [done |].
  intros H. rewrite !fmap_cons. f_equal. by apply IH.
Qed.

Lemma assoc_set_NoDup ps k v : NoDup ps.*1 -> NoDup (assoc_set k v ps).*1.
Proof.
  intros Hnd. destruct (assoc_get k ps) as [w |] eqn:Hg.
  - by rewrite (assoc_set_keys _ _ _ _ Hg).
  - rewrite (assoc_set_new _ _ _ Hg), fmap_app. simpl.
    apply NoDup_app. split; [done |]. split; [| apply NoDup_singleton].
    intros x Hx ->%list_elem_of_singleton. by apply assoc_get_None in Hg.
Qed.

Lemma assoc_get_NoDup_lookup ps pre k v post :
  ps = pre ++ (k, v) :: post -> NoDup ps.*1 -> assoc_get k ps = Some v.
Proof.
  intros -> Hnd. induction pre as [| [k' v'] pre IH]; simpl.
  - by rewrite String.eqb_refl.
  - simpl in Hnd. apply NoDup_cons in Hnd as [Hin Hnd].
    destruct (String.eqb_spec k k') as [-> | Hne]; [| by apply IH].
    exfalso. apply Hin. rewrite fmap_app. apply elem_of_app. right. left.
Qed.
End AssocFacts.

(** ** Deep merge on documents *)

Lemma merge_doc_obj pc px :
  merge_doc (JObj pc) (JObj px) = JObj (merge_props pc px).
Proof.
  simpl. f_equal. unfold merge_props. revert pc.
  induction px as [| [k sv] px IH]; intros pc; [done |].
  simpl. rewrite IH. done.
Qed.

Lemma merge_doc_leaf_target target source :
  is_mapping target = false -> merge_doc target source = target.
Proof. by destruct source, target. Qed.

Lemma merge_doc_leaf_source target source :
  is_mapping source = false -> merge_doc target source = target.
Proof. by destruct source, target. Qed.

Lemma rden_truthy h A v t : rden h A v t -> truthy v = jtruthy t.
Proof. by destruct 1. Qed.

(** ** The properties of an owned mapping *)

Lemma den_props_keys h A W ps ts : den_props h A W ps ts -> ps.*1 = ts.*1.
Proof.
  induction 1 as [| ? ? ? ? ? ? ? ? ? ? ? ? IH]; [done |].
  rewrite !fmap_cons. simpl. by rewrite IH.
Qed.

Lemma den_props_get_None h A W ps ts k :
  den_props h A W ps ts -> assoc_get k ps = None -> assoc_get k ts = None.
Proof.
  intros Hd Hg. apply assoc_get_None. rewrite <- (den_props_keys _ _ _ _ _ Hd).
  by apply assoc_get_None.
Qed.

(** Looking a key up splits the mapping into the child found there, with
    its own region [W1], and the rest, which survives any change that
    stays off its region [W2]. *)
Lemma den_props_get_Some h A W ps ts k v :
  den_props h A W ps ts -> assoc_get k ps = Some v ->
  exists t W1 W2,
    assoc_get k ts = Some t /\ den h A W1 v t /\ W1 ## W2 /\ W1 ∪ W2 ⊆ W
    /\ forall h' A' W1' v' t',
         A ⊆ A' -> (forall l, l ∈ W2 ∪ A -> h' !! l = h !! l) ->
         den h' A' W1' v' t' -> W1' ## W2 ->
         den_props h' A' (W1' ∪ W2) (assoc_set k v' ps) (assoc_set k t' ts).
Proof.
  induction 1 as [| W W1 W2 k0 v0 t0 ps ts Hdisj Hsub Hd0 Hdp IH]; [done |].
  simpl. destruct (String.eqb_spec k k0) as [-> | Hne].
  - intros [= <-]. exists t0, W1, W2. repeat split; try done.
    intros h' A' W1' v' t' HA Hf Hd' Hdisj'.
    eapply dp_cons with (W1 := W1') (W2 := W2); [done | done | done |].
    eapply den_props_weaken; [eapply den_props_frame; [done | done] | done | done].
  - intros Hg. destruct (IH Hg) as (t & T1 & T2 & Hgt & Hdt & HT & HTsub & Hclo).
    exists t, T1, (T2 ∪ W1). repeat split; [done | done | set_solver | set_solver |].
    intros h' A' W1' v' t' HA Hf Hd' Hdisj'.
    eapply dp_cons with (W1 := W1) (W2 := W1' ∪ T2);
      [set_solver | set_solver | |].
    + eapply den_weaken; [eapply den_frame; [done |] | done | done].
      intros l Hl. apply Hf. set_solver.
    + apply Hclo; [done | | done | set_solver].
      intros l Hl. apply Hf. set_solver.
Qed.

Lemma den_props_insert h A W ps ts k h' A' W1' v' t' :
  den_props h A W ps ts -> assoc_get k ps = None ->
  A ⊆ A' -> (forall l, l ∈ W ∪ A -> h' !! l = h !! l) ->
  den h' A' W1' v' t' -> W1' ## W ->
  den_props h' A' (W1' ∪ W) (assoc_set k v' ps) (assoc_set k t' ts).
Proof.
  intros Hd. revert W1'.
  induction Hd as [| W W1 W2 k0 v0 t0 ps ts Hdisj Hsub Hd0 Hdp IH];
    intros W1' Hg HA Hf Hd' Hdisj'; simpl.
  - eapply dp_cons with (W1 := W1') (W2 := (∅ : gset loc));
      [set_solver + | set_solver + | done | constructor].
  - simpl in Hg. destruct (String.eqb_spec k k0) as [-> | Hne]; [done |].
    eapply dp_cons with (W1 := W1) (W2 := W1' ∪ W2);
      [set_solver | set_solver | |].
    + eapply den_weaken; [eapply den_frame; [done |] | done | done].
      intros l Hl. apply Hf. set_solver.
    + apply IH; [done | done | | done | set_solver].
      intros l Hl. apply Hf. set_solver.
Qed.

(** ** Regions of the heap *)

Lemma elem_of_fresh h h' l :
  l ∈ fresh h h' <-> (length h <= l < length h')%nat.
Proof.
  unfold fresh. rewrite elem_of_list_to_set, elem_of_seq. lia.
Qed.

Lemma set_unfold_fresh h h' l :
  SetUnfoldElemOf l (fresh h h') (length h <= l < length h')%nat.
Proof. constructor. apply elem_of_fresh. Qed.

#[global] Existing Instance set_unfold_fresh.

Lemma frame_refl X h : frame X h h.
Proof. by split. Qed.

Lemma frame_trans X h1 h2 h3 :
  frame X h1 h2 -> frame (X ∪ fresh h1 h2) h2 h3 -> frame X h1 h3.
Proof.
  intros [Hl1 Hf1] [Hl2 Hf2]. split; [lia |].
  intros l Hl Hlt. rewrite Hf2, Hf1; [done | done | done | | lia].
  set_unfold. intros [? | ?]; [done | lia].
Qed.

Lemma heap_get_lookup h l o : h !! l = Some o -> heap_get h l = o.
Proof. unfold heap_get. by intros ->. Qed.

Ltac ostep := cbn [mbind outcome_bind default from_option id].

(** ** Reading and writing through references *)

Lemma get_obj h l ps k :
  h !! l = Some (Obj ps) ->
  get h (VRef l) k = Ok (default VUndef (assoc_get k ps)).
Proof. intros Hl. simpl. by rewrite (heap_get_lookup _ _ _ Hl). Qed.

Lemma set_obj h l ps k v :
  h !! l = Some (Obj ps) ->
  set h (VRef l) k v = Ok (<[l := Obj (assoc_set k v ps)]> h).
Proof. intros Hl. simpl. by rewrite (heap_get_lookup _ _ _ Hl). Qed.

Lemma frame_insert (W : gset loc) h l o :
  l ∈ W -> frame W h (<[l := o]> h).
Proof.
  intros Hl. split; [by rewrite length_insert |].
  intros l' Hl' _. apply list_lookup_insert_ne. set_solver.
Qed.

Lemma fresh_insert h l o : fresh h (<[l := o]> h) = ∅.
Proof.
  apply set_eq. intros x. set_unfold. rewrite length_insert. lia.
Qed.

Lemma rden_frame' h h' W R v t :
  rden h R v t -> frame W h h' -> W ## R -> bounded h R -> rden h' R v t.
Proof.
  intros Hr [_ Hf] Hdisj Hb. eapply rden_frame; [| done].
  intros l Hl. apply Hf; [set_solver | by apply Hb].
Qed.

Arguments merge_doc : simpl never.

(** ** [mergeConfigs] computes [merge_doc] *)

Lemma merge_key_mapping tcs k st :
  is_mapping st = true ->
  merge_key tcs k st =
    match assoc_get k tcs with
    | Some tv =>
        if jtruthy tv then assoc_set k (merge_doc tv st) tcs
        else assoc_set k (merge_doc (JObj []) st) tcs
    | None => assoc_set k (merge_doc (JObj []) st) tcs
    end.
Proof. by destruct st. Qed.

Lemma merge_key_leaf tcs k st :
  is_mapping st = false -> merge_key tcs k st = assoc_set k st tcs.
Proof. by destruct st. Qed.

Section MergeLoop.
Variables (f : nat) (lc lx : loc) (psx : list (string * value)).
Variable R : gset loc.

Lemma merge_step_spec h pc tcs W A k sv st :
  merge_spec f st ->
  assoc_get k psx = Some sv -> rden h R sv st ->
  h !! lc = Some (Obj pc) -> NoDup pc.*1 -> lc ∈ W ->
  den_props h A (W ∖ {[lc]}) pc tcs ->
  h !! lx = Some (Obj psx) -> lx ∈ R ->
  W ## A -> W ## R -> bounded h (W ∪ A ∪ R) ->
  exists h' pc',
    merge_step (mergeConfigs f) (VRef lc) (VRef lx) (Ok h) k = Ok h'
    /\ h' !! lc = Some (Obj pc') /\ NoDup pc'.*1
    /\ den_props h' (A ∪ R) ((W ∪ fresh h h') ∖ {[lc]}) pc'
         (merge_key tcs k st)
    /\ frame W h h'.
Proof.
  intros IH Hsv Hrd Hlc Hnd HlcW Hdp Hlx HlxR HWA HWR Hb.
  assert (Hne : lx <> lc) by (clear -HlcW HlxR HWR; set_solver).
  assert (HbW : forall x, x ∈ W -> (x < length h)%nat)
    by (intros x Hx; apply Hb; clear -Hx; set_solver).
  assert (HbA : forall x, x ∈ A -> (x < length h)%nat)
    by (intros x Hx; apply Hb; clear -Hx; set_solver).
  assert (HbR : forall x, x ∈ R -> (x < length h)%nat)
    by (intros x Hx; apply Hb; clear -Hx; set_solver).
  assert (Hlclt : (lc < length h)%nat) by by apply HbW.
  unfold merge_step. ostep.
  rewrite (get_obj _ _ _ _ Hlx), Hsv. ostep.
  rewrite (rden_isObject _ _ _ _ Hrd).
  destruct (is_mapping st) eqn:Hmap.
  - (* the source holds a mapping at [k] *)
    rewrite (get_obj _ _ _ _ Hlc). ostep.
    destruct (truthy (default VUndef (assoc_get k pc))) eqn:Htr.
    + (* a truthy target value: merged into, whatever it is *)
      destruct (assoc_get k pc) as [tv |] eqn:Hg; [| done]. simpl in Htr.
      ostep.
      rewrite (get_obj _ _ _ _ Hlc), Hg. ostep.
      rewrite (get_obj _ _ _ _ Hlx), Hsv. ostep.
      destruct (den_props_get_Some _ _ _ _ _ _ _ Hdp Hg)
        as (tt' & W1 & W2 & Hgt & Hdt & H12 & Hsub & Hclo).
      assert (HW1 : W1 ⊆ W ∖ {[lc]}) by (clear -Hsub; set_solver).
      assert (HW2 : W2 ⊆ W ∖ {[lc]}) by (clear -Hsub; set_solver).
      destruct (IH h tv sv tt' W1 A R Hdt Hrd) as (h2 & Hm & Hd2 & Hlen & Hfr).
      { clear -HW1 HWA. set_solver. }
      { clear -HW1 HWR. set_solver. }
      { intros l Hl. apply Hb. clear -Hl HW1. set_solver. }
      rewrite Hm. ostep.
      exists h2, pc. split; [done |].
      split; [rewrite Hfr; [done | clear -HW1; set_solver | done] |].
      split; [done |].
      split.
      2:{ split; [done |]. intros l Hl Hlt. apply Hfr; [| done].
          clear -Hl HW1. set_solver. }
      rewrite (merge_key_mapping _ _ _ Hmap), Hgt.
      rewrite <- (rden_truthy _ _ _ _ (den_rden _ _ _ _ _ Hdt)), Htr.
      rewrite <- (assoc_set_same pc k tv Hg) at 1.
      eapply den_props_weaken; [apply Hclo; [| | exact Hd2 |] | | done].
      * clear. set_solver.
      * intros l Hl. apply Hfr.
        -- clear -Hl H12 HW1 HWA. set_solver.
        -- apply Hb. clear -Hl HW2. set_solver.
      * apply disjoint_union_l. split; [done |].
        intros x Hx Hx2. apply elem_of_fresh in Hx.
        assert (x < length h)%nat by (apply HbW; clear -Hx2 HW2; set_solver).
        lia.
      * intros x Hx. apply elem_of_difference. split.
        -- clear -Hx HW1 HW2. set_solver.
        -- intros ->%elem_of_singleton.
           apply elem_of_union in Hx as [[Hx | Hx]%elem_of_union | Hx].
           ++ clear -Hx HW1. set_solver.
           ++ apply elem_of_fresh in Hx. lia.
           ++ clear -Hx HW2. set_solver.
    + (* absent or falsy: a new mapping is made first *)
      unfold new_object, alloc.
      assert (Hlc1 : (h ++ [Obj []]) !! lc = Some (Obj pc))
        by (by rewrite lookup_app_l).
      rewrite (set_obj _ _ _ _ _ Hlc1). ostep.
      set (n := length h).
      set (h1 := <[lc := Obj (assoc_set k (VRef n) pc)]> (h ++ [Obj []])).
      assert (Hlen1 : length h1 = Datatypes.S (length h)).
      { unfold h1. rewrite length_insert, length_app. simpl. lia. }
      assert (Hlc1' : h1 !! lc = Some (Obj (assoc_set k (VRef n) pc))).
      { unfold h1. apply list_lookup_insert_eq. rewrite length_app. simpl. lia. }
      assert (Hold : forall l, l <> lc -> (l < length h)%nat -> h1 !! l = h !! l).
      { intros l Hl Hlt. unfold h1.
        rewrite list_lookup_insert_ne by done. by rewrite lookup_app_l. }
      assert (Hn1 : h1 !! n = Some (Obj [])).
      { unfold h1. rewrite list_lookup_insert_ne by (unfold n; lia).
        unfold n. rewrite lookup_app_r by lia.
        by replace (length h - length h)%nat with 0%nat by lia. }
      rewrite (get_obj _ _ _ _ Hlc1'), assoc_get_set_eq. ostep.
      assert (Hlx1 : h1 !! lx = Some (Obj psx)).
      { rewrite Hold; [done | done |]. by apply HbR. }
      rewrite (get_obj _ _ _ _ Hlx1), Hsv. ostep.
      assert (Hrd1 : rden h1 R sv st).
      { eapply rden_frame; [| done]. intros l Hl. apply Hold; [| by apply HbR].
        clear -Hl HlcW HWR. set_solver. }
      assert (Hdn : den h1 A {[n]} (VRef n) (JObj [])).
      { eapply den_obj; [clear; set_solver | done | constructor | constructor]. }
      destruct (IH h1 (VRef n) sv (JObj []) {[n]} A R Hdn Hrd1)
        as (h2 & Hm & Hd2 & Hlen & Hfr).
      { intros x ->%elem_of_singleton Hx. apply HbA in Hx. unfold n in Hx. lia. }
      { intros x ->%elem_of_singleton Hx. apply HbR in Hx. unfold n in Hx. lia. }
      { intros l Hl. rewrite Hlen1.
        apply elem_of_union in Hl as [[->%elem_of_singleton | Hl]%elem_of_union | Hl].
        - unfold n. lia.
        - apply HbA in Hl. lia.
        - apply HbR in Hl. lia. }
      rewrite Hm. ostep.
      assert (Hold2 : forall l, l <> lc -> (l < length h)%nat -> h2 !! l = h !! l).
      { intros l Hl Hlt. rewrite Hfr; [by apply Hold | | lia].
        intros ->%elem_of_singleton. unfold n in Hlt. lia. }
      exists h2, (assoc_set k (VRef n) pc). split; [done |].
      split.
      { rewrite Hfr; [done | | lia].
        intros ->%elem_of_singleton. unfold n in Hlclt. lia. }
      split; [by apply assoc_set_NoDup |].
      split.
      2:{ split; [lia |]. intros l Hl Hlt. apply Hold2; [| done].
          intros ->. done. }
      assert (Hkey : merge_key tcs k st
                     = assoc_set k (merge_doc (JObj []) st) tcs).
      { rewrite (merge_key_mapping _ _ _ Hmap).
        destruct (assoc_get k pc) as [tv |] eqn:Hg.
        - destruct (den_props_get_Some _ _ _ _ _ _ _ Hdp Hg)
            as (tt' & W1 & W2 & Hgt & Hdt & _).
          rewrite Hgt. simpl in Htr.
          by rewrite <- (rden_truthy _ _ _ _ (den_rden _ _ _ _ _ Hdt)), Htr.
        - by rewrite (den_props_get_None _ _ _ _ _ _ Hdp Hg). }
      rewrite Hkey.
      assert (Hfresh : forall x, x ∈ ({[n]} ∪ fresh h1 h2 : gset loc) ->
                                 x ∈ fresh h h2 /\ x <> lc /\ x ∉ W).
      { intros x Hx. rewrite elem_of_fresh.
        assert (length h <= x < length h2)%nat.
        { apply elem_of_union in Hx as [->%elem_of_singleton | Hx].
          - unfold n. lia.
          - apply elem_of_fresh in Hx. lia. }
        split; [done |]. split; [lia |]. intros Hx'%HbW. lia. }
      destruct (assoc_get k pc) as [tv |] eqn:Hg.
      * destruct (den_props_get_Some _ _ _ _ _ _ _ Hdp Hg)
          as (tt' & W1 & W2 & Hgt & Hdt & H12 & Hsub & Hclo).
        assert (HW2 : W2 ⊆ W ∖ {[lc]}) by (clear -Hsub; set_solver).
        eapply den_props_weaken; [apply Hclo; [| | exact Hd2 |] | | done].
        -- clear. set_solver.
        -- intros l Hl. apply Hold2.
           ++ clear -Hl HW2 HlcW HWA. set_solver.
           ++ apply Hb. clear -Hl HW2. set_solver.
        -- intros x Hx Hx2. apply Hfresh in Hx as (_ & _ & Hx).
           apply Hx. clear -Hx2 HW2. set_solver.
        -- intros x [Hx | Hx]%elem_of_union.
           ++ apply Hfresh in Hx as (Hx & Hne' & _).
              clear -Hx Hne'. set_solver.
           ++ clear -Hx HW2. set_solver.
      * eapply den_props_weaken;
          [eapply den_props_insert; [exact Hdp | done | | | exact Hd2 |] | | done].
        -- clear. set_solver.
        -- intros l Hl. apply Hold2.
           ++ clear -Hl HlcW HWA. set_solver.
           ++ apply Hb. clear -Hl. set_solver.
        -- intros x Hx Hx2. apply Hfresh in Hx as (_ & _ & Hx).
           apply Hx. clear -Hx2. set_solver.
        -- intros x [Hx | Hx]%elem_of_union.
           ++ apply Hfresh in Hx as (Hx & Hne' & _).
              clear -Hx Hne'. set_solver.
           ++ clear -Hx. set_solver.
  - (* a scalar or an array: assigned *)
    rewrite (set_obj _ _ _ _ _ Hlc).
    set (h1 := <[lc := Obj (assoc_set k sv pc)]> h).
    assert (Hold : forall l, l <> lc -> h1 !! l = h !! l).
    { intros l Hl. unfold h1. by rewrite list_lookup_insert_ne. }
    exists h1, (assoc_set k sv pc). split; [done |].
    split; [by apply list_lookup_insert_eq |].
    split; [by apply assoc_set_NoDup |].
    split; [| by apply frame_insert].
    assert (Hd1 : den h1 (A ∪ R) ∅ sv st).
    { apply den_leaf; [done |].
      eapply rden_weaken; [| eapply rden_frame; [| done]].
      - clear. set_solver.
      - intros l Hl. apply Hold. clear -Hl HlcW HWR. set_solver. }
    rewrite (merge_key_leaf _ _ _ Hmap).
    replace (fresh h h1) with (∅ : gset loc)
      by (symmetry; apply fresh_insert).
    destruct (assoc_get k pc) as [tv |] eqn:Hg.
    * destruct (den_props_get_Some _ _ _ _ _ _ _ Hdp Hg)
        as (tt' & W1 & W2 & Hgt & Hdt & H12 & Hsub & Hclo).
      assert (HW2 : W2 ⊆ W ∖ {[lc]}) by (clear -Hsub; set_solver).
      eapply den_props_weaken; [apply Hclo; [| | exact Hd1 |] | | done].
      -- clear. set_solver.
      -- intros l Hl. apply Hold. clear -Hl HW2 HlcW HWA. set_solver.
      -- clear. set_solver.
      -- clear -HW2. set_solver.
    * eapply den_props_weaken;
        [eapply den_props_insert; [exact Hdp | done | | | exact Hd1 |] | | done].
      -- clear. set_solver.
      -- intros l Hl. apply Hold. clear -Hl HlcW HWA. set_solver.
      -- clear. set_solver.
      -- clear. set_solver.
Qed.

Lemma merge_loop_spec sfx_ps sfx_ts :
  Forall (fun q => merge_spec f q.2) sfx_ts ->
  forall h pc tcs W A,
  Forall2 (fun p q => p.1 = q.1 /\ assoc_get p.1 psx = Some p.2
                      /\ rden h R p.2 q.2) sfx_ps sfx_ts ->
  h !! lc = Some (Obj pc) -> NoDup pc.*1 -> lc ∈ W ->
  den_props h A (W ∖ {[lc]}) pc tcs ->
  h !! lx = Some (Obj psx) -> lx ∈ R ->
  W ## A -> W ## R -> bounded h (W ∪ A ∪ R) ->
  exists h' pc',
    fold_left (merge_step (mergeConfigs f) (VRef lc) (VRef lx))
      sfx_ps.*1 (Ok h) = Ok h'
    /\ h' !! lc = Some (Obj pc') /\ NoDup pc'.*1
    /\ den_props h' (A ∪ R) ((W ∪ fresh h h') ∖ {[lc]}) pc'
         (merge_props tcs sfx_ts)
    /\ frame W h h'.
Proof.
  intros HIH. revert sfx_ps.
  induction HIH as [| [k st] sfx_ts Hst _ IH];
    intros sfx_ps h pc tcs W A HF Hlc Hnd HlcW Hdp Hlx HlxR HWA HWR Hb;
    inversion HF as [| [k' sv] ? sfx_ps' ? (Hk & Hsv & Hrd) HF']; subst.
  - exists h, pc. split; [done |]. split; [done |]. split; [done |].
    split; [| apply frame_refl].
    eapply den_props_weaken; [done | |]; clear; set_solver.
  - simpl in Hk, Hsv, Hrd. subst k'. rewrite fmap_cons. cbn [fold_left fst].
    destruct (merge_step_spec h pc tcs W A k sv st Hst Hsv Hrd Hlc Hnd HlcW
                Hdp Hlx HlxR HWA HWR Hb)
      as (h1 & pc1 & Hstep & Hlc1 & Hnd1 & Hdp1 & Hlen1 & Hfr1).
    rewrite Hstep.
    assert (HbW : forall x, x ∈ W -> (x < length h)%nat)
      by (intros x Hx; apply Hb; clear -Hx; set_solver).
    assert (HbA : forall x, x ∈ A -> (x < length h)%nat)
      by (intros x Hx; apply Hb; clear -Hx; set_solver).
    assert (HbR : forall x, x ∈ R -> (x < length h)%nat)
      by (intros x Hx; apply Hb; clear -Hx; set_solver).
    assert (HRW : forall x, x ∈ R -> x ∉ W) by (clear -HWR; set_solver).
    destruct (IH sfx_ps' h1 pc1 (merge_key tcs k st) (W ∪ fresh h h1) (A ∪ R))
      as (h' & pc' & Hfold & Hlc' & Hnd' & Hdp' & Hlen' & Hfr').
    { eapply Forall2_impl; [exact HF' |].
      intros p q (? & ? & Hr). split; [done |]. split; [done |].
      eapply rden_frame; [| done]. intros l Hl.
      apply Hfr1; [by apply HRW | by apply HbR]. }
    { done. } { done. } { clear -HlcW. set_solver. } { done. }
    { rewrite Hfr1; [done | by apply HRW | by apply HbR]. }
    { done. }
    { intros x [Hx | Hx]%elem_of_union Hx2.
      - clear -Hx Hx2 HWA HWR. set_solver.
      - apply elem_of_fresh in Hx.
        apply elem_of_union in Hx2 as [Hx2%HbA | Hx2%HbR]; lia. }
    { intros x [Hx | Hx]%elem_of_union Hx2.
      - clear -Hx Hx2 HWR. set_solver.
      - apply elem_of_fresh in Hx. apply HbR in Hx2. lia. }
    { intros x Hx.
      apply elem_of_union in Hx as [[[Hx | Hx]%elem_of_union | Hx]%elem_of_union | Hx].
      - apply HbW in Hx. lia.
      - apply elem_of_fresh in Hx. lia.
      - apply elem_of_union in Hx as [Hx%HbA | Hx%HbR]; lia.
      - apply HbR in Hx. lia. }
    exists h', pc'. split; [done |]. split; [done |]. split; [done |].
    split.
    + eapply den_props_weaken; [exact Hdp' | | clear; set_solver].
      intros x [Hx Hx2]%elem_of_difference. apply elem_of_difference.
      split; [| done].
      apply elem_of_union in Hx as [[Hx | Hx]%elem_of_union | Hx].
      * clear -Hx. set_solver.
      * apply elem_of_union_r, elem_of_fresh.
        apply elem_of_fresh in Hx. lia.
      * apply elem_of_union_r, elem_of_fresh.
        apply elem_of_fresh in Hx. lia.
    + apply (frame_trans _ _ h1); by split.
Qed.
End MergeLoop.

Lemma height_child (ps : list (string * json)) p :
  p ∈ ps -> (height p.2 < height (JObj ps))%nat.
Proof.
  simpl. induction 1 as [| ? ? ? _ IH]; simpl; lia.
Qed.

Lemma NoDup_assoc_get {A} (ps : list (string * A)) :
  NoDup ps.*1 -> Forall (fun p => assoc_get p.1 ps = Some p.2) ps.
Proof.
  intros Hnd. apply Forall_forall. intros [k v] Hin.
  apply list_elem_of_split in Hin as (pre & post & ->).
  by eapply assoc_get_NoDup_lookup.
Qed.

(** [mergeConfigs(target, source)] on an owned target and a separate
    source: it returns [target], which then denotes [merge_doc], having
    changed nothing but the mappings of the target and new objects. *)
Theorem mergeConfigs_refines tx :
  forall f, (height tx + 2 <= f)%nat -> merge_spec f tx.
Proof.
  induction tx as [| b | n | s | es _ | px IH] using json_rect';
    intros f Hf h c x tc W A R Hd Hr HWA HWR Hb;
    (destruct f as [| f']; [lia |]); cbn [mergeConfigs];
    (destruct f' as [| f'']; [simpl in Hf; lia |]).
  1-5: rewrite (rden_isObject _ _ _ _ Hr), andb_false_r; ostep; simpl;
       exists h; split; [done |]; split; [| apply frame_refl];
       rewrite merge_doc_leaf_source by done;
       (eapply den_weaken; [done | |]; clear; set_solver).
  rewrite (den_isObject _ _ _ _ _ Hd), (rden_isObject _ _ _ _ Hr).
  destruct (is_mapping tc) eqn:Htc; simpl andb; cbv iota.
  2:{ ostep. simpl. exists h. split; [done |]. split; [| apply frame_refl].
      rewrite merge_doc_leaf_target by done.
      eapply den_weaken; [done | |]; clear; set_solver. }
  inversion Hd as [? ? ? Hleaf | ? lc pc tcs HlcW Hlc Hnd Hdp]; subst;
    [simpl in Htc; congruence |].
  inversion Hr as [| | | | | lx psx ? HlxR Hlx Hndx HFx]; subst.
  cbn [keys]. rewrite (heap_get_lookup _ _ _ Hlx). ostep. cbn [own_keys].
  destruct (merge_loop_spec (Datatypes.S f'') lc lx psx R psx px) with
    (h := h) (pc := pc) (tcs := tcs) (W := W) (A := A)
    as (h' & pc' & Hfold & Hlc' & Hnd' & Hdp' & Hfr); try done.
  - apply Forall_forall. intros q Hq.
    rewrite Forall_forall in IH. apply IH; [done |].
    apply height_child in Hq. lia.
  - apply NoDup_assoc_get in Hndx.
    clear -HFx Hndx. revert Hndx. generalize psx at 1 3.
    induction HFx as [| p q ps qs [Hk Hrd] _ IH']; intros ps0 Hps; [constructor |].
    inversion Hps; subst. constructor; [done |]. by apply IH'.
  - rewrite Hfold. ostep. simpl. exists h'. split; [done |].
    split; [| done]. rewrite merge_doc_obj.
    eapply den_obj; [clear -HlcW; set_solver | done | done |].
    eapply den_props_weaken; [done | | done]. clear. set_solver.
Qed.

(** ** Building a document gives an owned tree *)

Lemma fresh_app_elem h ext l :
  l ∈ fresh h (h ++ ext) <-> (length h <= l < length h + length ext)%nat.
Proof. rewrite elem_of_fresh, length_app. lia. Qed.

Lemma rden_extend h ext A v t :
  rden h A v t -> bounded h A -> rden (h ++ ext) A v t.
Proof.
  intros Hr Hb. eapply rden_frame; [| done].
  intros l Hl. apply lookup_app_l. by apply Hb.
Qed.

Lemma den_extend h ext A W v t :
  den h A W v t -> bounded h (W ∪ A) -> den (h ++ ext) A W v t.
Proof.
  intros Hd Hb. eapply den_frame; [done |].
  intros l Hl. apply lookup_app_l. by apply Hb.
Qed.

Lemma den_props_extend h ext A W ps ts :
  den_props h A W ps ts -> bounded h (W ∪ A) -> den_props (h ++ ext) A W ps ts.
Proof.
  intros Hd Hb. eapply den_props_frame; [done |].
  intros l Hl. apply lookup_app_l. by apply Hb.
Qed.

Lemma bounded_fresh h0 h X : X ⊆ fresh h0 h -> bounded h X.
Proof. intros HX l Hl. apply HX, elem_of_fresh in Hl. lia. Qed.

Lemma dedup_NoDup_aux {A} (kvs acc : list (string * A)) :
  NoDup acc.*1 ->
  NoDup (fold_left (fun acc kv => assoc_set kv.1 kv.2 acc) kvs acc).*1.
Proof.
  revert acc. induction kvs as [| [k v] kvs IH]; intros acc Hnd; [done |].
  simpl. apply IH. by apply assoc_set_NoDup.
Qed.

Lemma dedup_NoDup {A} (kvs : list (string * A)) : NoDup (dedup kvs).*1.
Proof. apply dedup_NoDup_aux. constructor. Qed.

Lemma den_props_dedup_aux h A Wr rest restT :
  den_props h A Wr rest restT ->
  forall Wacc acc accT,
    den_props h A Wacc acc accT -> Wacc ## Wr ->
    den_props h A (Wacc ∪ Wr)
      (fold_left (fun acc kv => assoc_set kv.1 kv.2 acc) rest acc)
      (fold_left (fun acc kv => assoc_set kv.1 kv.2 acc) restT accT).
Proof.
  induction 1 as [| Wr W1 W2 k v t ps ts Hdisj Hsub Hd Hdp IH];
    intros Wacc acc accT Hacc Hsep; simpl.
  - eapply den_props_weaken; [done | |]; clear; set_solver.
  - assert (Hnew : den_props h A (W1 ∪ Wacc) (assoc_set k v acc)
                     (assoc_set k t accT)).
    { destruct (assoc_get k acc) as [old |] eqn:Hg.
      - destruct (den_props_get_Some _ _ _ _ _ _ _ Hacc Hg)
          as (t0 & V1 & V2 & _ & _ & _ & HV & Hclo).
        eapply den_props_weaken; [apply Hclo; [done | done | exact Hd |] | | done].
        + clear -HV Hsep Hsub. set_solver.
        + clear -HV. set_solver.
      - eapply den_props_insert; [exact Hacc | done | done | done | exact Hd |].
        clear -Hsep Hsub. set_solver. }
    eapply den_props_weaken; [apply (IH _ _ _ Hnew) | | done].
    + clear -Hsep Hsub Hdisj. set_solver.
    + clear -Hsub. set_solver.
Qed.

Lemma den_props_dedup h A W kvs ts :
  den_props h A W kvs ts -> den_props h A W (dedup kvs) (dedup ts).
Proof.
  intros Hd. unfold dedup.
  eapply den_props_weaken;
    [eapply (den_props_dedup_aux _ _ _ _ _ Hd ∅); [constructor |] | | done];
    clear; set_solver.
Qed.

Lemma build_elems_spec es :
  Forall build_spec es ->
  forall h, exists ext,
    (build_elems build es h).2 = h ++ ext
    /\ Forall2 (fun e t => exists v, e = Some v
                  /\ rden (h ++ ext) (fresh h (h ++ ext)) v t)
         (build_elems build es h).1 (map norm es).
Proof.
  induction 1 as [| e es He _ IH]; intros h; simpl.
  - exists []. split; [by rewrite app_nil_r | constructor].
  - destruct (He h) as (ext1 & W & A & Hh1 & Hd & HWA & Hsub).
    destruct (build e h) as [v h1]. simpl in Hh1, Hd. subst h1.
    destruct (IH (h ++ ext1)) as (ext2 & Hh2 & HF).
    destruct (build_elems build es (h ++ ext1)) as [vs h2].
    simpl in Hh2, HF. subst h2. simpl.
    exists (ext1 ++ ext2). rewrite app_assoc. split; [done |]. constructor.
    + exists v. split; [done |].
      eapply rden_weaken; [| apply rden_extend; [apply (den_rden _ _ _ _ _ Hd) |]].
      * intros x Hx. apply elem_of_fresh.
        assert (x ∈ fresh h (h ++ ext1)) as Hx'%elem_of_fresh
          by (clear -Hx Hsub; set_solver).
        rewrite !length_app in *. lia.
      * apply (bounded_fresh h). clear -Hsub. set_solver.
    + eapply Forall2_impl; [exact HF |]. intros ? ? (v' & -> & Hr).
      exists v'. split; [done |]. eapply rden_weaken; [| done].
      intros x Hx%elem_of_fresh. apply elem_of_fresh.
      rewrite !length_app in *. lia.
Qed.

Lemma build_props_spec ps :
  Forall (fun p => build_spec p.2) ps ->
  forall h, exists ext W A,
    (build_props build ps h).2 = h ++ ext
    /\ den_props (h ++ ext) A W (build_props build ps h).1
         (map (fun p => (p.1, norm p.2)) ps)
    /\ W ## A /\ W ∪ A ⊆ fresh h (h ++ ext).
Proof.
  induction 1 as [| [k e] ps He _ IH]; intros h; simpl.
  - exists [], ∅, ∅. rewrite app_nil_r.
    split; [done |]. split; [constructor |]. split; clear; set_solver.
  - destruct (He h) as (ext1 & W1 & A1 & Hh1 & Hd & HWA1 & Hsub1).
    simpl in *. destruct (build e h) as [v h1]. simpl in Hh1, Hd. subst h1.
    destruct (IH (h ++ ext1)) as (ext2 & W2 & A2 & Hh2 & Hdp & HWA2 & Hsub2).
    destruct (build_props build ps (h ++ ext1)) as [kvs h2].
    simpl in Hh2, Hdp. subst h2. simpl.
    assert (H1 : forall x, x ∈ W1 ∪ A1 ->
                   (length h <= x < length h + length ext1)%nat).
    { intros x Hx. by apply fresh_app_elem, Hsub1. }
    assert (H2 : forall x, x ∈ W2 ∪ A2 ->
                   (length h + length ext1 <= x
                    < length h + length ext1 + length ext2)%nat).
    { intros x Hx. apply Hsub2, elem_of_fresh in Hx.
      rewrite !length_app in Hx. lia. }
    exists (ext1 ++ ext2), (W1 ∪ W2), (A1 ∪ A2). rewrite app_assoc.
    split; [done |]. split; [| split].
    + eapply dp_cons with (W1 := W1) (W2 := W2); [| done | |].
      * intros x Hx1 Hx2.
        assert (x ∈ W1 ∪ A1) as ?%H1 by (clear -Hx1; set_solver).
        assert (x ∈ W2 ∪ A2) as ?%H2 by (clear -Hx2; set_solver). lia.
      * eapply den_weaken; [apply den_extend; [exact Hd |] | done |].
        -- apply (bounded_fresh h). exact Hsub1.
        -- clear. set_solver.
      * eapply den_props_weaken; [exact Hdp | done |]. clear. set_solver.
    + intros x [Hx1 | Hx1]%elem_of_union [Hx2 | Hx2]%elem_of_union.
      * clear -Hx1 Hx2 HWA1. set_solver.
      * assert (x ∈ W1 ∪ A1) as ?%H1 by (clear -Hx1; set_solver).
        assert (x ∈ W2 ∪ A2) as ?%H2 by (clear -Hx2; set_solver). lia.
      * assert (x ∈ W1 ∪ A1) as ?%H1 by (clear -Hx2; set_solver).
        assert (x ∈ W2 ∪ A2) as ?%H2 by (clear -Hx1; set_solver). lia.
      * clear -Hx1 Hx2 HWA2. set_solver.
    + intros x Hx. apply elem_of_fresh. rewrite !length_app.
      assert (x ∈ W1 ∪ A1 \/ x ∈ W2 ∪ A2) as [?%H1 | ?%H2]
        by (clear -Hx; set_solver); lia.
Qed.

Theorem build_ok t : build_spec t.
Proof.
  induction t as [| b | n | s | es IH | ps IH] using json_rect'; intros h.
  1-4: exists [], ∅, ∅; rewrite app_nil_r; simpl;
       (split; [done |]); (split; [by apply den_leaf; [| constructor] |]);
       split; clear; set_solver.
  - destruct (build_elems_spec es IH h) as (ext & Hh1 & HF).
    simpl. destruct (build_elems build es h) as [vs h1].
    simpl in Hh1, HF. subst h1. simpl.
    exists (ext ++ [Arr vs []]), ∅, (fresh h (h ++ ext ++ [Arr vs []])).
    rewrite app_assoc. split; [done |]. split; [| split; clear; set_solver].
    apply den_leaf; [done |].
    eapply rden_arr with (es := vs) (ps := []).
    + apply elem_of_fresh. rewrite !length_app. simpl. lia.
    + rewrite lookup_app_r by lia.
      by replace (length (h ++ ext) - length (h ++ ext))%nat with 0%nat by lia.
    + eapply Forall2_impl; [exact HF |]. intros ? ? (v & -> & Hr).
      exists v. split; [done |].
      eapply rden_weaken; [| apply rden_extend; [exact Hr |]].
      * intros x Hx%elem_of_fresh. apply elem_of_fresh.
        rewrite !length_app in *. simpl. lia.
      * by apply (bounded_fresh h).
  - destruct (build_props_spec ps IH h) as (ext & W & A & Hh1 & Hdp & HWA & Hsub).
    simpl. destruct (build_props build ps h) as [kvs h1].
    simpl in Hh1, Hdp. subst h1. simpl.
    set (l := length (h ++ ext)).
    assert (Hb : forall x, x ∈ W ∪ A -> (length h <= x < l)%nat).
    { intros x Hx%Hsub%fresh_app_elem. unfold l. rewrite length_app. lia. }
    exists (ext ++ [Obj (dedup kvs)]), ({[l]} ∪ W), A.
    rewrite app_assoc. split; [done |]. split; [| split].
    + eapply den_obj.
      * clear. set_solver.
      * unfold l. rewrite lookup_app_r by lia.
        by replace (length (h ++ ext) - length (h ++ ext))%nat with 0%nat by lia.
      * apply dedup_NoDup.
      * eapply den_props_weaken;
          [apply den_props_extend; [apply den_props_dedup; exact Hdp |] | | done].
        -- by apply (bounded_fresh h).
        -- intros x Hx. apply elem_of_difference. split; [clear -Hx; set_solver |].
           intros ->%elem_of_singleton.
           assert (l ∈ W ∪ A) as ?%Hb by (clear -Hx; set_solver). lia.
    + intros x [->%elem_of_singleton | Hx]%elem_of_union Hx2.
      * assert (l ∈ W ∪ A) as ?%Hb by (clear -Hx2; set_solver). lia.
      * clear -Hx Hx2 HWA. set_solver.
    + intros x Hx. apply elem_of_fresh.
      rewrite !length_app. simpl.
      apply elem_of_union in Hx as [[->%elem_of_singleton | Hx]%elem_of_union | Hx].
      * unfold l. rewrite length_app. lia.
      * assert (x ∈ W ∪ A) as ?%Hb by (clear -Hx; set_solver).
        unfold l in *. rewrite length_app in *. lia.
      * assert (x ∈ W ∪ A) as ?%Hb by (clear -Hx; set_solver).
        unfold l in *. rewrite length_app in *. lia.
Qed.

(** ** Documents are read back by [JSON.stringify] *)

Lemma rden_functional h A v t :
  rden h A v t -> forall A' t', rden h A' v t' -> t = t'.
Proof.
  induction 1 as [| | | | l es ps ts Hl Hh HF | l ps ts Hl Hh Hnd HF]
    using rden_ind'; intros A' t' Hr';
    inversion Hr' as [| | | | ? es' ps' ts' Hl' Hh' HF'
                      | ? ps' ts' Hl' Hh' Hnd' HF']; subst; try done;
    try congruence.
  - f_equal. rewrite Hh in Hh'. injection Hh' as <- <-.
    clear Hh Hr'. revert ts' HF'.
    induction HF as [| e t es ts (v & -> & _ & IHv) _ IH]; intros ts0 HF0;
      inversion HF0 as [| ? ? ? ? (v' & Heq & Hv') HF0']; simplify_eq; [done |].
    f_equal; [by eapply IHv | by apply IH].
  - f_equal. rewrite Hh in Hh'. injection Hh' as <-.
    clear Hnd Hnd' Hh Hr'. revert ts' HF'.
    induction HF as [| [k v] [k' t] ps ts (Hk & _ & IHv) _ IH];
      intros ts0 HF0;
      inversion HF0 as [| ? [k0 t0] ? ? (Hk0 & Hv') HF0']; subst; [done |].
    simpl in *. subst. f_equal; [f_equal; by eapply IHv | by apply IH].
Qed.

Lemma height_elem (es : list json) e :
  e ∈ es -> (height e < height (JArr es))%nat.
Proof. simpl. induction 1 as [| ? ? ? _ IH]; simpl; lia. Qed.

Lemma stringify_rden h A v t :
  rden h A v t ->
  forall fuel stack,
    (height t < fuel)%nat ->
    (forall l A' t', l ∈ stack -> rden h A' (VRef l) t' ->
                     (height t < height t')%nat) ->
    stringify fuel h stack v = Ok (Some t).
Proof.
  induction 1 as [| | | | l es ps ts Hl Hh HF | l ps ts Hl Hh Hnd HF]
    using rden_ind'; intros fuel stack Hfuel Hstack;
    (destruct fuel as [| fuel']; [lia |]); try done.
  - assert (Hself : rden h A (VRef l) (JArr ts)).
    { econstructor; [done | done |]. eapply Forall2_impl; [done |].
      intros ? ? (v & -> & ? & _). eauto. }
    cbn [stringify]. rewrite bool_decide_eq_false_2.
    2:{ intros Hin. specialize (Hstack _ _ _ Hin Hself). lia. }
    rewrite (heap_get_lookup _ _ _ Hh).
    assert (Hst : forall t, t ∈ ts -> (height t < height (JArr ts))%nat)
      by apply height_elem.
    assert (Hgen : forall es0 ts0, (forall t, t ∈ ts0 -> t ∈ ts) ->
              Forall2 (fun e t => exists v, e = Some v /\ rden h A v t /\
                (forall fuel stack, (height t < fuel)%nat ->
                   (forall l A' t', l ∈ stack -> rden h A' (VRef l) t' ->
                      (height t < height t')%nat) ->
                   stringify fuel h stack v = Ok (Some t))) es0 ts0 ->
              foldr (fun e acc =>
                rest ← acc;
                t ← stringify fuel' h (l :: stack) (default VUndef e);
                Ok (default JNull t :: rest)) (Ok []) es0 = Ok ts0).
    { intros es0 ts0 Hin HF0.
      induction HF0 as [| e t es0 ts0 (v & -> & Hv & IHv) _ IH]; [done |].
      simpl. rewrite IH by (intros; apply Hin; by constructor). ostep.
      rewrite IHv; [done | |].
      - assert (height t < height (JArr ts))%nat by (apply Hst, Hin; constructor). lia.
      - intros l' A' t' [-> | Hin']%elem_of_cons Hr'.
        + rewrite <- (rden_functional _ _ _ _ Hself _ _ Hr').
          apply Hst, Hin. constructor.
        + assert (height t < height (JArr ts))%nat by (apply Hst, Hin; constructor).
          specialize (Hstack _ _ _ Hin' Hr'). lia. }
    change (fold_right ?f ?a ?l) with (foldr f a l).
    rewrite (Hgen es ts); done.
  - assert (Hself : rden h A (VRef l) (JObj ts)).
    { econstructor; [done | done | done |]. eapply Forall2_impl; [done |].
      intros ? ? (? & ? & _). eauto. }
    cbn [stringify]. rewrite bool_decide_eq_false_2.
    2:{ intros Hin. specialize (Hstack _ _ _ Hin Hself). lia. }
    rewrite (heap_get_lookup _ _ _ Hh).
    assert (Hst : forall p, p ∈ ts -> (height p.2 < height (JObj ts))%nat)
      by apply height_child.
    assert (Hgen : forall ps0 ts0, (forall t, t ∈ ts0 -> t ∈ ts) ->
              Forall2 (fun p q => p.1 = q.1 /\ rden h A p.2 q.2 /\
                (forall fuel stack, (height q.2 < fuel)%nat ->
                   (forall l A' t', l ∈ stack -> rden h A' (VRef l) t' ->
                      (height q.2 < height t')%nat) ->
                   stringify fuel h stack p.2 = Ok (Some q.2))) ps0 ts0 ->
              foldr (fun kv acc =>
                rest ← acc;
                t ← stringify fuel' h (l :: stack) kv.2;
                Ok (match t with
                    | Some t => (kv.1, t) :: rest
                    | None => rest
                    end)) (Ok []) ps0 = Ok ts0).
    { intros ps0 ts0 Hin HF0.
      induction HF0 as [| [k v] [k' t] ps0 ts0 (Hk & Hv & IHv) _ IH]; [done |].
      cbn [fst snd] in *. subst k'. cbn [foldr].
      rewrite IH by (intros; apply Hin; by constructor). ostep.
      rewrite IHv; [done | |].
      - assert (height t < height (JObj ts))%nat
          by (apply (Hst (k, t)), Hin; constructor). lia.
      - intros l' A' t' [-> | Hin']%elem_of_cons Hr'.
        + rewrite <- (rden_functional _ _ _ _ Hself _ _ Hr').
          apply (Hst (k, t)), Hin. constructor.
        + assert (height t < height (JObj ts))%nat
            by (apply (Hst (k, t)), Hin; constructor).
          specialize (Hstack _ _ _ Hin' Hr'). lia. }
    change (fold_right ?f ?a ?l) with (foldr f a l).
    rewrite (Hgen ps ts); done.
Qed.

(** The objects along a descent are distinct, so a document is never
    deeper than the heap is large. *)
Lemma max_height_witness {B} (f : B -> json) (xs : list B) :
  foldr (fun x n => max (height (f x)) n) 0%nat xs = 0%nat
  \/ exists x, x ∈ xs
       /\ height (f x) = foldr (fun x n => max (height (f x)) n) 0%nat xs.
Proof.
  induction xs as [| x xs IH]; [by left |]. simpl.
  destruct (Nat.max_spec (height (f x))
              (foldr (fun x n => max (height (f x)) n) 0%nat xs)) as [[Hlt ->] | [Hle ->]].
  - destruct IH as [H0 | (y & Hy & Hh)]; [left; lia |].
    right. exists y. split; [by constructor | done].
  - right. exists x. split; [constructor | done].
Qed.

Lemma rden_lookup h A l t : rden h A (VRef l) t -> (l < length h)%nat.
Proof. inversion 1; subst; by eapply lookup_lt_Some. Qed.

Lemma rden_chain h A v t :
  rden h A v t ->
  exists chain : list (loc * json),
    length chain = height t
    /\ Forall (fun p => (exists A', rden h A' (VRef p.1) p.2)
                        /\ (height p.2 <= height t)%nat) chain
    /\ StronglySorted (fun p q => (height q.2 < height p.2)%nat) chain.
Proof.
  induction 1 as [| | | | l es ps ts Hl Hh HF | l ps ts Hl Hh Hnd HF]
    using rden_ind'; try (exists []; repeat split; constructor).
  - assert (Hself : rden h A (VRef l) (JArr ts)).
    { econstructor; [done | done |]. eapply Forall2_impl; [done |].
      intros ? ? (v & -> & ? & _). eauto. }
    destruct (max_height_witness id ts) as [H0 | (t0 & Hin & Hh0)].
    + exists [(l, JArr ts)]. cbn [length height]. unfold id in H0. rewrite H0.
      split; [done |]. split.
      * constructor; [| constructor]. split; [eauto |]. simpl. lia.
      * constructor; constructor.
    + apply list_elem_of_lookup in Hin as [i Hi].
      destruct (Forall2_lookup_r _ _ _ _ _ HF Hi)
        as (e & _ & v & -> & _ & chain & Hlen & Hall & Hsort).
      exists ((l, JArr ts) :: chain). simpl. unfold id in Hh0.
      rewrite <- Hh0. split; [by rewrite Hlen |]. split.
      * constructor; [split; [eauto | cbn [snd height]; rewrite <- Hh0; lia] |].
        eapply Forall_impl; [done |]. intros p [? ?]. split; [done | lia].
      * constructor; [done |].
        eapply Forall_impl; [exact Hall |]. intros p [_ ?]. simpl. lia.
  - assert (Hself : rden h A (VRef l) (JObj ts)).
    { econstructor; [done | done | done |]. eapply Forall2_impl; [done |].
      intros ? ? (? & ? & _). eauto. }
    destruct (max_height_witness snd ts) as [H0 | (t0 & Hin & Hh0)].
    + exists [(l, JObj ts)]. cbn [length height]. rewrite H0.
      split; [done |]. split.
      * constructor; [| constructor]. split; [eauto |]. simpl. lia.
      * constructor; constructor.
    + apply list_elem_of_lookup in Hin as [i Hi].
      destruct (Forall2_lookup_r _ _ _ _ _ HF Hi)
        as (e & _ & _ & _ & chain & Hlen & Hall & Hsort).
      exists ((l, JObj ts) :: chain). simpl.
      rewrite <- Hh0. split; [by rewrite Hlen |]. split.
      * constructor; [split; [eauto | cbn [snd height]; rewrite <- Hh0; lia] |].
        eapply Forall_impl; [done |]. intros p [? ?]. split; [done | lia].
      * constructor; [done |].
        eapply Forall_impl; [exact Hall |]. intros p [_ ?]. simpl. lia.
Qed.

Lemma rden_height h A v t : rden h A v t -> (height t <= length h)%nat.
Proof.
  intros (chain & <- & Hall & Hsort)%rden_chain.
  assert (Hall' : Forall (fun p => exists A', rden h A' (VRef p.1) p.2) chain).
  { eapply Forall_impl; [exact Hall |]. by intros p [? _]. }
  clear Hall.
  transitivity (length (seq 0 (length h))); [| by rewrite length_seq].
  rewrite <- (length_fmap fst chain).
  apply NoDup_incl_length.
  - apply NoDup_ListNoDup.
    induction Hsort as [| p chain Hs IH Hlt]; [constructor |].
    apply Forall_cons in Hall' as [[A1 Hr1] Hall'].
    rewrite fmap_cons. apply NoDup_cons. split; [| by apply IH].
    intros ([l' t'] & Heq & Hin)%list_elem_of_fmap. simpl in Heq.
    rewrite Forall_forall in Hlt, Hall'.
    specialize (Hlt _ Hin). destruct (Hall' _ Hin) as [A2 Hr2].
    simpl in *. rewrite Heq in Hr1.
    rewrite (rden_functional _ _ _ _ Hr1 _ _ Hr2) in Hlt. lia.
  - intros l Hin. apply in_seq. split; [lia |]. simpl.
    apply list_elem_of_In, list_elem_of_fmap in Hin as ([l' t'] & -> & Hin).
    rewrite Forall_forall in Hall'. destruct (Hall' _ Hin) as [A' Hr].
    by eapply rden_lookup.
Qed.

Theorem to_json_reads h v t : reads h v t -> to_json h v = Ok (Some t).
Proof.
  intros [A Hr]. unfold to_json. eapply stringify_rden; [done | |].
  - apply rden_height in Hr. lia.
  - intros l A' t' Hin. by apply elem_of_nil in Hin.
Qed.

(** ** Merging two documents *)

(** [mergeConfigs] on an owned target and a separate source: it returns
    the target, which afterwards denotes [merge_doc], and leaves the
    source as it was. *)
Lemma mergeConfigs_separate h t s T S0 W1 A1 W2 A2 n :
  den h A1 W1 t T -> den h A2 W2 s S0 ->
  W1 ## A1 -> W1 ∪ A1 ## W2 ∪ A2 -> bounded h (W1 ∪ A1 ∪ (W2 ∪ A2)) ->
  exists h3,
    mergeConfigs (height S0 + 2 + n) h t [s] = Ok (t, h3)
    /\ reads h3 t (merge_doc T S0) /\ reads h3 s S0.
Proof.
  intros Hd1 Hd2 HWA Hsep Hb.
  assert (Hr2 := den_rden _ _ _ _ _ Hd2).
  destruct (mergeConfigs_refines S0 (height S0 + 2 + n))
    with (h := h) (c := t) (x := s) (tc := T)
         (W := W1) (A := A1) (R := A2 ∪ W2)
    as (h3 & Hm & Hd3 & Hfr); [lia | done | done | done | | |].
  - clear -Hsep. set_solver.
  - intros x Hx. apply Hb. clear -Hx. set_solver.
  - exists h3. split; [done |]. split.
    + eexists. by eapply den_rden.
    + exists (A2 ∪ W2). eapply rden_frame'; [done | done | |].
      * clear -Hsep. set_solver.
      * intros x Hx. apply Hb. clear -Hx. set_solver.
Qed.

(** Two documents built one after the other are separate trees. *)
Lemma build_two (T1 T2 : json) (h : heap) :
  let '(v1, h1) := build T1 h in
  let '(v2, h2) := build T2 h1 in
  exists W1 A1 W2 A2,
    den h2 A1 W1 v1 (norm T1) /\ den h2 A2 W2 v2 (norm T2)
    /\ W1 ## A1 /\ W2 ## A2 /\ W1 ∪ A1 ## W2 ∪ A2
    /\ bounded h2 (W1 ∪ A1 ∪ (W2 ∪ A2)).
Proof.
  destruct (build_ok T1 h) as (ext1 & W1 & A1 & Hh1 & Hd1 & HWA1 & Hsub1).
  destruct (build T1 h) as [v1 h1]. simpl in Hh1, Hd1. subst h1.
  destruct (build_ok T2 (h ++ ext1)) as (ext2 & W2 & A2 & Hh2 & Hd2 & HWA2 & Hsub2).
  destruct (build T2 (h ++ ext1)) as [v2 h2]. simpl in Hh2, Hd2. subst h2.
  assert (H1 : forall x, x ∈ W1 ∪ A1 -> (x < length (h ++ ext1))%nat).
  { intros x Hx%Hsub1%elem_of_fresh. lia. }
  assert (H2 : forall x, x ∈ W2 ∪ A2 ->
                 (length (h ++ ext1) <= x < length ((h ++ ext1) ++ ext2))%nat).
  { intros x Hx%Hsub2%elem_of_fresh. lia. }
  exists W1, A1, W2, A2. split; [| split; [done |]; repeat split; try done].
  - apply den_extend; [done |]. intros x Hx. by apply H1.
  - intros x Hx1%H1 Hx2%H2. lia.
  - intros x [Hx%H1 | Hx%H2]%elem_of_union; rewrite ?length_app in *; lia.
Qed.

(** ** Facts about [merge_doc] *)

Lemma assoc_set_elem {A} (ps : list (string * A)) k v q :
  q ∈ assoc_set k v ps -> q = (k, v) \/ q ∈ ps.
Proof.
  induction ps as [| [k' v'] ps IH]; simpl.
  - intros ->%list_elem_of_singleton. by left.
  - destruct (String.eqb_spec k k') as [-> | Hne].
    + intros [-> | Hin]%elem_of_cons; [by left | right; by constructor].
    + intros [-> | Hin]%elem_of_cons; [right; constructor |].
      destruct (IH Hin) as [-> | ?]; [by left | right; by constructor].
Qed.

Lemma dedup_elem {A} (kvs : list (string * A)) q : q ∈ dedup kvs -> q ∈ kvs.
Proof.
  unfold dedup.
  assert (Hgen : forall acc,
            q ∈ fold_left (fun acc kv => assoc_set kv.1 kv.2 acc) kvs acc ->
            q ∈ acc \/ q ∈ kvs).
  { induction kvs as [| [k v] kvs IH]; intros acc; simpl; [by left |].
    intros [Hin | Hin]%IH; [| right; by constructor].
    apply assoc_set_elem in Hin as [-> | Hin]; [right; constructor | by left]. }
  intros [Hin | Hin]%Hgen; [by apply elem_of_nil in Hin | done].
Qed.

Lemma merge_props_self qs :
  NoDup qs.*1 -> Forall (fun q => merge_doc q.2 q.2 = q.2) qs ->
  merge_props qs qs = qs.
Proof.
  intros Hnd%NoDup_assoc_get Hall. unfold merge_props.
  assert (Hgen : forall sfx,
            Forall (fun q => assoc_get q.1 qs = Some q.2
                             /\ merge_doc q.2 q.2 = q.2) sfx ->
            fold_left (fun pc p => merge_key pc p.1 p.2) sfx qs = qs).
  { induction 1 as [| [k sv] sfx [Hg Hm] _ IH]; [done |].
    simpl in *. replace (merge_key qs k sv) with qs; [done |].
    destruct (is_mapping sv) eqn:Hmap.
    - rewrite (merge_key_mapping _ _ _ Hmap), Hg.
      destruct sv; try done. simpl jtruthy. cbv iota.
      by rewrite Hm, assoc_set_same.
    - by rewrite (merge_key_leaf _ _ _ Hmap), assoc_set_same. }
  apply Hgen. rewrite Forall_forall in *. intros q Hq. split; eauto.
Qed.

(** Deep merge of a document into itself changes nothing. *)
Lemma merge_doc_norm_self X : merge_doc (norm X) (norm X) = norm X.
Proof.
  induction X as [| | | | es _ | ps IH] using json_rect'; try done.
  cbn [norm]. rewrite merge_doc_obj. f_equal.
  apply merge_props_self; [apply dedup_NoDup |].
  apply Forall_forall. intros q Hq%dedup_elem.
  apply list_elem_of_fmap in Hq as (p & -> & Hp).
  rewrite Forall_forall in IH. by apply IH.
Qed.






(** * The claims about deep merge *)






Lemma dedup_distinct_aux {A} (kvs acc : list (string * A)) :
  NoDup (acc.*1 ++ kvs.*1) ->
  fold_left (fun acc kv => assoc_set kv.1 kv.2 acc) kvs acc = acc ++ kvs.
Proof.
  revert acc. induction kvs as [| [k v] kvs IH]; intros acc Hnd; simpl.
  - by rewrite app_nil_r.
  - rewrite fmap_cons in Hnd. simpl in Hnd.
    assert (Hk : assoc_get k acc = None).
    { apply assoc_get_None. apply NoDup_app in Hnd as (_ & Hdisj & _).
      intros Hin. apply (Hdisj _ Hin). by constructor. }
    rewrite (assoc_set_new _ _ _ Hk), IH; [by rewrite <- app_assoc |].
    by rewrite fmap_app, <- app_assoc.
Qed.

Lemma dedup_distinct {A} (kvs : list (string * A)) :
  NoDup kvs.*1 -> dedup kvs = kvs.
Proof. intros Hnd. unfold dedup. by rewrite dedup_distinct_aux. Qed.

(** A document with no repeated key is its own normal form. *)
Lemma norm_distinct t : distinct t -> norm t = t.
Proof.
  induction t as [| b | n | s | es IH | ps IH] using json_rect';
    intros Hd; try done; inversion Hd as [| | | | ? Hes | ? Hnd Hps]; subst; simpl.
  - f_equal. induction es as [| e es IHes]; [done |].
    apply Forall_cons in IH as [He IH]. apply Forall_cons in Hes as [Hde Hes].
    simpl. rewrite He by done. f_equal. apply IHes; [done | | done].
    by constructor.
  - f_equal.
    assert (Hmap : map (fun p : string * json => (p.1, norm p.2)) ps = ps).
    { clear Hnd Hd. induction ps as [| [k v] ps IHps]; [done |].
      apply Forall_cons in IH as [Hp IH]. apply Forall_cons in Hps as [Hdp Hps].
      simpl in *. rewrite Hp by done. f_equal. by apply IHps. }
    rewrite Hmap. by apply dedup_distinct.
Qed.

(** C8: for every JSON document [X], whatever the heap, merging [X] into
    a deep copy of [X] succeeds, returns the copy, and the copy still
    reads as the document [X] denotes -- as does [X] itself; that document
    is [X] when no mapping of [X] repeats a key. *)
Theorem C8_merge_idempotent (X : json) (h : heap) (n : nat) :
  let '(x, h1) := build X h in
  let '(copy, h2) := build X h1 in
  exists h3,
    mergeConfigs (height (norm X) + 2 + n) h2 copy [x] = Ok (copy, h3)
    /\ to_json h3 copy = Ok (Some (norm X))
    /\ to_json h3 x = Ok (Some (norm X))
    /\ (distinct X -> norm X = X).
Proof.
  pose proof (build_two X X h) as Hb.
  destruct (build X h) as [x h1]. destruct (build X h1) as [copy h2].
  destruct Hb as (W1 & A1 & W2 & A2 & Hd1 & Hd2 & HWA1 & HWA2 & Hsep & Hb).
  destruct (mergeConfigs_separate h2 copy x (norm X) (norm X) W2 A2 W1 A1 n)
    as (h3 & Hm & Hrc & Hrx); try done.
  - clear -Hb. intros l Hl. apply Hb. set_solver.
  - rewrite merge_doc_norm_self in Hrc.
    exists h3. split; [done |].
    split; [by apply to_json_reads |]. split; [by apply to_json_reads |].
    apply norm_distinct.
Qed.

Lemma C8_merge_idempotent_witness :
  distinct nested_doc
  /\ exists h3,
       mergeConfigs (height (norm nested_doc) + 2 + 0)
         (build nested_doc (build nested_doc []).2).2
         (build nested_doc (build nested_doc []).2).1
         [(build nested_doc []).1]
       = Ok ((build nested_doc (build nested_doc []).2).1, h3)
       /\ to_json h3 (build nested_doc (build nested_doc []).2).1
          = Ok (Some nested_doc).
Proof.
  assert (Hd : distinct nested_doc).
  { apply distinct_obj; [apply NoDup_singleton | apply Forall_singleton].
    apply distinct_obj; [apply NoDup_singleton | apply Forall_singleton].
    constructor. }
  split; [exact Hd |].
  destruct (C8_merge_idempotent nested_doc [] 0) as (h3 & Hm & Hc & _ & Hn).
  exists h3. split; [exact Hm |]. rewrite <- (Hn Hd) at 2. exact Hc.
Defined.

(** * The claims about paths *)

Lemma rmatch_class_plus f bol s :
  rmatch (RRep 1 (RClass f)) bol s (fun _ _ => true)
  = match s with [] => false | c :: _ => f c end.
Proof.
  destruct s as [| c s]; [done |].
  cbn. rewrite Nat.leb_refl, andb_true_r. done.
Qed.

Lemma search_class_plus f bol s :
  search (RRep 1 (RClass f)) bol s = existsb f s.
Proof.
  revert bol. induction s as [| c s IH]; intros bol.
  - done.
  - cbn [search existsb]. rewrite rmatch_class_plus, IH. done.
Qed.

(** The first test of [validatePath] accepts a path as soon as one of its
    characters is in the class. *)
Lemma re_chars_test path :
  regex_test re_chars path = existsb path_char (list_ascii_of_string path).
Proof. apply search_class_plus. Qed.

Lemma validatePath_char_error path :
  validatePath path = Throw InvalidPathCharacter
  <-> path <> "" /\ forallb (fun c => negb (path_char c))
                      (list_ascii_of_string path) = true.
Proof.
  unfold validatePath. destruct (String.eqb_spec path "") as [-> | Hne].
  - split; [done | by intros [? _]].
  - rewrite re_chars_test.
    assert (Hex : negb (existsb path_char (list_ascii_of_string path))
                  = forallb (fun c => negb (path_char c))
                      (list_ascii_of_string path)).
    { induction (list_ascii_of_string path) as [| c s IH]; [done |].
      simpl. rewrite negb_orb. by rewrite IH. }
    rewrite Hex.
    destruct (forallb _ _).
    + split; [done | done].
    + split; [| by intros [_ ?]].
      by repeat match goal with |- context [if ?b then _ else _] => destruct b end.
Qed.

(** C2, at the failing input: the path ["A B"] passes validation.  The
    test [/[a-z0-9_\-.]+/gi] is not anchored, so one valid character is
    enough; the error is raised only when no character of the path is in
    the class. *)
Theorem C2_space_in_path_is_accepted :
  validatePath "A B" = Ok tt
  /\ regex_test re_chars "A B" = true
  /\ path_char " " = false.
Proof. repeat split; reflexivity. Qed.

(** * The claims about the section store *)

(** C1: over a file, of any name, holding [{"DB": {"host": stored}}],
    registering the section ["DB"] with defaults [{host: dflt, port: p}]
    returns [{host: stored, port: p}]: the stored host is kept, the missing
    port is filled in; the returned object is the caller's defaults object,
    the Document holds it at ["DB"], the DefaultsTree holds the defaults as
    they were given, and the file is rewritten with the Document. *)
Theorem C1_stored_override_kept_default_filled
    (name stored dflt : string) (p : Z) (others : list (string * file)) :
  exists r,
    register_section
      ((name, JsonText (JObj [("DB", JObj [("host", JStr stored)])]))
       :: others)
      name "DB" (JObj [("host", JStr dflt); ("port", JNum p)])
    = Ok (r, r,
          Some (JObj [("host", JStr stored); ("port", JNum p)]),
          Some (JObj [("host", JStr stored); ("port", JNum p)]),
          Some (JObj [("DB", JObj [("host", JStr stored); ("port", JNum p)])]),
          Some (JObj [("DB", JObj [("host", JStr dflt); ("port", JNum p)])]),
          Some (JsonText
                  (JObj [("DB", JObj [("host", JStr stored);
                                      ("port", JNum p)])]))).
Proof.
  eexists. unfold register_section, constructor.
  cbn [new_object alloc objects disk assoc_get]. rewrite String.eqb_refl.
  vm_compute.
  repeat (match goal with
          | |- context [?f name name] =>
              change (f name name) with (String.eqb name name)
          end; rewrite String.eqb_refl; vm_compute).
  reflexivity.
Qed.

(** With [config] left [undefined], every access below the root fails. *)
Lemma fold_left_Throw {A B} (f : outcome A -> B -> outcome A) e (l : list B) :
  (forall b, f (Throw e) b = Throw e) -> fold_left f l (Throw e) = Throw e.
Proof. intros Hf. induction l as [| b l IH]; [done |]. simpl. by rewrite Hf. Qed.

Lemma split_cons path : exists p ps, split path = p :: ps.
Proof.
  induction path as [| c path (p & ps & IH)]; [by eexists _, _ |].
  simpl. destruct (is_dot c); [by eexists _, _ |]. rewrite IH. by eexists _, _.
Qed.

Lemma getOrCreateConfigPath_undefined cm path h :
  config cm = VUndef -> path <> "" -> validatePath path = Ok tt ->
  getOrCreateConfigPath cm path h = Throw TypeError.
Proof.
  intros Hc Hne Hv. unfold getOrCreateConfigPath.
  destruct (String.eqb_spec path ""); [done |]. rewrite Hv, Hc. ostep.
  destruct (split_cons path) as (p & ps & ->). simpl.
  by apply fold_left_Throw.
Qed.

(** C3, at the failing input: over an unparsable file the constructor
    returns and records the error, but it leaves [config] undefined, not
    [{}].  Registering a section, creating a path or validating then
    raises a [TypeError], where a store over no file -- an empty Document
    -- answers. *)
Theorem C3_unparsable_file_leaves_no_document :
  (exists cm,
     on_store [("config.json", BadText)]
       (section_of "DB" (JObj [("host", JStr "localhost")]))
     = Ok (cm, Throw TypeError)
     /\ configFileLoadingError cm = Some SyntaxError
     /\ config cm = VUndef)
  /\ (exists cm,
        on_store [("config.json", BadText)]
          (fun cm w => getOrCreateConfigPath cm "X.Y" (objects w))
        = Ok (cm, Throw TypeError))
  /\ (exists cm,
        on_store [("config.json", BadText)]
          (fun cm w => validateConfig 16 cm false w)
        = Ok (cm, Throw TypeError))
  /\ (exists cm,
        on_store []
          (section_of "DB" (JObj [("host", JStr "localhost")]))
        = Ok (cm, Ok (Some (JObj [("host", JStr "localhost")])))).
Proof. repeat split; eexists; vm_compute; repeat split; reflexivity. Qed.

(** C4, at the failing input: registering [{a: 1}] at the empty path puts
    [a] at the root of the Document but files the defaults under the key
    [""] of the DefaultsTree ([''.split('.')] is [['']]), so validation
    reports [a] as unused.  At the path ["S"] both trees get [{S: {a: 1}}]
    and nothing is unused. *)
Theorem C4_root_defaults_filed_under_empty_key :
  (exists cm,
     on_store [] (section_then_validate "" (JObj [("a", JNum 1)]))
     = Ok (cm, Ok (Some (JObj [("a", JNum 1)]),
                   Some (JObj [("", JObj [("a", JNum 1)])]),
                   ["a"])))
  /\ (exists cm,
        on_store [] (section_then_validate "S" (JObj [("a", JNum 1)]))
        = Ok (cm, Ok (Some (JObj [("S", JObj [("a", JNum 1)])]),
                      Some (JObj [("S", JObj [("a", JNum 1)])]),
                      []))).
Proof. split; eexists; vm_compute; reflexivity. Qed.

(** C5, at the failing inputs: [typeof null] and [typeof []] are
    ['object'], so a [null] or an array on the path is not replaced.  Over
    [{"X": null}], [getOrCreate("X")] returns [null] and [getOrCreate("X.Y")]
    raises a [TypeError]; over [{"X": [1]}], [getOrCreate("X")] returns the
    array.  A scalar is replaced, and on the empty document
    [getOrCreate("X.Y")] makes [{X: {Y: {}}}] and returns the inner
    mapping. *)
Theorem C5_null_and_array_are_not_replaced :
  (exists cm,
     on_store [("config.json", JsonText (JObj [("X", JNull)]))]
       (get_or_create "X")
     = Ok (cm, Ok (VNull, Some JNull, Some (JObj [("X", JNull)]))))
  /\ (exists cm,
        on_store [("config.json", JsonText (JObj [("X", JNull)]))]
          (get_or_create "X.Y")
        = Ok (cm, Throw TypeError))
  /\ (exists cm r,
        on_store [("config.json", JsonText (JObj [("X", JArr [JNum 1])]))]
          (get_or_create "X")
        = Ok (cm, Ok (r, Some (JArr [JNum 1]),
                      Some (JObj [("X", JArr [JNum 1])]))))
  /\ (exists cm r,
        on_store [("config.json", JsonText (JObj [("X", JNum 1)]))]
          (get_or_create "X")
        = Ok (cm, Ok (r, Some (JObj []), Some (JObj [("X", JObj [])]))))
  /\ (exists cm r,
        on_store [] (get_or_create "X.Y")
        = Ok (cm, Ok (r, Some (JObj []),
                      Some (JObj [("X", JObj [("Y", JObj [])])])))).
Proof. repeat split; repeat eexists; vm_compute; reflexivity. Qed.

(** ** Folds that thread an outcome *)

Lemma fold_left_Ok_acc {A B} (f : outcome A -> B -> outcome A) :
  (forall acc b r, f acc b = Ok r -> exists a, acc = Ok a) ->
  forall l acc r, fold_left f l acc = Ok r -> exists a, acc = Ok a.
Proof.
  intros Hf. induction l as [| b l IH]; intros acc r; simpl; [eauto |].
  intros (a & Ha)%IH. eauto.
Qed.

Lemma fold_left_Ok_rel {A B} (f : outcome A -> B -> outcome A)
    (P : A -> A -> Prop) :
  (forall acc b r, f acc b = Ok r -> exists a, acc = Ok a) ->
  (forall a, P a a) -> (forall a b c, P a b -> P b c -> P a c) ->
  (forall a b r, f (Ok a) b = Ok r -> P a r) ->
  forall l a r, fold_left f l (Ok a) = Ok r -> P a r.
Proof.
  intros Hf Hrefl Htrans Hstep. induction l as [| b l IH]; intros a r; simpl.
  - by intros [= ->].
  - intros Hfold.
    destruct (fold_left_Ok_acc f Hf _ _ _ Hfold) as [a' Ha'].
    rewrite Ha' in Hfold. eauto.
Qed.

Lemma bind_Ok_inv {A B} (m : outcome A) (f : A -> outcome B) r :
  m ≫= f = Ok r -> exists a, m = Ok a /\ f a = Ok r.
Proof. destruct m; try done. eauto. Qed.

Ltac ostep_in H := cbn [mbind outcome_bind default from_option id] in H.

Tactic Notation "oinv" hyp(H) "as" simple_intropattern(a) ident(Ha) :=
  apply bind_Ok_inv in H as (a & Ha & H).

Ltac obind_inv H :=
  let a := fresh "a" in
  let Ha := fresh "Ha" in
  apply bind_Ok_inv in H as (a & Ha & H).

(** ** The heap only grows *)

Lemma set_length h v k x h' : set h v k x = Ok h' -> length h' = length h.
Proof.
  destruct v; try done. simpl. intros H. obind_inv H. injection H as <-.
  apply length_insert.
Qed.

Lemma descend_acc acc p r : descend acc p = Ok r -> exists a, acc = Ok a.
Proof. destruct acc; try done. eauto. Qed.

Lemma descend_length root h p root' h' :
  descend (Ok (root, h)) p = Ok (root', h') -> (length h <= length h')%nat.
Proof.
  unfold descend. ostep. intros H. obind_inv H. obind_inv H. obind_inv H.
  injection H as <- <-.
  destruct (bool_decide _); [| by injection Ha0 as <-].
  unfold new_object, alloc in Ha0. apply set_length in Ha0.
  rewrite Ha0, length_app. lia.
Qed.

Lemma getOrCreateConfigPath_length cm path h r h' :
  getOrCreateConfigPath cm path h = Ok (r, h') -> (length h <= length h')%nat.
Proof.
  unfold getOrCreateConfigPath. destruct (String.eqb path "").
  - by intros [= _ <-].
  - intros H. obind_inv H.
    apply (fold_left_Ok_rel descend
             (fun a b => length a.2 <= length b.2)%nat) in H;
      [done | apply descend_acc | done | intros; lia |].
    intros [??] ? [??]. apply descend_length.
Qed.

Lemma merge_step_acc rec t s acc k r :
  merge_step rec t s acc k = Ok r -> exists a, acc = Ok a.
Proof. destruct acc; try done. eauto. Qed.

Lemma mergeConfigs_length fuel :
  forall h t ss r h',
    mergeConfigs fuel h t ss = Ok (r, h') -> (length h <= length h')%nat.
Proof.
  induction fuel as [| fuel IH]; intros h t ss r h'; [done |].
  cbn [mergeConfigs]. destruct ss as [| s ss]; [by intros [= _ <-] |].
  intros H. obind_inv H. apply IH in H.
  enough (length h <= length a)%nat by lia. clear H.
  destruct (isObject h t && isObject h s); [| by injection Ha as <-].
  obind_inv Ha.
  apply (fold_left_Ok_rel (merge_step (mergeConfigs fuel) t s)
           (fun a b => length a <= length b)%nat) in Ha;
    [done | apply merge_step_acc | done | intros; lia |].
  clear -IH. intros h0 k h1. unfold merge_step. ostep. intros H.
  obind_inv H. destruct (isObject h0 a).
  - obind_inv H. obind_inv H. obind_inv H. obind_inv H. obind_inv H.
    destruct a4 as [? h2]. injection H as <-. apply IH in Ha4.
    enough (length h0 <= length a1)%nat by lia.
    destruct (truthy a0); [by injection Ha1 as <- |].
    unfold new_object, alloc in Ha1. apply set_length in Ha1.
    rewrite Ha1, length_app. lia.
  - apply set_length in H. lia.
Qed.

Lemma mergeConfigs_target fuel :
  forall h t ss r h', mergeConfigs fuel h t ss = Ok (r, h') -> r = t.
Proof.
  induction fuel as [| fuel IH]; intros h t ss r h'; [done |].
  cbn [mergeConfigs]. destruct ss as [| s ss]; [by intros [= <- _] |].
  intros H. obind_inv H. by apply IH in H.
Qed.

Lemma wrap_length ps :
  forall v h,
    (length h
     <= length (fold_left (fun acc p => new_singleton acc.2 p acc.1) ps (v, h)).2)%nat.
Proof.
  induction ps as [| p ps IH]; intros v h; simpl; [done |].
  etransitivity; [| apply IH]. rewrite length_app. lia.
Qed.

Lemma addDefaultConfig_length fuel cm path d h h' :
  addDefaultConfig fuel cm path d h = Ok h' -> (length h <= length h')%nat.
Proof.
  unfold addDefaultConfig. intros H. obind_inv H.
  pose proof (wrap_length (rev (split path)) d h) as Hw.
  destruct (fold_left _ _ _) as [root h1]. simpl in Hw.
  obind_inv H. destruct a0 as [? h2]. injection H as <-.
  apply mergeConfigs_length in Ha0. lia.
Qed.

(** ** Reading back what was written *)

Lemma get_set_prop o k v o' : set_prop o k v = Ok o' -> get_prop o' k = v.
Proof.
  destruct o as [ps | es ps]; simpl.
  - intros [= <-]. simpl. by rewrite assoc_get_set_eq.
  - destruct (parse_index k) as [i |] eqn:Hi.
    + destruct (decide (i < length es)%nat) as [Hlt | Hge]; intros [= <-];
        simpl; rewrite Hi.
      * by rewrite list_lookup_insert_eq.
      * rewrite lookup_app_r by lia.
        rewrite lookup_app_r by (rewrite length_replicate; lia).
        rewrite length_replicate.
        by replace (i - length es - (i - length es))%nat with 0%nat by lia.
    + destruct (String.eqb k length_key) eqn:Hk; [done |].
      intros [= <-]. simpl. rewrite Hi, Hk. by rewrite assoc_get_set_eq.
Qed.

Lemma get_set_same h c k v h' :
  set h (VRef c) k v = Ok h' -> (c < length h)%nat ->
  get h' (VRef c) k = Ok v.
Proof.
  simpl. intros H Hc. obind_inv H. injection H as <-.
  unfold heap_get at 1, heap_set. rewrite list_lookup_insert_eq by done.
  simpl. f_equal. by eapply get_set_prop.
Qed.

Lemma set_other h c k v h' l :
  set h (VRef c) k v = Ok h' -> l <> c -> h' !! l = h !! l.
Proof.
  simpl. intros H Hl. obind_inv H. injection H as <-.
  unfold heap_set. by rewrite list_lookup_insert_ne.
Qed.

Lemma wrap_cons p ps v h :
  wrap (p :: ps) v h = wrap ps (VRef (length h)) (h ++ [Obj [(p, v)]]).
Proof. done. Qed.

Lemma wrap_extends ps : forall v h, exists ext, (wrap ps v h).2 = h ++ ext.
Proof.
  induction ps as [| p ps IH]; intros v h.
  - exists []. by rewrite app_nil_r.
  - rewrite wrap_cons. destruct (IH (VRef (length h)) (h ++ [Obj [(p, v)]]))
      as [ext ->]. rewrite <- app_assoc. eauto.
Qed.

Lemma wrap_typeof ps v h : typeof v = TObject -> typeof (wrap ps v h).1 = TObject.
Proof.
  revert v h. induction ps as [| p ps IH]; intros v h Hv; [done |].
  rewrite wrap_cons. by apply IH.
Qed.

Lemma nest_fold cm p1 ps :
  forall off v h,
    let n := (off + length ps + 1)%nat in
    fold_left (nest cm n) (imap (fun i p => ((off + i)%nat, p)) (ps ++ [p1]))
      (Ok (v, h))
    = (h'' ← set (wrap ps v h).2 (config cm) p1 (wrap ps v h).1;
       Ok ((wrap ps v h).1, h'')).
Proof.
  induction ps as [| p ps IH]; intros off v h n.
  - simpl. unfold nest. ostep. simpl fst. simpl snd.
    rewrite bool_decide_eq_false_2; [done |]. subst n. simpl. lia.
  - cbn [app imap fold_left]. unfold nest at 2. ostep. simpl fst. simpl snd.
    rewrite bool_decide_eq_true_2 by (subst n; simpl; lia).
    rewrite wrap_cons. unfold new_singleton, alloc.
    rewrite (imap_ext _ (fun i p => ((Datatypes.S off + i)%nat, p)))
      by (intros; simpl; f_equal; lia).
    replace n with (Datatypes.S off + length ps + 1)%nat by (subst n; simpl; lia).
    apply IH.
Qed.

(** Descending a chain that is in place reads it and changes nothing. *)
Lemma descend_chain ps :
  forall v h h'',
    typeof v = TObject ->
    (forall l, (length h <= l < length (wrap ps v h).2)%nat ->
               h'' !! l = (wrap ps v h).2 !! l) ->
    fold_left descend (rev ps) (Ok ((wrap ps v h).1, h'')) = Ok (v, h'').
Proof.
  induction ps as [| p ps IH]; intros v h h'' Hv Hagree; [done |].
  rewrite wrap_cons in *. simpl rev. rewrite fold_left_app.
  destruct (wrap_extends ps (VRef (length h)) (h ++ [Obj [(p, v)]])) as [ext Hext].
  rewrite IH; [| done |].
  2:{ intros l Hl. apply Hagree. rewrite length_app in Hl. lia. }
  cbn [fold_left]. unfold descend. ostep.
  assert (Hl : h'' !! length h = Some (Obj [(p, v)])).
  { rewrite Hagree, Hext.
    - rewrite <- app_assoc, lookup_app_r by lia.
      by replace (length h - length h)%nat with 0%nat by lia.
    - rewrite Hext, !length_app. simpl. lia. }
  rewrite (get_obj _ _ _ _ Hl). simpl assoc_get. rewrite String.eqb_refl.
  ostep. rewrite bool_decide_eq_false_2 by (intros Hne; by apply Hne).
  ostep. rewrite (get_obj _ _ _ _ Hl). simpl assoc_get.
  by rewrite String.eqb_refl.
Qed.

Lemma get_path_chain ps :
  forall v h h'',
    (forall l, (length h <= l < length (wrap ps v h).2)%nat ->
               h'' !! l = (wrap ps v h).2 !! l) ->
    get_path h'' (wrap ps v h).1 (rev ps) = Ok v.
Proof.
  unfold get_path.
  induction ps as [| p ps IH]; intros v h h'' Hagree; [done |].
  rewrite wrap_cons in *. simpl rev. rewrite fold_left_app.
  destruct (wrap_extends ps (VRef (length h)) (h ++ [Obj [(p, v)]])) as [ext Hext].
  rewrite IH.
  2:{ intros l Hl. apply Hagree. rewrite length_app in Hl. lia. }
  cbn [fold_left]. ostep.
  assert (Hl : h'' !! length h = Some (Obj [(p, v)])).
  { rewrite Hagree, Hext.
    - rewrite <- app_assoc, lookup_app_r by lia.
      by replace (length h - length h)%nat with 0%nat by lia.
    - rewrite Hext, !length_app. simpl. lia. }
  rewrite (get_obj _ _ _ _ Hl). simpl assoc_get. by rewrite String.eqb_refl.
Qed.

(** After [updateConfigPath] has put the chain in place, the path leads
    to the installed value. *)
Lemma installed_chain cm c p1 rest d h h6 :
  config cm = VRef c -> (c < length h)%nat ->
  set (wrap (rev rest) (VRef d) h).2 (VRef c) p1 (wrap (rev rest) (VRef d) h).1
    = Ok h6 ->
  fold_left descend (p1 :: rest) (Ok (VRef c, h6)) = Ok (VRef d, h6)
  /\ get_path h6 (VRef c) (p1 :: rest) = Ok (VRef d).
Proof.
  intros Hc Hlt Hset.
  destruct (wrap_extends (rev rest) (VRef d) h) as [ext Hext].
  assert (Hlt' : (c < length (wrap (rev rest) (VRef d) h).2)%nat).
  { rewrite Hext, length_app. lia. }
  pose proof (get_set_same _ _ _ _ _ Hset Hlt') as Hget.
  assert (Hagree : forall l,
            (length h <= l < length (wrap (rev rest) (VRef d) h).2)%nat ->
            h6 !! l = (wrap (rev rest) (VRef d) h).2 !! l).
  { intros l Hl. eapply set_other; [done | lia]. }
  split.
  - cbn [fold_left]. unfold descend at 2. ostep. rewrite Hget. ostep.
    rewrite bool_decide_eq_false_2.
    2:{ intros Hne. apply Hne. by apply wrap_typeof. }
    ostep. rewrite Hget. ostep.
    rewrite <- (rev_involutive rest) at 1. by apply descend_chain.
  - unfold get_path. cbn [fold_left]. ostep. rewrite Hget.
    rewrite <- (rev_involutive rest) at 1.
    by apply (get_path_chain (rev rest) (VRef d) h h6).
Qed.

Lemma getOrCreateConfigPath_ref cm path h r h' :
  path <> "" -> getOrCreateConfigPath cm path h = Ok (r, h') ->
  exists c, config cm = VRef c.
Proof.
  intros Hne. unfold getOrCreateConfigPath.
  destruct (String.eqb_spec path ""); [done |].
  intros H. obind_inv H. destruct (split_cons path) as (p & ps & Hs).
  rewrite Hs in H. cbn [fold_left] in H.
  apply (fold_left_Ok_acc descend descend_acc) in H as [[root1 h1] H].
  unfold descend in H. ostep_in H.
  destruct (config cm) as [| | b | z | s | c]; try done; [| by eexists].
  obind_inv H.
  destruct (bool_decide (typeof a0 ≠ TObject)) eqn:Hb; [done |].
  apply bool_decide_eq_false in Hb. exfalso. apply Hb.
  simpl in Ha0.
  destruct (parse_index p) as [i |]; [| destruct (String.eqb p length_key)];
    injection Ha0 as <-; [| done | done].
  by destruct (string_chars s !! i).
Qed.

(** Registering a section at a non-empty path with a defaults object [d],
    when the call returns without taking the fast path: the deep merge runs
    with [d] as its target and the stored value (or a new [{}]) as its
    source and returns [d]; [d] itself is what the Document then holds at
    the path and what the call returns. *)
Lemma configSection_installs
    fuel cm path (d : loc) w r w' :
  path <> "" ->
  (forall c, config cm = VRef c -> (c < length (objects w))%nat) ->
  configSection fuel cm path (VRef d) w = Ok (r, w') ->
  (forall root h1, getOrCreateConfigPath cm path (objects w) = Ok (root, h1) ->
                   root <> VRef d) ->
  r = VRef d
  /\ get_path (objects w') (config cm) (split path) = Ok (VRef d)
  /\ getOrCreateConfigPath cm path (objects w') = Ok (VRef d, objects w')
  /\ exists root h1 h2 src h3 h4,
       getOrCreateConfigPath cm path (objects w) = Ok (root, h1)
       /\ addDefaultConfig fuel cm path (VRef d) h1 = Ok h2
       /\ (src, h3) = (if truthy root then (root, h2) else new_object h2)
       /\ mergeConfigs fuel h3 (VRef d) [src] = Ok (VRef d, h4).
Proof.
  intros Hne Hvalid H Hfast. unfold configSection in H.
  oinv H as [root h1] Hroot.
  destruct (getOrCreateConfigPath_ref _ _ _ _ _ Hne Hroot) as [c Hc].
  specialize (Hvalid c Hc).
  unfold strict_eq in H. rewrite bool_decide_eq_false_2 in H by eauto.
  oinv H as h2 Hadd.
  destruct (if truthy root then (root, h2) else new_object h2)
    as [src h3] eqn:Hsrc.
  oinv H as [merged h4] Hmerge.
  pose proof (mergeConfigs_target _ _ _ _ _ _ Hmerge) as ->.
  assert (Hlen4 : (length (objects w) <= length h4)%nat).
  { apply getOrCreateConfigPath_length in Hroot.
    apply addDefaultConfig_length in Hadd.
    apply mergeConfigs_length in Hmerge.
    assert (length h2 <= length h3)%nat.
    { destruct (truthy root); injection Hsrc as <- <-; [done |].
      rewrite length_app. lia. }
    lia. }
  unfold updateConfigPath in H. cbn [objects disk] in H.
  oinv H as [x h5] Hgoc5.
  pose proof (getOrCreateConfigPath_length _ _ _ _ _ Hgoc5) as Hlen5.
  assert (Hval : validatePath path = Ok tt).
  { unfold getOrCreateConfigPath in Hroot.
    destruct (String.eqb_spec path ""); [done |].
    oinv Hroot as [] Hv. done. }
  destruct (String.eqb_spec path "") as [| _]; [done |]. cbn [negb] in H.
  destruct (split_cons path) as (p1 & rest & Hsplit).
  rewrite Hsplit in H. cbn [rev] in H.
  change (imap pair (rev rest ++ [p1]))
    with (imap (fun i p => ((0 + i)%nat, p)) (rev rest ++ [p1])) in H.
  replace (length (rev rest ++ [p1])) with (0 + length (rev rest) + 1)%nat in H
    by (rewrite length_app; simpl; lia).
  rewrite nest_fold, Hc in H.
  oinv H as h6' Hnest. oinv Hnest as [v6 h6] Hset.
  injection Hnest as <-. oinv Hset as h6' Hset'. injection Hset as <- <-.
  oinv H as w3 Hsave.
  assert (Hw3 : objects w3 = h6').
  { unfold saveConfig in Hsave. oinv Hsave as t Ht.
    destruct t; [| done]. by injection Hsave as <-. }
  destruct (installed_chain cm c p1 rest d h5 h6' Hc) as [Hdesc Hget];
    [lia | done |].
  assert (Hgoc : getOrCreateConfigPath cm path h6' = Ok (VRef d, h6')).
  { unfold getOrCreateConfigPath. destruct (String.eqb_spec path ""); [done |].
    rewrite Hval. ostep. by rewrite Hsplit, Hc. }
  rewrite Hw3, Hgoc in H. ostep_in H. injection H as <- <-.
  cbn [objects].
  split; [done |]. split; [by rewrite Hsplit, Hc |]. split; [done |].
  by exists root, h1, h2, src, h3, h4.
Qed.











(** *** An instance: the store of C1 *)

Example section_store_eq :
  ('(cm, w1) ← constructor 16 "config.json"
                 (World []
                    [("config.json",
                      JsonText (JObj [("DB", JObj [("host", JStr "stored")])]))]);
   let '(d, h2) :=
     build (JObj [("host", JStr "localhost"); ("port", JNum 5432)])
       (objects w1) in
   Ok (cm, d, World h2 (disk w1)))
  = Ok (section_cm, VRef 6, section_world).
Proof. by vm_compute. Qed.



(** * Validation *)

(** ** Deleting a property *)

Section AssocDel.
Context {A : Type}.
Implicit Types (ps : list (string * A)) (k : string).



End AssocDel.

Lemma parse_index_key k i : parse_index k = Some i -> k = index_key i.
Proof.
  unfold parse_index. destruct (NilEmpty.uint_of_string k); [| done].
  destruct (String.eqb_spec (index_key (Nat.of_uint u)) k); [| done].
  by intros [= <-].
Qed.




Lemma heap_get_alloc h o l :
  o = Obj [] -> heap_get (h ++ [o]) l = heap_get h l.
Proof.
  intros ->. unfold heap_get.
  destruct (decide (l < length h)%nat) as [Hlt | Hge].
  - by rewrite lookup_app_l.
  - rewrite (lookup_ge_None_2 h) by lia. simpl.
    destruct (decide (l = length h)) as [-> | Hne].
    + rewrite lookup_app_r by lia.
      by replace (length h - length h)%nat with 0%nat by lia.
    + rewrite lookup_ge_None_2; [done |]. rewrite length_app. simpl. lia.
Qed.

(** Reads depend on the heap through [heap_get] only. *)
Lemma get_heap_get h h' v k :
  (forall l, v = VRef l -> heap_get h' l = heap_get h l) ->
  get h' v k = get h v k.
Proof. destruct v; try done. simpl. intros H. by rewrite H. Qed.

Lemma keys_heap_get h h' v :
  (forall l, v = VRef l -> heap_get h' l = heap_get h l) ->
  keys h' v = keys h v.
Proof. destruct v; try done. simpl. intros H. by rewrite H. Qed.

(** ** A Document that is a tree *)





(** ** What one visit and one loop change *)





Lemma visit_acc rec clear first path conf old def acc k r :
  visit rec clear first path conf old def acc k = Ok r -> exists a, acc = Ok a.
Proof. destruct acc; try done. eauto. Qed.







(** ** The keys that the walk visits *)



Lemma get_leaf h v k v' :
  (forall l, v <> VRef l) -> get h v k = Ok v' -> forall l, v' <> VRef l.
Proof.
  intros Hv. destruct v as [| | b | n | s | lc]; simpl; try done;
    try (by intros [= <-]); [| by destruct (Hv lc)].
  destruct (parse_index k) as [i |];
    [| destruct (String.eqb k length_key)]; intros [= <-]; try done.
  by destruct (string_chars s !! i).
Qed.

Lemma owned_ref h W l : owned h W (VRef l) -> l ∈ W.
Proof. inversion 1 as [? ? Hl | ]; [by destruct (Hl l) | done]. Qed.

Lemma owned_get h W v k v' :
  owned h W v -> get h v k = Ok v' -> exists W', W' ⊆ W /\ owned h W' v'.
Proof.
  inversion 1 as [? ? Hleaf | ? l reg Hl Hnd Hsub Hdisj Hch]; subst.
  - intros Hg. exists W. split; [done |]. apply owned_leaf. by eapply get_leaf.
  - intros [= <-]. exists (reg k). split; [| done].
    specialize (Hsub k). clear -Hsub. set_solver.
Qed.


Lemma closed_get h R v k l :
  closed h R -> (forall l, v = VRef l -> l ∈ R) -> get h v k = Ok (VRef l) -> l ∈ R.
Proof.
  intros Hclo Hv Hg.
  assert ((exists lv, v = VRef lv) \/ forall lv, v <> VRef lv)
    as [[lv ->] | Hleaf] by (destruct v; eauto).
  - injection Hg as Hg. eapply Hclo; [| exact Hg]. by apply Hv.
  - by destruct (get_leaf _ _ _ _ Hleaf Hg l).
Qed.

Lemma reached_stable clear h h' R conf def ks cv dv :
  reached h conf def ks cv dv ->
  forall W,
    (clear = true ->
     owned h W conf /\ closed h R /\ forall l, def = VRef l -> l ∈ R) ->
    (forall l, (clear = true -> l ∈ W \/ l ∈ R) -> heap_get h' l = heap_get h l) ->
    reached h' conf def ks cv dv.
Proof.
  induction 1 as [conf def kl k cv dv Hkl Hk Hcv Hdv
                 | conf def kl k cv0 dv0 ks cv dv Hkl Hk Hcv Hdv Hc Hd Hr IH];
    intros W Hpre Hagree.
  all: assert (Hconf : forall l, conf = VRef l -> heap_get h' l = heap_get h l)
         by (intros l ->; apply Hagree; intros Hcl; left;
             by eapply owned_ref, Hpre).
  all: assert (Hdef : forall l, def = VRef l -> heap_get h' l = heap_get h l)
         by (intros l ->; apply Hagree; intros Hcl; right; by apply Hpre).
  - eapply reached_here; [by rewrite (keys_heap_get h h' conf Hconf) | done
      | by rewrite (get_heap_get h h' conf k Hconf)
      | by rewrite (get_heap_get h h' def k Hdef)].
  - destruct clear.
    + destruct (Hpre eq_refl) as (Hown & Hclo & HdR).
      destruct (owned_get _ _ _ _ _ Hown Hcv) as (W' & Hsub & Hown').
      eapply reached_below; [by rewrite (keys_heap_get h h' conf Hconf) | done
        | by rewrite (get_heap_get h h' conf k Hconf)
      | by rewrite (get_heap_get h h' def k Hdef)
        | done | done |].
      apply (IH W').
      * intros _. split; [done |]. split; [done |].
        intros l ->. by eapply closed_get.
      * intros l Hl. apply Hagree. intros _.
        destruct (Hl eq_refl) as [Hl' | Hl']; [left | by right].
        clear -Hl' Hsub. set_solver.
    + eapply reached_below; [by rewrite (keys_heap_get h h' conf Hconf) | done
        | by rewrite (get_heap_get h h' conf k Hconf)
      | by rewrite (get_heap_get h h' def k Hdef)
        | done | done |].
      apply (IH W); [done |]. intros l _. by apply Hagree.
Qed.






(** ** The walk records and prunes what it reaches *)


(** ** Enough fuel *)


















(** ** Validation returns *)









Lemma parse_index_index_key i : parse_index (index_key i) = Some i.
Proof.
  unfold parse_index, index_key.
  rewrite NilEmpty.usu, DecimalNat.Unsigned.of_to. by rewrite String.eqb_refl.
Qed.





(** A [null] that the Document and the DefaultsTree both hold at a key is
    of kind ['object'] on both sides: the walk goes below it and
    [Object.keys(null)] raises a [TypeError]. *)
Example validate_null_raises :
  exists cm,
    on_store [("config.json", JsonText (JObj [("S", JObj [("a", JNull)])]))]
      (section_then_validate "S" (JObj [("a", JNull)]))
    = Ok (cm, Throw TypeError).
Proof. eexists. vm_compute. reflexivity. Qed.

(** ** The claim about validation *)



(** *** An instance *)

Lemma get_prop_Obj_cases ps k :
  get_prop (Obj ps) k = VUndef \/ (k, get_prop (Obj ps) k) ∈ ps.
Proof.
  simpl. induction ps as [| [k' v] ps IH]; simpl; [by left |].
  destruct (String.eqb_spec k k') as [-> | Hne].
  - right. by constructor.
  - destruct IH as [IH | IH]; [by left | right; by constructor].
Qed.


Example pruned_store_eq : pruned_store = Ok (pruned_cm, pruned_world).
Proof. by vm_compute. Qed.







(** * Paths, character by character *)

Lemma search_boundary bol s :
  search re_boundary bol s = bol && starts_with_dot s || ends_with_dot s.
Proof.
  revert bol. induction s as [| c s IH]; intros bol.
  - cbn. by rewrite andb_false_r.
  - cbn [search]. rewrite IH. cbn [andb orb].
    unfold re_boundary. cbn [rmatch starts_with_dot].
    unfold ends_with_dot. destruct s as [| c' s]; cbn [last].
    + cbn. destruct bol, (is_dot c); done.
    + rewrite !andb_false_r, !orb_false_r.
      destruct bol, (is_dot c); cbn; done.
Qed.

Lemma rmatch_dots bol s :
  rmatch re_dots bol s (fun _ _ => true)
  = match s with
    | c :: c' :: _ => is_dot c && is_dot c'
    | _ => false
    end.
Proof.
  destruct s as [| c [| c' s]]; [done | |].
  - cbn. by rewrite andb_false_r.
  - cbn. rewrite !Nat.leb_refl. cbn. by rewrite !andb_true_r.
Qed.

Lemma search_dots bol s : search re_dots bol s = double_dot s.
Proof.
  revert bol. induction s as [| c s IH]; intros bol; [done |].
  cbn [search]. rewrite rmatch_dots, IH.
  destruct s as [| c' s]; [done |]. done.
Qed.

(** X1: what [validatePath] decides, read off the path itself.  The
    empty path is accepted; a path with no character of the class
    [[A-Za-z0-9_.-]] raises the character error; otherwise a dot in first
    or last place raises the boundary error; otherwise two dots in a row
    raise the segment error; every other path is accepted. *)
Theorem validatePath_verdict path :
  validatePath path
  = let s := list_ascii_of_string path in
    if String.eqb path "" then Ok tt
    else if negb (existsb path_char s) then Throw InvalidPathCharacter
    else if starts_with_dot s || ends_with_dot s then Throw InvalidPathBoundary
    else if double_dot s then Throw InvalidPathSegment
    else Ok tt.
Proof.
  unfold validatePath. rewrite re_chars_test. unfold regex_test.
  by rewrite search_boundary, search_dots.
Qed.

Lemma split_head path :
  head (split path) = Some ""
  <-> path = "" \/ starts_with_dot (list_ascii_of_string path) = true.
Proof.
  destruct path as [| c r]; [by split; [left |] |].
  cbn [split list_ascii_of_string starts_with_dot].
  destruct (is_dot c); [by split; [right |] |].
  destruct (split_cons r) as (p & ps & ->). cbn.
  split; [done | by intros [? | ?]].
Qed.

Lemma ends_with_dot_cons c s :
  ends_with_dot (c :: s) = if s is [] then is_dot c else ends_with_dot s.
Proof. by destruct s. Qed.

Lemma double_dot_cons c s :
  double_dot (c :: s) = is_dot c && starts_with_dot s || double_dot s.
Proof. destruct s; cbn; [by rewrite andb_false_r | done]. Qed.

Lemma split_tail path :
  "" ∈ tail (split path)
  <-> ends_with_dot (list_ascii_of_string path) = true
      \/ double_dot (list_ascii_of_string path) = true.
Proof.
  induction path as [| c r IH].
  - cbn. split; [by intros ?%elem_of_nil | by intros [? | ?]].
  - cbn [split list_ascii_of_string].
    rewrite ends_with_dot_cons, double_dot_cons.
    pose proof (split_head r) as Hh.
    destruct (split_cons r) as (p & ps & Hs). rewrite Hs in *.
    cbn [head tail] in *.
    destruct (is_dot c) eqn:Hc; cbn [andb orb tail].
    + rewrite elem_of_cons, IH.
      destruct r as [| c' r'].
      * cbn in Hs. injection Hs as <- <-. cbn. split; [by left | by left].
      * cbn [list_ascii_of_string] in *. rewrite orb_true_iff.
        split.
        -- intros [<- | [? | ?]]; [| by left | right; by right].
           right. left. destruct Hh as [Hh _]. by destruct (Hh eq_refl).
        -- intros [? | [Hd | ?]]; [by right; left | | by right; right].
           left. destruct Hh as [_ Hh]. by injection (Hh (or_intror Hd)).
    + rewrite IH. by destruct r as [| c' r'].
Qed.

Lemma split_empty_segment path :
  "" ∈ split path
  <-> path = ""
      \/ (let s := list_ascii_of_string path in
          starts_with_dot s || ends_with_dot s || double_dot s) = true.
Proof.
  pose proof (split_head path) as Hh. pose proof (split_tail path) as Ht.
  destruct (split_cons path) as (p & ps & Hs). rewrite Hs in *.
  cbn [head tail] in *. rewrite elem_of_cons, Ht. cbn zeta.
  rewrite !orb_true_iff. split.
  - intros [<- | [? | ?]]; [| tauto | tauto].
    destruct Hh as [Hh _]. destruct (Hh eq_refl); tauto.
  - intros [? | [[? | ?] | ?]]; [| | tauto | tauto].
    + left. destruct Hh as [_ Hh]. by injection (Hh (or_introl H)).
    + left. destruct Hh as [_ Hh]. by injection (Hh (or_intror H)).
Qed.

(** X2: a path that is not empty is accepted exactly when one of its
    characters is in the class and none of the segments that [split] gives
    is empty. *)
Theorem validatePath_accepts path :
  path <> "" ->
  (validatePath path = Ok tt
   <-> existsb path_char (list_ascii_of_string path) = true
       /\ "" ∉ split path).
Proof.
  intros Hne. unfold validatePath. rewrite re_chars_test. unfold regex_test.
  rewrite search_boundary, search_dots, split_empty_segment. cbn zeta.
  destruct (String.eqb_spec path "") as [? | _]; [done |].
  destruct (existsb _ _); cbn [negb]; [| by split; [| intros [? _]]].
  destruct (starts_with_dot _), (ends_with_dot _), (double_dot _); cbn;
    split; try done;
    solve [ intros _; split; [done |]; by intros [? | ?]
          | intros [_ H]; exfalso; apply H; by right ].
Qed.

Lemma validatePath_accepts_witness :
  "A.B-2_c" <> ""
  /\ (validatePath "A.B-2_c" = Ok tt
      <-> existsb path_char (list_ascii_of_string "A.B-2_c") = true
          /\ "" ∉ split "A.B-2_c").
Proof. split; [done | by apply validatePath_accepts]. Defined.

Lemma append_cons c (p q : string) : String c p +:+ q = String c (p +:+ q).
Proof. reflexivity. Qed.

Lemma append_empty_r (p : string) : p +:+ "" = p.
Proof.
  induction p as [| c p IH]; [done |]. by rewrite append_cons, IH.
Qed.

Lemma append_assoc (p q r : string) : (p +:+ q) +:+ r = p +:+ (q +:+ r).
Proof.
  induction p as [| c p IH]; [done |]. by rewrite !append_cons, IH.
Qed.

Lemma dotted_suffix ks : forall p, dotted false p ks = p +:+ dot_suffix ks.
Proof.
  induction ks as [| k ks IH]; intros p; cbn [dotted dot_suffix propKey].
  - by rewrite append_empty_r.
  - by rewrite IH, !append_assoc.
Qed.

Lemma split_suffix path :
  exists p ps, split path = p :: ps /\ p +:+ dot_suffix ps = path.
Proof.
  induction path as [| c r (p & ps & Hs & Hj)]; [by exists "", [] |].
  cbn [split]. rewrite Hs. destruct (is_dot c) eqn:Hc.
  - exists "", (p :: ps). split; [done |]. cbn [dot_suffix].
    apply Ascii.eqb_eq in Hc as ->.
    change ("" +:+ "." +:+ p +:+ dot_suffix ps)
      with (String "." (p +:+ dot_suffix ps)).
    by rewrite Hj.
  - exists (String c p), ps. split; [done |]. by rewrite append_cons, Hj.
Qed.

Lemma dot_suffix_app ks1 ks2 :
  dot_suffix (ks1 ++ ks2) = dot_suffix ks1 +:+ dot_suffix ks2.
Proof.
  induction ks1 as [| k ks1 IH]; [done |].
  cbn [app dot_suffix]. by rewrite IH, !append_assoc.
Qed.

(** X3: the dotted paths of a report are the paths of the sections:
    the path that [resolve] builds for the keys [split path] is [path], and
    for a key [k] below them it is [path + "." + k]. *)
Theorem dotted_split path :
  dotted true "" (split path) = path
  /\ forall k, dotted true "" (split path ++ [k]) = path +:+ "." +:+ k.
Proof.
  destruct (split_suffix path) as (p & ps & -> & Hj). split.
  - cbn [dotted propKey]. by rewrite dotted_suffix.
  - intros k. cbn [app dotted propKey].
    rewrite dotted_suffix, dot_suffix_app, <- append_assoc, Hj.
    cbn [dot_suffix]. by rewrite append_empty_r.
Qed.

(** * The path that [getOrCreateConfigPath] makes *)

Lemma index_key_inj i j : index_key i = index_key j -> i = j.
Proof.
  intros H. apply (f_equal parse_index) in H.
  rewrite !parse_index_index_key in H. by injection H.
Qed.

Lemma set_prop_other o p v o' k :
  set_prop o p v = Ok o' -> k <> p ->
  typeof (get_prop o k) = TObject \/ typeof (get_prop o' k) = TObject ->
  get_prop o' k = get_prop o k.
Proof.
  destruct o as [ps | es ps]; simpl.
  - intros [= <-] Hk _. simpl. by rewrite assoc_get_set_ne.
  - destruct (parse_index p) as [i |] eqn:Hi.
    + assert (Hki' : k <> p -> parse_index k <> Some i).
      { intros Hk Hk'. apply parse_index_key in Hi, Hk'. congruence. }
      destruct (decide (i < length es)%nat) as [Hlt | Hge]; intros [= <-] Hk;
        pose proof (Hki' Hk) as Hki;
        simpl; destruct (parse_index k) as [j |] eqn:Hj.
      * intros _. rewrite list_lookup_insert_ne; [done | congruence].
      * by rewrite length_insert.
      * intros Hty. destruct (decide (j < length es)%nat) as [Hjl | Hjg].
        { by rewrite lookup_app_l. }
        rewrite (lookup_ge_None_2 es) by lia. simpl.
        rewrite lookup_app_r by lia.
        destruct (decide (j - length es < i - length es)%nat).
        { rewrite lookup_app_l by (rewrite length_replicate; lia).
          rewrite lookup_replicate_2; [done | lia]. }
        rewrite lookup_app_r by (rewrite length_replicate; lia).
        rewrite length_replicate.
        destruct (j - length es - (i - length es))%nat as [| m] eqn:Hm; [| done].
        exfalso. apply Hki. f_equal. lia.
      * destruct (String.eqb k length_key); [| done].
        simpl. by intros [? | ?].
    + destruct (String.eqb p length_key) eqn:Hp; [done |].
      intros [= <-] Hk _. simpl. destruct (parse_index k); [done |].
      destruct (String.eqb k length_key); [done |].
      by rewrite assoc_get_set_ne.
Qed.

(** [getOrCreateConfigPath] assigns to a key only when the key does not
    hold a value of kind ['object']. *)
Lemma descend_keeps root h p root' h' v k x :
  descend (Ok (root, h)) p = Ok (root', h') ->
  get h v k = Ok x -> typeof x = TObject -> get h' v k = Ok x.
Proof.
  unfold descend. ostep. intros H Hg Hx.
  oinv H as v0 Hv0. oinv H as h1 Hh1. oinv H as r1 Hr1. injection H as <- <-.
  case_bool_decide as Hty; [| by injection Hh1 as <-].
  unfold new_object, alloc in Hh1.
  destruct root as [| | | | | l]; try done.
  simpl in Hh1. oinv Hh1 as o' Ho'. injection Hh1 as <-.
  rewrite heap_get_alloc in Ho' by done.
  destruct v as [| | | | | l2]; try done.
  simpl in *. injection Hg as <-. injection Hv0 as <-. f_equal.
  destruct (decide (l2 = l)) as [-> | Hne].
  - destruct (decide (l < length (h ++ [Obj []]))%nat) as [Hlt | Hge].
    + unfold heap_get at 1, heap_set. rewrite list_lookup_insert_eq by done.
      simpl. destruct (decide (k = p)) as [-> | Hkp]; [done |].
      eapply set_prop_other; eauto.
    + unfold heap_set. rewrite list_insert_ge by lia.
      by rewrite heap_get_alloc.
  - unfold heap_get at 1, heap_set. rewrite list_lookup_insert_ne by done.
    fold (heap_get (h ++ [Obj []]) l2). by rewrite heap_get_alloc.
Qed.

Lemma fold_descend_keeps ks : forall root h r h' v k x,
  fold_left descend ks (Ok (root, h)) = Ok (r, h') ->
  get h v k = Ok x -> typeof x = TObject -> get h' v k = Ok x.
Proof.
  induction ks as [| p ks IH]; intros root h r h' v k x; cbn [fold_left].
  - by intros [= _ <-].
  - intros H Hg Hx.
    destruct (fold_left_Ok_acc descend descend_acc _ _ _ H) as [[root1 h1] H1].
    rewrite H1 in H. eapply IH; [exact H | | done].
    by eapply descend_keeps.
Qed.

(** X5: [getOrCreateConfigPath] assigns to a key only when the key does
    not hold a value of kind ['object']: whatever key of whatever object
    holds a mapping, an array or [null] before the call holds the same
    value after it. *)
Theorem getOrCreateConfigPath_keeps cm path h r h' v k x :
  getOrCreateConfigPath cm path h = Ok (r, h') ->
  get h v k = Ok x -> typeof x = TObject -> get h' v k = Ok x.
Proof.
  unfold getOrCreateConfigPath. destruct (String.eqb path "").
  - by intros [= _ <-].
  - intros H. oinv H as u Hu. by eapply fold_descend_keeps.
Qed.

Lemma descend_existing root h p v :
  get h root p = Ok v -> typeof v = TObject ->
  descend (Ok (root, h)) p = Ok (v, h).
Proof.
  intros Hg Hv. unfold descend. ostep. rewrite Hg. ostep.
  rewrite bool_decide_eq_false_2 by (by intros ?). ostep. by rewrite Hg.
Qed.

Lemma walks_descend ks : forall h root r,
  walks h root ks r -> fold_left descend ks (Ok (root, h)) = Ok (r, h).
Proof.
  induction ks as [| p ks IH]; intros h root r; cbn [fold_left walks].
  - by intros ->.
  - intros (v & Hg & Hv & Hw). rewrite (descend_existing _ _ _ _ Hg Hv).
    by apply IH.
Qed.

Lemma descend_post root h p root' h' :
  linked h -> allocated h root ->
  descend (Ok (root, h)) p = Ok (root', h') ->
  get h' root p = Ok root' /\ typeof root' = TObject
  /\ linked h' /\ allocated h' root'.
Proof.
  unfold descend. ostep. intros Hwf Hroot H.
  oinv H as v0 Hv0. oinv H as h1 Hh1. oinv H as r1 Hr1. injection H as <- <-.
  split; [done |].
  case_bool_decide as Hty.
  - unfold new_object, alloc in Hh1.
    destruct root as [| | | | | l]; try done.
    pose proof (Hroot l eq_refl) as Hl.
    assert (Hl' : (l < length (h ++ [Obj []]))%nat) by (rewrite length_app; lia).
    pose proof (get_set_same _ _ _ _ _ Hh1 Hl') as Hget.
    rewrite Hget in Hr1. injection Hr1 as <-.
    pose proof (set_length _ _ _ _ _ Hh1) as Hlen.
    rewrite length_app in Hlen. simpl in Hlen.
    split; [done |]. split.
    + intros l2 k l' Hk. rewrite Hlen.
      simpl in Hh1. oinv Hh1 as o' Ho'. injection Hh1 as <-.
      rewrite heap_get_alloc in Ho' by done.
      destruct (decide (l2 = l)) as [-> | Hne].
      * unfold heap_get at 1, heap_set in Hk.
        rewrite list_lookup_insert_eq in Hk by done. simpl in Hk.
        destruct (decide (k = p)) as [-> | Hkp].
        -- rewrite (get_set_prop _ _ _ _ Ho') in Hk. injection Hk as <-. lia.
        -- rewrite (set_prop_other _ _ _ _ _ Ho' Hkp) in Hk
             by (right; by rewrite Hk).
           apply Hwf in Hk. lia.
      * unfold heap_get at 1, heap_set in Hk.
        rewrite list_lookup_insert_ne in Hk by done.
        fold (heap_get (h ++ [Obj []]) l2) in Hk.
        rewrite heap_get_alloc in Hk by done. apply Hwf in Hk. lia.
    + intros l' [= <-]. lia.
  - injection Hh1 as <-. rewrite Hv0 in Hr1. injection Hr1 as <-.
    split; [by destruct (decide (typeof v0 = TObject)) |].
    split; [done |].
    intros l' ->. destruct root as [| | | | s | l]; try done.
    + simpl in Hv0. destruct (parse_index p) as [i |].
      * by destruct (string_chars s !! i).
      * by destruct (String.eqb p length_key).
    + simpl in Hv0. injection Hv0 as Hv0. by apply Hwf in Hv0.
Qed.

Lemma fold_descend_post ks : forall root h r h',
  linked h -> allocated h root ->
  fold_left descend ks (Ok (root, h)) = Ok (r, h') ->
  walks h' root ks r /\ linked h' /\ allocated h' r.
Proof.
  induction ks as [| p ks IH]; intros root h r h' Hwf Hroot; cbn [fold_left walks].
  - by intros [= <- <-].
  - intros H.
    destruct (fold_left_Ok_acc descend descend_acc _ _ _ H) as [[root1 h1] H1].
    rewrite H1 in H.
    destruct (descend_post _ _ _ _ _ Hwf Hroot H1) as (Hg & Hty & Hwf1 & Hr1).
    destruct (IH _ _ _ _ Hwf1 Hr1 H) as (Hw & Hwf' & Hr).
    split; [| done]. exists root1. split; [| done].
    by eapply fold_descend_keeps.
Qed.

Lemma walks_typeof h ks : forall v r,
  ks <> [] -> walks h v ks r -> typeof r = TObject.
Proof.
  induction ks as [| k ks IH]; intros v r Hne; [done |].
  simpl. intros (v' & _ & Hty & Hw).
  destruct ks as [| k' ks']; [by simpl in Hw; subst |].
  by eapply IH.
Qed.

(** X6: on a heap without dangling references, with the Document
    allocated, a call of [getOrCreateConfigPath] that returns has made the
    path: its segments lead from the Document to the value returned through
    values of kind ['object'], the value returned is of that kind, and a
    second call returns the same value and changes nothing. *)
Theorem getOrCreateConfigPath_reaches cm path h r h' :
  linked h -> allocated h (config cm) -> path <> "" ->
  getOrCreateConfigPath cm path h = Ok (r, h') ->
  walks h' (config cm) (split path) r
  /\ typeof r = TObject
  /\ getOrCreateConfigPath cm path h' = Ok (r, h').
Proof.
  intros Hwf Hc Hne. unfold getOrCreateConfigPath.
  destruct (String.eqb_spec path "") as [? | _]; [done |].
  intros H. oinv H as u Hu. rewrite Hu. ostep.
  destruct (fold_descend_post _ _ _ _ _ Hwf Hc H) as (Hw & _ & _).
  split; [done |]. split.
  - eapply walks_typeof; [| done].
    destruct (split_cons path) as (p & ps & ->). done.
  - by apply walks_descend.
Qed.

(** X7: when the segments of a valid path lead from the Document to [r]
    through values of kind ['object'], [getOrCreateConfigPath] returns [r]
    and changes nothing. *)
Theorem getOrCreateConfigPath_existing cm path h r :
  path <> "" -> validatePath path = Ok tt ->
  walks h (config cm) (split path) r ->
  getOrCreateConfigPath cm path h = Ok (r, h).
Proof.
  intros Hne Hv Hw. unfold getOrCreateConfigPath.
  destruct (String.eqb_spec path "") as [? | _]; [done |].
  rewrite Hv. ostep. by apply walks_descend.
Qed.

(** * What [updateConfigPath] installs *)






Lemma isObject_plain h l : isObject h (VRef l) = is_plain (heap_get h l).
Proof. done. Qed.

Lemma set_prop_plain o p v o' : set_prop o p v = Ok o' -> is_plain o' = is_plain o.
Proof.
  destruct o as [ps | es ps]; simpl; [by intros [= <-] |].
  destruct (parse_index p) as [i |].
  - by destruct (decide _); intros [= <-].
  - destruct (String.eqb p length_key); [done | by intros [= <-]].
Qed.

Lemma set_plain h v k x h' l :
  set h v k x = Ok h' -> is_plain (heap_get h' l) = is_plain (heap_get h l).
Proof.
  destruct v as [| | | | | c]; try done. simpl. intros H.
  oinv H as o' Ho'. injection H as <-.
  destruct (decide (l = c)) as [-> | Hne].
  - destruct (decide (c < length h)%nat).
    + unfold heap_get at 1, heap_set. rewrite list_lookup_insert_eq by done.
      simpl. by eapply set_prop_plain.
    + unfold heap_set. by rewrite list_insert_ge by lia.
  - unfold heap_get, heap_set. by rewrite list_lookup_insert_ne.
Qed.





(** * More on deep merge *)


Lemma bounded_frame h h' X W : frame W h h' -> bounded h X -> bounded h' X.
Proof. intros [Hlen _] Hb l Hl. apply Hb in Hl. lia. Qed.






(** X13: only plain objects are merged: with a target that is not one,
    or with sources none of which is one, the call returns the target and
    changes nothing. *)
Theorem mergeConfigs_not_plain h t ss n :
  isObject h t = false \/ Forall (fun s => isObject h s = false) ss ->
  mergeConfigs (S (length ss) + n) h t ss = Ok (t, h).
Proof.
  intros H. induction ss as [| s ss IH]; [done |].
  cbn [length Nat.add mergeConfigs].
  assert (Hb : isObject h t && isObject h s = false).
  { destruct H as [-> | H]; [done |]. apply Forall_cons in H as [-> _].
    apply andb_false_r. }
  rewrite Hb. ostep. apply IH.
  destruct H as [? | H]; [by left | right]. by apply Forall_cons in H as [_ ?].
Qed.







(** * Saving and loading *)





(** * Validation without [clearUnusedValues] *)

Lemma reached_from_keys h conf def ks cv dv :
  reached h conf def ks cv dv
  <-> exists kl, keys h conf = Ok kl /\ reached_from h conf def kl ks cv dv.
Proof.
  split.
  - intros Hr. inversion Hr as [? ? kl k ? ? Hkl Hk Hc Hd
                               | ? ? kl k cv0 dv0 ks' ? ? Hkl Hk Hc Hd Htc Htd Hr'];
      subst; exists kl; (split; [done |]).
    + exists k, [], cv, dv. eauto 10.
    + exists k, ks', cv0, dv0. eauto 10.
  - intros (kl & Hkl & k & ks' & cv0 & dv0 & -> & Hk & Hc & Hd & Hcase).
    destruct Hcase as [(-> & -> & ->) | (Htc & Htd & Hr)].
    + by eapply reached_here.
    + by eapply reached_below.
Qed.

Lemma reached_ext h h' conf def ks cv dv :
  (forall l, heap_get h' l = heap_get h l) ->
  reached h conf def ks cv dv -> reached h' conf def ks cv dv.
Proof.
  intros Hext Hr.
  apply (reached_stable false h h' ∅ _ _ _ _ _ Hr ∅); [done |].
  intros l _. apply Hext.
Qed.

Lemma reached_nonempty h conf def ks cv dv :
  reached h conf def ks cv dv -> ks <> [].
Proof. by destruct 1. Qed.

Lemma old_value_ext h h' : (forall l, heap_get h' l = heap_get h l) ->
  forall ks old, old_value h' old ks = old_value h old ks.
Proof.
  intros Hext. induction ks as [| k ks IH]; intros old; [done |].
  cbn [old_value]. rewrite (get_heap_get h h' old k) by (intros; apply Hext).
  destruct (get h old k) as [ov | | |]; try done. ostep.
  destruct ks; [done |]. by rewrite IH.
Qed.

Lemma old_value_empty h o ks :
  (forall k, get h o k = Ok VUndef) -> ks <> [] -> old_value h o ks = Ok VUndef.
Proof.
  intros Ho Hks. destruct ks as [| k ks]; [done |].
  cbn [old_value]. rewrite Ho. ostep. by destruct ks.
Qed.

(** One iteration of the loop of [resolve], without [clearUnusedValues]. *)
Lemma visit_plain rec first path conf old def r h k r' h' :
  visit rec false first path conf old def (Ok (r, h)) k = Ok (r', h') ->
  exists ov cv dv r2,
    get h old k = Ok ov /\ get h conf k = Ok cv /\ get h def k = Ok dv
    /\ (forall e, has r2 e
                  <-> has r e \/ finding h old (propKey first path k) [k] cv dv e)
    /\ ((typeof cv = TObject /\ typeof dv = TObject
         /\ exists o h3,
              (forall l, heap_get h3 l = heap_get h l)
              /\ (if truthy ov then o = ov
                  else forall k', get h3 o k' = Ok VUndef)
              /\ rec (propKey first path k) cv o dv (r2, h3) = Ok (r', h'))
        \/ (~ (typeof cv = TObject /\ typeof dv = TObject)
            /\ r' = r2 /\ h' = h)).
Proof.
  intros H. unfold visit in H. ostep_in H.
  oinv H as ov Hov. oinv H as cv Hcv. oinv H as dv Hdv.
  oinv H as [r2 h2] Hst. oinv H as cv' Hcv'. oinv H as dv' Hdv'.
  set (pk := propKey first path k) in *.
  set (r1 := if strict_eq ov VUndef
             then Report (r_created r ++ [pk]) (r_wrongTypes r) (r_unusedValues r)
             else r) in *.
  assert (Hh2 : h2 = h).
  { repeat case_bool_decide; by simplify_eq. }
  subst h2. rewrite Hcv in Hcv'. rewrite Hdv in Hdv'.
  injection Hcv' as <-. injection Hdv' as <-.
  exists ov, cv, dv, r2. split; [done |]. split; [done |]. split; [done |].
  split.
  - assert (Hc2 : r_created r2
                  = r_created r ++ (if bool_decide (ov = VUndef) then [pk] else [])).
    { unfold r1, strict_eq in Hst.
      repeat case_bool_decide; simplify_eq; simpl; by rewrite ?app_nil_r. }
    assert (Hw2 : r_wrongTypes r2
                  = r_wrongTypes r
                    ++ (if bool_decide (typeof cv <> typeof dv
                                        /\ typeof dv <> TUndefined)
                        then [(pk, typeof dv, typeof cv)] else [])).
    { unfold r1, strict_eq in Hst.
      repeat case_bool_decide; simplify_eq; simpl; rewrite ?app_nil_r;
        try done; tauto. }
    assert (Hu2 : r_unusedValues r2
                  = r_unusedValues r
                    ++ (if bool_decide (typeof cv <> typeof dv
                                        /\ typeof dv = TUndefined)
                        then [pk] else [])).
    { unfold r1, strict_eq in Hst.
      repeat case_bool_decide; simplify_eq; simpl; rewrite ?app_nil_r;
        try done; tauto. }
    intros e. unfold finding. cbn [old_value]. rewrite Hov. ostep.
    destruct e as [q | q ex ac | q]; cbn [has].
    + rewrite Hc2, elem_of_app.
      destruct (decide (ov = VUndef)) as [Hb | Hb];
        [rewrite bool_decide_eq_true_2 by done
        | rewrite bool_decide_eq_false_2 by done].
      * rewrite list_elem_of_singleton. subst ov. naive_solver.
      * rewrite elem_of_nil. naive_solver.
    + rewrite Hw2, elem_of_app.
      destruct (decide (typeof cv <> typeof dv /\ typeof dv <> TUndefined))
        as [Hb | Hb];
        [rewrite bool_decide_eq_true_2 by done
        | rewrite bool_decide_eq_false_2 by done].
      * rewrite list_elem_of_singleton. naive_solver.
      * rewrite elem_of_nil. naive_solver.
    + rewrite Hu2, elem_of_app.
      destruct (decide (typeof cv <> typeof dv /\ typeof dv = TUndefined))
        as [Hb | Hb];
        [rewrite bool_decide_eq_true_2 by done
        | rewrite bool_decide_eq_false_2 by done].
      * rewrite list_elem_of_singleton. naive_solver.
      * rewrite elem_of_nil. naive_solver.
  - destruct (decide (typeof cv = TObject /\ typeof dv = TObject)) as [[Hc Hd] | Hno].
    + left. split; [done |]. split; [done |].
      rewrite !bool_decide_eq_true_2 in H by done. simpl in H.
      oinv H as ov' Hov'. rewrite Hov in Hov'. injection Hov' as <-.
      destruct (truthy ov) eqn:Hto.
      * by exists ov, h.
      * eexists _, _. split; [| split; [| exact H]].
        -- intros l. by apply heap_get_alloc.
        -- intros k'. simpl. unfold heap_get.
           rewrite lookup_app_r by lia.
           by replace (length h - length h)%nat with 0%nat by lia.
    + right. split; [done |].
      destruct (bool_decide (typeof cv = TObject)) eqn:Hc;
        destruct (bool_decide (typeof dv = TObject)) eqn:Hd;
        simpl in H; try (by injection H as <- <-).
      apply bool_decide_eq_true in Hc, Hd. by destruct Hno.
Qed.

Lemma finding_below h h3 old o ov k first path ks' cv dv e :
  get h old k = Ok ov ->
  (forall l, heap_get h3 l = heap_get h l) ->
  (if truthy ov then o = ov else forall k', get h3 o k' = Ok VUndef) ->
  ks' <> [] ->
  finding h3 o (dotted false (propKey first path k) ks') ks' cv dv e
  <-> finding h old (dotted first path (k :: ks')) (k :: ks') cv dv e.
Proof.
  intros Hov Hext Ho Hks. destruct e as [q | q ex ac | q]; cbn [finding dotted];
    [| done | done].
  cbn [old_value]. rewrite Hov. ostep.
  destruct ks' as [| k' ks'']; [done |].
  destruct (truthy ov).
  - subst o. by rewrite (old_value_ext h h3).
  - rewrite (old_value_empty h3 o) by done. done.
Qed.

Lemma fold_plain rec first path conf old def h :
  plain_walk rec ->
  forall kl r1 h1 r' h',
    (forall l, heap_get h1 l = heap_get h l) ->
    fold_left (visit rec false first path conf old def) kl (Ok (r1, h1))
      = Ok (r', h') ->
    (forall l, heap_get h' l = heap_get h l)
    /\ forall e,
         has r' e
         <-> has r1 e
             \/ exists ks cv dv,
                  reached_from h conf def kl ks cv dv
                  /\ finding h old (dotted first path ks) ks cv dv e.
Proof.
  intros Hrec. induction kl as [| k kl IH]; intros r1 h1 r' h' Hext Hfold.
  - injection Hfold as <- <-. split; [done |]. intros e. split; [by left |].
    intros [? | (ks & cv & dv & (k & ? & ? & ? & _ & Hk & _) & _)]; [done |].
    by apply elem_of_nil in Hk.
  - cbn [fold_left] in Hfold.
    destruct (fold_left_Ok_acc _ (visit_acc _ _ _ _ _ _ _) _ _ _ Hfold)
      as [[r2 h2] Hvis].
    rewrite Hvis in Hfold.
    destruct (visit_plain _ _ _ _ _ _ _ _ _ _ _ Hvis)
      as (ov & cv0 & dv0 & r2' & Hov & Hcv & Hdv & Hhas & Hcase).
    rewrite (get_heap_get h h1) in Hov, Hcv, Hdv by (intros; apply Hext).
    assert (Hhas' : forall e,
              has r2' e
              <-> has r1 e
                  \/ finding h old (dotted first path [k]) [k] cv0 dv0 e).
    { intros e. rewrite Hhas. cbn [dotted].
      destruct e; cbn [finding]; [| done | done].
      by rewrite (old_value_ext h h1). }
    assert (Hstep :
      (forall l, heap_get h2 l = heap_get h l)
      /\ forall e,
           has r2 e
           <-> has r1 e
               \/ exists ks cv dv,
                    reached_from h conf def [k] ks cv dv
                    /\ finding h old (dotted first path ks) ks cv dv e).
    { destruct Hcase as [(Hc & Hd & o & h3 & Hh3 & Ho & Hcall)
                        | (Hno & -> & ->)].
      - destruct (Hrec _ _ _ _ _ _ _ _ Hcall) as [Hext2 Hhas2].
        assert (Hext3 : forall l, heap_get h3 l = heap_get h l).
        { intros l. by rewrite Hh3. }
        split; [intros l; by rewrite Hext2 |].
        intros e. rewrite Hhas2, Hhas'. split.
        + intros [[? | Hf] | (ks' & cv & dv & Hr & Hf)]; [by left | |].
          * right. exists [k], cv0, dv0. split; [| done].
            exists k, [], cv0, dv0. split; [done |].
            split; [apply list_elem_of_here |]. eauto 10.
          * right. exists (k :: ks'), cv, dv.
            assert (Hr' : reached h cv0 dv0 ks' cv dv).
            { eapply reached_ext; [| exact Hr]. intros l. by rewrite Hext3. }
            split.
            -- exists k, ks', cv0, dv0. split; [done |].
               split; [apply list_elem_of_here |]. eauto 10.
            -- refine (proj1 (finding_below h h3 old o ov k first path ks'
                                cv dv e Hov Hext3 Ho _) Hf).
               by eapply reached_nonempty.
        + intros [? | (ks & cv & dv & Hr & Hf)]; [by left; left |].
          destruct Hr as (k0 & ks' & cv1 & dv1 & -> & Hk0 & Hcv1 & Hdv1 & Hr).
          apply list_elem_of_singleton in Hk0 as ->.
          rewrite Hcv in Hcv1. rewrite Hdv in Hdv1.
          injection Hcv1 as <-. injection Hdv1 as <-.
          destruct Hr as [(-> & -> & ->) | (_ & _ & Hr)]; [by left; right |].
          right. exists ks', cv, dv. split.
          * eapply reached_ext; [| exact Hr]. done.
          * refine (proj2 (finding_below h h3 old o ov k first path ks'
                             cv dv e Hov Hext3 Ho _) Hf).
            by eapply reached_nonempty.
      - split; [by intros l; rewrite Hext |].
        intros e. rewrite Hhas'. split.
        + intros [? | Hf]; [by left |].
          right. exists [k], cv0, dv0. split; [| done].
          exists k, [], cv0, dv0. split; [done |].
          split; [apply list_elem_of_here |]. eauto 10.
        + intros [? | (ks & cv & dv & Hr & Hf)]; [by left |].
          destruct Hr as (k0 & ks' & cv1 & dv1 & -> & Hk0 & Hcv1 & Hdv1 & Hr).
          apply list_elem_of_singleton in Hk0 as ->.
          rewrite Hcv in Hcv1. rewrite Hdv in Hdv1.
          injection Hcv1 as <-. injection Hdv1 as <-.
          destruct Hr as [(-> & -> & ->) | (Hc & Hd & _)]; [by right |].
          by destruct Hno. }
    destruct Hstep as [Hext2 Hhas2].
    destruct (IH _ _ _ _ Hext2 Hfold) as [Hext' Hhas3].
    split; [done |]. intros e. rewrite Hhas3, Hhas2. split.
    + intros [[? | (ks & cv & dv & Hr & Hf)] | (ks & cv & dv & Hr & Hf)];
        [by left | |]; right; exists ks, cv, dv; (split; [| done]);
        destruct Hr as (k0 & ks' & cv1 & dv1 & -> & Hk0 & Hrest);
        exists k0, ks', cv1, dv1; (split; [done |]); (split; [| done]).
      * apply list_elem_of_singleton in Hk0 as ->. apply list_elem_of_here.
      * by apply list_elem_of_further.
    + intros [? | (ks & cv & dv & Hr & Hf)]; [by left; left |].
      destruct Hr as (k0 & ks' & cv1 & dv1 & -> & Hk0 & Hrest).
      apply elem_of_cons in Hk0 as [-> | Hk0].
      * left. right. exists (k :: ks'), cv, dv. split; [| done].
        exists k, ks', cv1, dv1. split; [done |].
        split; [apply list_elem_of_here | done].
      * right. exists (k0 :: ks'), cv, dv. split; [| done].
        by exists k0, ks', cv1, dv1.
Qed.

Lemma resolve_plain fuel : forall first path conf old def r h r' h',
  resolve fuel false first path conf old def (r, h) = Ok (r', h') ->
  (forall l, heap_get h' l = heap_get h l)
  /\ forall e,
       has r' e
       <-> has r e
           \/ exists ks cv dv,
                reached h conf def ks cv dv
                /\ finding h old (dotted first path ks) ks cv dv e.
Proof.
  induction fuel as [| fuel IH]; [done |].
  intros first path conf old def r h r' h' H. cbn [resolve] in H.
  oinv H as kl Hkl. cbn [snd] in Hkl.
  destruct (fold_plain _ first path conf old def h
              (fun p c o d r h r' h' Hc => IH false p c o d r h r' h' Hc)
              kl r h r' h' ltac:(done) H) as [Hext Hhas].
  split; [done |]. intros e. rewrite Hhas.
  split; intros [? | (ks & cv & dv & Hr & Hf)]; try (by left); right;
    exists ks, cv, dv; (split; [| done]).
  - apply reached_from_keys. by exists kl.
  - apply reached_from_keys in Hr as (kl' & Hkl' & Hr). congruence.
Qed.





(** * The empty path, and rejected paths *)

Lemma set_prop_length o k v o' :
  set_prop o k v = Ok o' -> k = length_key -> is_plain o = true.
Proof.
  intros H ->. destruct o as [ps | es ps]; [done |]. simpl in H.
  by destruct (parse_index length_key).
Qed.

Lemma set_prop_keep o p v o' k :
  set_prop o p v = Ok o' -> k <> p ->
  k <> length_key \/ is_plain o = true ->
  get_prop o' k = get_prop o k.
Proof.
  destruct o as [ps | es ps]; simpl.
  - intros [= <-] Hk _. simpl. by rewrite assoc_get_set_ne.
  - intros H Hk [Hlen | ?]; [| done].
    destruct (parse_index p) as [i |] eqn:Hi.
    + assert (Hki : parse_index k <> Some i).
      { intros Hk'. apply parse_index_key in Hi, Hk'. congruence. }
      destruct (decide (i < length es)%nat) as [Hlt | Hge];
        injection H as <-; simpl; destruct (parse_index k) as [j |] eqn:Hj.
      * rewrite list_lookup_insert_ne; [done | congruence].
      * by rewrite (proj2 (String.eqb_neq _ _) Hlen).
      * destruct (decide (j < length es)%nat) as [Hjl | Hjg].
        { by rewrite lookup_app_l. }
        rewrite (lookup_ge_None_2 es) by lia. simpl.
        rewrite lookup_app_r by lia.
        destruct (decide (j - length es < i - length es)%nat).
        { rewrite lookup_app_l by (rewrite length_replicate; lia).
          rewrite lookup_replicate_2; [done | lia]. }
        rewrite lookup_app_r by (rewrite length_replicate; lia).
        rewrite length_replicate.
        destruct (j - length es - (i - length es))%nat as [| m] eqn:Hm.
        { exfalso. apply Hki. f_equal. lia. }
        by destruct m.
      * by rewrite (proj2 (String.eqb_neq _ _) Hlen).
    + destruct (String.eqb p length_key) eqn:Hp; [done |].
      injection H as <-. simpl. destruct (parse_index k); [done |].
      rewrite (proj2 (String.eqb_neq _ _) Hlen). by rewrite assoc_get_set_ne.
Qed.



(** X4: a path that [validatePath] rejects is rejected with the same
    error by every operation that takes a path; the validation is the
    first thing each of them does with the path. *)
Theorem invalid_path_rejected fuel cm path e v w :
  validatePath path = Throw e ->
  getOrCreateConfigPath cm path (objects w) = Throw e
  /\ updateConfigPath cm path v w = Throw e
  /\ configSection fuel cm path v w = Throw e
  /\ addDefaultConfig fuel cm path v (objects w) = Throw e.
Proof.
  intros Hv.
  assert (Hne : String.eqb path "" = false).
  { destruct (String.eqb_spec path "") as [-> |]; done. }
  assert (Hg : forall h, getOrCreateConfigPath cm path h = Throw e).
  { intros h. unfold getOrCreateConfigPath. by rewrite Hne, Hv. }
  split; [done |]. split; [| split].
  - unfold updateConfigPath. by rewrite Hg.
  - unfold configSection. by rewrite Hg.
  - unfold addDefaultConfig. by rewrite Hv.
Qed.

(** * Instances *)

Lemma get_prop_stored o k l : get_prop o k = VRef l -> VRef l ∈ stored o.
Proof.
  destruct o as [ps | es ps]; cbn [stored].
  - intros Hk. destruct (get_prop_Obj_cases ps k) as [Hu | Hin]; [congruence |].
    rewrite Hk in Hin. apply list_elem_of_fmap. by exists (k, VRef l).
  - simpl. destruct (parse_index k) as [i |].
    + destruct (es !! i) as [[v |] |] eqn:Hi; simpl; try done. intros ->.
      apply elem_of_app. left. apply list_elem_of_omap.
      exists (Some (VRef l)). split; [| done]. by eapply list_elem_of_lookup_2.
    + destruct (String.eqb k length_key); [done |]. intros Hk.
      apply elem_of_app. right.
      destruct (get_prop_Obj_cases ps k) as [Hu | Hin]; simpl in *; [congruence |].
      rewrite Hk in Hin. apply list_elem_of_fmap. by exists (k, VRef l).
Qed.

Lemma linkedb_sound h : linkedb h = true -> linked h.
Proof.
  unfold linkedb. rewrite forallb_forall. intros Hall l k l' Hk.
  apply get_prop_stored in Hk. unfold heap_get in Hk.
  destruct (h !! l) as [o |] eqn:Hl; simpl in Hk; [| by apply elem_of_nil in Hk].
  apply list_elem_of_lookup_2, list_elem_of_In in Hl.
  specialize (Hall o Hl). rewrite forallb_forall in Hall.
  apply list_elem_of_In in Hk. specialize (Hall _ Hk). simpl in Hall.
  by apply Nat.ltb_lt.
Qed.

Example siblings_store_eq : siblings_store = Ok (siblings_cm, siblings_world).
Proof. by vm_compute. Qed.

Lemma siblings_linked : linked (objects siblings_world).
Proof. apply linkedb_sound. by vm_compute. Qed.

Lemma getOrCreateConfigPath_keeps_witness :
  exists r h',
    getOrCreateConfigPath siblings_cm "X.Y.N" (objects siblings_world)
    = Ok (r, h')
    /\ get (objects siblings_world) (config siblings_cm) "X" = Ok (VRef 2)
    /\ get h' (config siblings_cm) "X" = Ok (VRef 2).
Proof.
  eexists _, _. split; [vm_compute; reflexivity |]. split; [reflexivity |].
  eapply (getOrCreateConfigPath_keeps siblings_cm "X.Y.N"
            (objects siblings_world));
    [vm_compute; reflexivity | reflexivity | reflexivity].
Defined.

Lemma getOrCreateConfigPath_reaches_witness :
  exists r h',
    getOrCreateConfigPath siblings_cm "X.N.M" (objects siblings_world)
    = Ok (r, h')
    /\ walks h' (config siblings_cm) ["X"; "N"; "M"] r
    /\ typeof r = TObject
    /\ getOrCreateConfigPath siblings_cm "X.N.M" h' = Ok (r, h').
Proof.
  eexists _, _. split; [vm_compute; reflexivity |].
  apply (getOrCreateConfigPath_reaches siblings_cm "X.N.M"
           (objects siblings_world)).
  - exact siblings_linked.
  - intros l [= <-]. vm_compute. lia.
  - done.
  - vm_compute. reflexivity.
Defined.

Lemma getOrCreateConfigPath_existing_witness :
  walks (objects siblings_world) (config siblings_cm) (split "X") (VRef 2)
  /\ getOrCreateConfigPath siblings_cm "X" (objects siblings_world)
     = Ok (VRef 2, objects siblings_world).
Proof.
  assert (Hw : walks (objects siblings_world) (config siblings_cm)
                 (split "X") (VRef 2)).
  { exists (VRef 2). by repeat split. }
  split; [exact Hw |].
  by apply (getOrCreateConfigPath_existing siblings_cm "X").
Defined.



Example mistyped_store_eq : mistyped_store = Ok (mistyped_cm, mistyped_world).
Proof. by vm_compute. Qed.




Lemma mergeConfigs_not_plain_witness :
  isObject mapping_and_array (VRef 2) = false
  /\ mergeConfigs 2 mapping_and_array (VRef 2) [VRef 1]
     = Ok (VRef 2, mapping_and_array).
Proof.
  split; [reflexivity |].
  apply (mergeConfigs_not_plain mapping_and_array (VRef 2) [VRef 1] 0).
  by left.
Defined.




Lemma invalid_path_rejected_witness :
  validatePath "A..B" = Throw InvalidPathSegment
  /\ getOrCreateConfigPath siblings_cm "A..B" (objects siblings_world)
     = Throw InvalidPathSegment
  /\ updateConfigPath siblings_cm "A..B" (VNum 1) siblings_world
     = Throw InvalidPathSegment
  /\ configSection 16 siblings_cm "A..B" (VNum 1) siblings_world
     = Throw InvalidPathSegment
  /\ addDefaultConfig 16 siblings_cm "A..B" (VNum 1) (objects siblings_world)
     = Throw InvalidPathSegment.
Proof.
  split; [reflexivity |].
  by apply (invalid_path_rejected 16 siblings_cm "A..B" InvalidPathSegment).
Defined.




(** * Arrays in a merge *)

Lemma plain_step_refl h : plain_step h h.
Proof. by split. Qed.

Lemma plain_step_trans h1 h2 h3 :
  plain_step h1 h2 -> plain_step h2 h3 -> plain_step h1 h3.
Proof.
  intros [Ha1 Hb1] [Ha2 Hb2]. split.
  - intros l. by rewrite Ha2, Ha1.
  - intros l Hl. rewrite Hb2, Hb1; [done | done |]. by rewrite Ha1.
Qed.

Lemma plain_step_alloc h : plain_step h (h ++ [Obj []]).
Proof. split; intros l; by rewrite heap_get_alloc. Qed.

Lemma plain_step_set h v k x h' :
  isObject h v = true -> set h v k x = Ok h' -> plain_step h h'.
Proof.
  intros Hv Hset. split; [intros l; by eapply set_plain |].
  intros l Hl. destruct v as [| | | | | c]; try done.
  rewrite isObject_plain in Hv.
  assert (l <> c) by (intros ->; congruence).
  unfold heap_get. by rewrite (set_other _ _ _ _ _ _ Hset).
Qed.

Lemma isObject_step h h' v : plain_step h h' -> isObject h' v = isObject h v.
Proof. intros [Ha _]. destruct v; try done. by rewrite !isObject_plain, Ha. Qed.

Lemma merge_step_plain rec t s h k h' :
  (forall h1 tv ss r h2, rec h1 tv ss = Ok (r, h2) -> plain_step h1 h2) ->
  isObject h t = true ->
  merge_step rec t s (Ok h) k = Ok h' -> plain_step h h'.
Proof.
  intros Hrec Ht H. unfold merge_step in H. ostep_in H.
  oinv H as sv Hsv. destruct (isObject h sv); [| by eapply plain_step_set].
  oinv H as tv Htv. oinv H as h1 Hh1. oinv H as tv1 Htv1. oinv H as sv1 Hsv1.
  oinv H as [x h2] Hcall. injection H as <-.
  eapply plain_step_trans; [| by eapply Hrec].
  destruct (truthy tv); [injection Hh1 as <-; apply plain_step_refl |].
  unfold new_object, alloc in Hh1.
  eapply plain_step_trans; [apply plain_step_alloc |].
  eapply plain_step_set; [| done].
  by rewrite (isObject_step h) by apply plain_step_alloc.
Qed.

Lemma mergeConfigs_plain_step fuel : forall h t ss r h',
  mergeConfigs fuel h t ss = Ok (r, h') -> plain_step h h'.
Proof.
  induction fuel as [| fuel IH]; [done |]. intros h t ss r h' H.
  destruct ss as [| s rest]; [injection H as _ <-; apply plain_step_refl |].
  cbn [mergeConfigs] in H. oinv H as h1 H1.
  eapply plain_step_trans; [| by eapply IH].
  destruct (isObject h t) eqn:Ht; [| injection H1 as <-; apply plain_step_refl].
  destruct (isObject h s); [| injection H1 as <-; apply plain_step_refl].
  cbn [andb] in H1. oinv H1 as ks Hks.
  refine (fold_left_Ok_rel (merge_step (mergeConfigs fuel) t s)
            (fun a b => isObject a t = true -> plain_step a b)
            (merge_step_acc _ _ _) _ _ _ ks h h1 H1 Ht).
  - intros a _. apply plain_step_refl.
  - intros a b c Hab Hbc Ha. specialize (Hab Ha).
    eapply plain_step_trans; [done |]. apply Hbc.
    by rewrite (isObject_step a).
  - intros a k b Hstep Ha. by eapply merge_step_plain.
Qed.

(** X15: [mergeConfigs] never changes an array: it assigns to plain
    objects only, so every array of the heap, in the target or in a source,
    has the same elements afterwards. *)
Theorem mergeConfigs_arrays_untouched fuel h t ss r h' l es ps :
  mergeConfigs fuel h t ss = Ok (r, h') ->
  h !! l = Some (Arr es ps) -> h' !! l = Some (Arr es ps).
Proof.
  intros [_ Hb]%mergeConfigs_plain_step Hl.
  specialize (Hb l). rewrite (heap_get_lookup _ _ _ Hl) in Hb.
  specialize (Hb eq_refl). unfold heap_get in Hb.
  by destruct (h' !! l) as [o |]; simpl in Hb; [subst |].
Qed.

Lemma mergeConfigs_arrays_untouched_witness :
  exists h',
    mergeConfigs 2 mapping_and_array (VRef 0) [VRef 1] = Ok (VRef 0, h')
    /\ h' !! 2%nat = Some (Arr [Some (VNum 1)] []).
Proof.
  eexists. split; [vm_compute; reflexivity |].
  eapply (mergeConfigs_arrays_untouched 2 mapping_and_array (VRef 0) [VRef 1]);
    [vm_compute; reflexivity | reflexivity].
Defined.

(** * Footprints *)

Section FootprintFacts.
Variable I : loc -> Prop.

Lemma keeps_refl h : sealed I h -> keeps I h h.
Proof. by intros ?. Qed.

Lemma keeps_trans h1 h2 h3 : keeps I h1 h2 -> keeps I h2 h3 -> keeps I h1 h3.
Proof.
  intros (_ & Hl1 & Hu1) (Hs & Hl2 & Hu2). split; [done |]. split; [lia |].
  intros l Hl. by rewrite Hu2, Hu1.
Qed.

Lemma get_inside h v k x :
  sealed I h -> inside I v -> get h v k = Ok x -> inside I x.
Proof.
  intros [_ Hclo] Hv Hg l ->.
  assert ((exists lv, v = VRef lv) \/ forall lv, v <> VRef lv)
    as [[lv ->] | Hleaf] by (destruct v; eauto).
  - injection Hg as Hg. eapply Hclo; [| exact Hg]. by apply Hv.
  - by destruct (get_leaf _ _ _ _ Hleaf Hg l).
Qed.

Lemma set_prop_ref o p v o' k l :
  set_prop o p v = Ok o' -> get_prop o' k = VRef l ->
  v = VRef l \/ get_prop o k = VRef l.
Proof.
  intros Hset Hk. destruct (decide (k = p)) as [-> | Hne].
  - left. by rewrite (get_set_prop _ _ _ _ Hset) in Hk.
  - right. rewrite <- Hk. symmetry. eapply set_prop_other; [done | done |].
    right. by rewrite Hk.
Qed.

Lemma set_keeps h v k x h' :
  sealed I h -> inside I v -> inside I x -> set h v k x = Ok h' -> keeps I h h'.
Proof.
  intros [Hcov Hclo] Hv Hx Hset.
  pose proof (set_length _ _ _ _ _ Hset) as Hlen.
  destruct v as [| | | | | c]; try done. specialize (Hv c eq_refl).
  assert (Hoff : forall l, l <> c -> heap_get h' l = heap_get h l).
  { intros l Hl. unfold heap_get. by rewrite (set_other _ _ _ _ _ _ Hset). }
  split; [split |].
  - intros l Hl. apply Hcov. lia.
  - intros l k' l' Hl Hk'. destruct (decide (l = c)) as [-> | Hne].
    + simpl in Hset. oinv Hset as o' Ho'. injection Hset as <-.
      destruct (decide (c < length h)%nat) as [Hlt | Hge].
      * unfold heap_get at 1, heap_set in Hk'.
        rewrite list_lookup_insert_eq in Hk' by done. simpl in Hk'.
        destruct (set_prop_ref _ _ _ _ _ _ Ho' Hk') as [-> | Hold];
          [by apply Hx | by eapply Hclo].
      * unfold heap_set in Hk'. rewrite list_insert_ge in Hk' by lia.
        by eapply Hclo.
    + rewrite Hoff in Hk' by done. by eapply Hclo.
  - split; [lia |]. intros l Hl. apply Hoff. by intros ->.
Qed.

Lemma alloc_keeps h o :
  sealed I h -> Forall (inside I) (stored o) ->
  keeps I h (h ++ [o]) /\ I (length h).
Proof.
  intros [Hcov Hclo] Ho. split; [| by apply Hcov].
  assert (Hold : forall l, (l < length h)%nat -> heap_get (h ++ [o]) l = heap_get h l).
  { intros l Hl. unfold heap_get. by rewrite lookup_app_l. }
  split; [split |].
  - intros l Hl. apply Hcov. rewrite length_app in Hl. lia.
  - intros l k l' Hl Hk.
    destruct (decide (l < length h)%nat) as [Hlt | Hge].
    + rewrite Hold in Hk by done. by eapply Hclo.
    + destruct (decide (l = length h)) as [-> | Hne].
      * unfold heap_get in Hk. rewrite lookup_app_r in Hk by lia.
        replace (length h - length h)%nat with 0%nat in Hk by lia.
        simpl in Hk. apply get_prop_stored in Hk.
        rewrite Forall_forall in Ho. by apply (Ho _ Hk).
      * unfold heap_get in Hk. rewrite lookup_ge_None_2 in Hk; [done |].
        rewrite length_app. simpl. lia.
  - split; [rewrite length_app; lia |].
    intros l Hl. apply Hold.
    destruct (decide (l < length h)%nat); [done |]. destruct Hl. apply Hcov. lia.
Qed.

Lemma new_object_keeps h :
  sealed I h -> keeps I h (new_object h).2 /\ inside I (new_object h).1.
Proof.
  intros Hs. destruct (alloc_keeps h (Obj []) Hs) as [Hk Hl]; [constructor |].
  split; [done |]. by intros l [= <-].
Qed.

Lemma new_singleton_keeps h k v :
  sealed I h -> inside I v ->
  keeps I h (new_singleton h k v).2 /\ inside I (new_singleton h k v).1.
Proof.
  intros Hs Hv. destruct (alloc_keeps h (Obj [(k, v)]) Hs) as [Hk Hl].
  { by repeat constructor. }
  split; [done |]. by intros l [= <-].
Qed.

Lemma merge_step_keeps rec t s h k h' :
  (forall h1 tv ss r h2,
     sealed I h1 -> inside I tv -> Forall (inside I) ss ->
     rec h1 tv ss = Ok (r, h2) -> keeps I h1 h2) ->
  sealed I h -> inside I t -> inside I s ->
  merge_step rec t s (Ok h) k = Ok h' -> keeps I h h'.
Proof.
  intros Hrec Hs Ht Hsrc H. unfold merge_step in H. ostep_in H.
  oinv H as sv Hsv. pose proof (get_inside _ _ _ _ Hs Hsrc Hsv) as Hsvi.
  destruct (isObject h sv); [| exact (set_keeps _ _ _ _ _ Hs Ht Hsvi H)].
  oinv H as tv Htv. oinv H as h1 Hh1. oinv H as tv1 Htv1. oinv H as sv1 Hsv1.
  oinv H as [x h2] Hcall. injection H as <-.
  assert (Hk1 : keeps I h h1).
  { destruct (truthy tv); [injection Hh1 as <-; by apply keeps_refl |].
    destruct (new_object_keeps h Hs) as [Hka Hei].
    unfold new_object, alloc in *. cbn [fst snd] in *.
    eapply keeps_trans; [done |].
    destruct Hka as (Hsa & _).
    exact (set_keeps _ _ _ _ _ Hsa Ht Hei Hh1). }
  eapply keeps_trans; [done |]. destruct Hk1 as (Hs1 & _).
  refine (Hrec h1 tv1 [sv1] x h2 Hs1 (get_inside _ _ _ _ Hs1 Ht Htv1) _ Hcall).
  constructor; [exact (get_inside _ _ _ _ Hs1 Hsrc Hsv1) | constructor].
Qed.

Lemma mergeConfigs_keeps fuel : forall h t ss r h',
  sealed I h -> inside I t -> Forall (inside I) ss ->
  mergeConfigs fuel h t ss = Ok (r, h') -> keeps I h h'.
Proof.
  induction fuel as [| fuel IH]; [done |]. intros h t ss r h' Hs Ht Hss H.
  destruct ss as [| s rest]; [injection H as _ <-; by apply keeps_refl |].
  apply Forall_cons in Hss as [Hsi Hrest].
  cbn [mergeConfigs] in H. oinv H as h1 H1.
  assert (Hk1 : keeps I h h1).
  { destruct (isObject h t && isObject h s);
      [| injection H1 as <-; by apply keeps_refl].
    oinv H1 as ks Hks.
    refine (fold_left_Ok_rel (merge_step (mergeConfigs fuel) t s)
              (fun a b => sealed I a -> keeps I a b)
              (merge_step_acc _ _ _) _ _ _ ks h h1 H1 Hs).
    - intros a. apply keeps_refl.
    - intros a b c Hab Hbc Ha. specialize (Hab Ha).
      eapply keeps_trans; [done |]. apply Hbc. by destruct Hab.
    - intros a k b Hstep Ha.
      exact (merge_step_keeps (mergeConfigs fuel) t s a k b IH Ha Ht Hsi Hstep). }
  eapply keeps_trans; [done |]. destruct Hk1 as (Hs1 & _).
  exact (IH _ _ _ _ _ Hs1 Ht Hrest H).
Qed.
End FootprintFacts.

Section FootprintStore.
Variable I : loc -> Prop.

Lemma keeps_sealed h h' : keeps I h h' -> sealed I h'.
Proof. by intros [? _]. Qed.

Lemma build_elems_keeps es :
  Forall (fun e => forall h, sealed I h ->
            keeps I h (build e h).2 /\ inside I (build e h).1) es ->
  forall h, sealed I h ->
    keeps I h (build_elems build es h).2
    /\ Forall (inside I) (omap id (build_elems build es h).1).
Proof.
  induction 1 as [| e es He _ IH]; intros h Hs.
  - split; [by apply keeps_refl | constructor].
  - cbn [build_elems]. destruct (He h Hs) as [Hk1 Hv].
    destruct (build e h) as [v h1]. cbn [fst snd] in *.
    destruct (IH h1 (keeps_sealed _ _ Hk1)) as [Hk2 Hvs].
    destruct (build_elems build es h1) as [vs h2]. cbn [fst snd] in *.
    split; [by eapply keeps_trans |]. by constructor.
Qed.

Lemma build_props_keeps ps :
  Forall (fun p => forall h, sealed I h ->
            keeps I h (build p.2 h).2 /\ inside I (build p.2 h).1) ps ->
  forall h, sealed I h ->
    keeps I h (build_props build ps h).2
    /\ Forall (inside I) (build_props build ps h).1.*2.
Proof.
  induction 1 as [| [k e] ps He _ IH]; intros h Hs.
  - split; [by apply keeps_refl | constructor].
  - cbn [build_props]. cbn [snd] in He. destruct (He h Hs) as [Hk1 Hv].
    destruct (build e h) as [v h1]. cbn [fst snd] in *.
    destruct (IH h1 (keeps_sealed _ _ Hk1)) as [Hk2 Hvs].
    destruct (build_props build ps h1) as [kvs h2]. cbn [fst snd] in *.
    split; [by eapply keeps_trans |]. by constructor.
Qed.

Lemma build_keeps t : forall h,
  sealed I h -> keeps I h (build t h).2 /\ inside I (build t h).1.
Proof.
  induction t as [| b | n | s | es IH | ps IH] using json_rect'; intros h Hs;
    try (split; [by apply keeps_refl | by intros l]).
  - cbn [build]. destruct (build_elems_keeps es IH h Hs) as [Hk Hvs].
    destruct (build_elems build es h) as [vs h1]. cbn [fst snd] in *.
    destruct (alloc_keeps I h1 (Arr vs []) (keeps_sealed _ _ Hk)) as [Hk2 Hl].
    { cbn [stored]. by rewrite app_nil_r. }
    unfold alloc. cbn [fst snd]. split; [by eapply keeps_trans |].
    by intros l [= <-].
  - cbn [build]. destruct (build_props_keeps ps IH h Hs) as [Hk Hvs].
    destruct (build_props build ps h) as [kvs h1]. cbn [fst snd] in *.
    destruct (alloc_keeps I h1 (Obj (dedup kvs)) (keeps_sealed _ _ Hk))
      as [Hk2 Hl].
    { cbn [stored]. apply Forall_forall. intros v Hv.
      apply list_elem_of_fmap in Hv as (q & -> & Hq%dedup_elem).
      rewrite Forall_forall in Hvs. apply Hvs.
      apply list_elem_of_fmap. by exists q. }
    unfold alloc. cbn [fst snd]. split; [by eapply keeps_trans |].
    by intros l [= <-].
Qed.

Lemma wrap_keeps ps : forall v h,
  sealed I h -> inside I v ->
  keeps I h (wrap ps v h).2 /\ inside I (wrap ps v h).1.
Proof.
  induction ps as [| p ps IH]; intros v h Hs Hv.
  - split; [by apply keeps_refl | done].
  - change (wrap (p :: ps) v h)
      with (wrap ps (new_singleton h p v).1 (new_singleton h p v).2).
    destruct (new_singleton_keeps I h p v Hs Hv) as [Hk1 Hv1].
    destruct (IH _ _ (keeps_sealed _ _ Hk1) Hv1) as [Hk2 Hv2].
    split; [by eapply keeps_trans | done].
Qed.

Lemma addDefaultConfig_keeps fuel cm path d h h' :
  sealed I h -> inside I (defaultConfig cm) -> inside I d ->
  addDefaultConfig fuel cm path d h = Ok h' -> keeps I h h'.
Proof.
  intros Hs Hdef Hd H. unfold addDefaultConfig in H. oinv H as u Hu.
  fold (wrap (rev (split path)) d h) in H.
  destruct (wrap_keeps (rev (split path)) d h Hs Hd) as [Hk1 Hv1].
  destruct (wrap (rev (split path)) d h) as [root h1]. cbn [fst snd] in *.
  oinv H as [x h2] Hm. injection H as <-.
  eapply keeps_trans; [done |].
  refine (mergeConfigs_keeps I fuel _ _ _ _ _ (keeps_sealed _ _ Hk1) Hdef _ Hm).
  by constructor.
Qed.

Lemma descend_footprint root h p root' h' :
  sealed I h -> inside I root ->
  descend (Ok (root, h)) p = Ok (root', h') ->
  keeps I h h' /\ inside I root'.
Proof.
  unfold descend. ostep. intros Hs Hroot H.
  oinv H as v0 Hv0. oinv H as h1 Hh1. oinv H as r1 Hr1. injection H as <- <-.
  assert (Hk : keeps I h h1).
  { case_bool_decide; [| injection Hh1 as <-; by apply keeps_refl].
    destruct (new_object_keeps I h Hs) as [Hka Hei].
    unfold new_object, alloc in *. cbn [fst snd] in *.
    eapply keeps_trans; [done |].
    exact (set_keeps I _ _ _ _ _ (keeps_sealed _ _ Hka) Hroot Hei Hh1). }
  split; [done |]. exact (get_inside I _ _ _ _ (keeps_sealed _ _ Hk) Hroot Hr1).
Qed.

Lemma fold_descend_footprint ks : forall root h r h',
  sealed I h -> inside I root ->
  fold_left descend ks (Ok (root, h)) = Ok (r, h') ->
  keeps I h h' /\ inside I r.
Proof.
  induction ks as [| p ks IH]; intros root h r h' Hs Hroot H.
  - injection H as <- <-. split; [by apply keeps_refl | done].
  - cbn [fold_left] in H.
    destruct (fold_left_Ok_acc descend descend_acc _ _ _ H) as [[root1 h1] H1].
    rewrite H1 in H.
    destruct (descend_footprint _ _ _ _ _ Hs Hroot H1) as [Hk1 Hr1].
    destruct (IH _ _ _ _ (keeps_sealed _ _ Hk1) Hr1 H) as [Hk2 Hr2].
    split; [by eapply keeps_trans | done].
Qed.

Lemma getOrCreateConfigPath_footprint cm path h r h' :
  sealed I h -> inside I (config cm) ->
  getOrCreateConfigPath cm path h = Ok (r, h') ->
  keeps I h h' /\ inside I r.
Proof.
  intros Hs Hc. unfold getOrCreateConfigPath. destruct (String.eqb path "").
  - intros [= <- <-]. split; [by apply keeps_refl | done].
  - intros H. oinv H as u Hu. by eapply fold_descend_footprint.
Qed.

Lemma nest_footprint cm n v h ip v' h' :
  sealed I h -> inside I (config cm) -> inside I v ->
  nest cm n (Ok (v, h)) ip = Ok (v', h') ->
  keeps I h h' /\ inside I v'.
Proof.
  intros Hs Hc Hv H. unfold nest in H. ostep_in H. case_bool_decide.
  - destruct (new_singleton_keeps I h ip.2 v Hs Hv) as [Hk Hi].
    assert (E : new_singleton h ip.2 v = (v', h')) by congruence.
    by rewrite E in Hk, Hi.
  - oinv H as h1 Hset. injection H as <- <-.
    split; [| done]. exact (set_keeps I _ _ _ _ _ Hs Hc Hv Hset).
Qed.

Lemma nest_acc cm n acc ip r : nest cm n acc ip = Ok r -> exists a, acc = Ok a.
Proof. destruct acc; try done. eauto. Qed.

Lemma fold_nest_footprint cm n ips : forall v h v' h',
  sealed I h -> inside I (config cm) -> inside I v ->
  fold_left (nest cm n) ips (Ok (v, h)) = Ok (v', h') ->
  keeps I h h' /\ inside I v'.
Proof.
  induction ips as [| ip ips IH]; intros v h v' h' Hs Hc Hv H.
  - injection H as <- <-. split; [by apply keeps_refl | done].
  - cbn [fold_left] in H.
    destruct (fold_left_Ok_acc _ (nest_acc cm n) _ _ _ H) as [[v1 h1] H1].
    rewrite H1 in H.
    destruct (nest_footprint _ _ _ _ _ _ _ Hs Hc Hv H1) as [Hk1 Hv1].
    destruct (IH _ _ _ _ (keeps_sealed _ _ Hk1) Hc Hv1 H) as [Hk2 Hv2].
    split; [by eapply keeps_trans | done].
Qed.

Lemma object_assign_footprint h target source h' :
  sealed I h -> inside I target -> inside I source ->
  object_assign h target source = Ok h' -> keeps I h h'.
Proof.
  intros Hs Ht Hsrc H. unfold object_assign in H.
  assert (Hloop : forall ks,
            fold_left (fun acc k => h0 ← acc; v ← get h0 source k;
                                    set h0 target k v) ks (Ok h) = Ok h' ->
            keeps I h h').
  { intros ks Hf.
    refine (fold_left_Ok_rel _ (fun a b => sealed I a -> keeps I a b)
              _ _ _ _ ks h h' Hf Hs).
    - intros [] ? ?; try done. eauto.
    - intros a. apply keeps_refl.
    - intros a b c Hab Hbc Ha. specialize (Hab Ha).
      eapply keeps_trans; [done |]. apply Hbc. by destruct Hab.
    - intros a k b Hstep Ha. ostep_in Hstep. oinv Hstep as v Hv.
      exact (set_keeps I _ _ _ _ _ Ha Ht (get_inside I _ _ _ _ Ha Hsrc Hv) Hstep). }
  destruct target as [| | | | | c]; try done;
    try (injection H as <-; by apply keeps_refl).
  destruct source; try (injection H as <-; by apply keeps_refl);
    oinv H as ks Hks; by eapply Hloop.
Qed.

Lemma saveConfig_objects cm w w' : saveConfig cm w = Ok w' -> objects w' = objects w.
Proof.
  unfold saveConfig. intros H. oinv H as t Ht.
  destruct t; [| done]. by injection H as <-.
Qed.

Lemma updateConfigPath_footprint cm path v w r w' :
  sealed I (objects w) -> inside I (config cm) -> inside I v ->
  updateConfigPath cm path v w = Ok (r, w') ->
  keeps I (objects w) (objects w') /\ inside I r.
Proof.
  intros Hs Hc Hv H. unfold updateConfigPath in H.
  oinv H as [x h1] Hg1.
  destruct (getOrCreateConfigPath_footprint _ _ _ _ _ Hs Hc Hg1) as [Hk1 _].
  oinv H as h2 Hh2.
  assert (Hk2 : keeps I h1 h2).
  { destruct (negb (String.eqb path "")).
    - oinv Hh2 as [v' h'] Hf. injection Hh2 as <-.
      by destruct (fold_nest_footprint _ _ _ _ _ _ _
                     (keeps_sealed _ _ Hk1) Hc Hv Hf).
    - exact (object_assign_footprint _ _ _ _ (keeps_sealed _ _ Hk1) Hc Hv Hh2). }
  oinv H as w3 Hsave. apply saveConfig_objects in Hsave. cbn [objects] in Hsave.
  oinv H as [r4 h4] Hg4. injection H as <- <-. cbn [objects].
  rewrite Hsave in Hg4.
  destruct (getOrCreateConfigPath_footprint _ _ _ _ _
              (keeps_sealed _ _ Hk2) Hc Hg4) as [Hk4 Hr4].
  split; [| done]. eapply keeps_trans; [| done]. by eapply keeps_trans.
Qed.

Lemma configSection_keeps fuel cm path d w r w' :
  sealed I (objects w) ->
  inside I (config cm) -> inside I (defaultConfig cm) -> inside I d ->
  configSection fuel cm path d w = Ok (r, w') ->
  keeps I (objects w) (objects w') /\ inside I r.
Proof.
  intros Hs Hc Hdef Hd H. unfold configSection in H.
  oinv H as [root h1] Hg1.
  destruct (getOrCreateConfigPath_footprint _ _ _ _ _ Hs Hc Hg1) as [Hk1 Hr1].
  destruct (strict_eq root d); [by injection H as <- <- |].
  oinv H as h2 Hadd.
  pose proof (addDefaultConfig_keeps _ _ _ _ _ _
                (keeps_sealed _ _ Hk1) Hdef Hd Hadd) as Hk2.
  destruct (if truthy root then (root, h2) else new_object h2)
    as [src h3] eqn:Hsrc.
  assert (Hk3 : keeps I h2 h3 /\ inside I src).
  { destruct (truthy root).
    - injection Hsrc as <- <-. split; [| done].
      apply keeps_refl. by eapply keeps_sealed.
    - destruct (new_object_keeps I h2 (keeps_sealed _ _ Hk2)) as [Hk Hi].
      rewrite Hsrc in Hk, Hi. done. }
  destruct Hk3 as [Hk3 Hsi].
  oinv H as [merged h4] Hm.
  pose proof (mergeConfigs_target _ _ _ _ _ _ Hm) as ->.
  assert (Hk4 : keeps I h3 h4).
  { refine (mergeConfigs_keeps I fuel _ _ _ _ _ (keeps_sealed _ _ Hk3) Hd _ Hm).
    by constructor. }
  destruct (updateConfigPath_footprint cm path d (World h4 (disk w)) r w'
              (keeps_sealed _ _ Hk4) Hc Hd H) as [Hk5 Hr].
  split; [| done]. cbn [objects] in Hk5.
  eapply keeps_trans; [| done]. eapply keeps_trans; [| done].
  eapply keeps_trans; [| done]. by eapply keeps_trans.
Qed.

Lemma constructor_keeps fuel name w cm w' :
  sealed I (objects w) ->
  constructor fuel name w = Ok (cm, w') ->
  keeps I (objects w) (objects w')
  /\ inside I (config cm) /\ inside I (defaultConfig cm)
  /\ inside I (oldConfig cm)
  /\ configFileName cm = name /\ disk w' = disk w.
Proof.
  intros Hs H. unfold constructor in H.
  destruct (new_object_keeps I (objects w) Hs) as [Hk1 Hi1].
  destruct (new_object (objects w)) as [old0 h1]. cbn [fst snd] in *.
  destruct (new_object_keeps I h1 (keeps_sealed _ _ Hk1)) as [Hk2 Hi2].
  destruct (new_object h1) as [def0 h2]. cbn [fst snd] in *.
  pose proof (keeps_trans I _ _ _ Hk1 Hk2) as Hk12.
  destruct (assoc_get name (disk w)) as [[t |] |].
  - destruct (build_keeps t h2 (keeps_sealed _ _ Hk2)) as [Hk3 Hi3].
    destruct (build t h2) as [cfg h3]. cbn [fst snd] in *.
    destruct (new_object_keeps I h3 (keeps_sealed _ _ Hk3)) as [Hk4 Hi4].
    destruct (new_object h3) as [e h4]. cbn [fst snd] in *.
    oinv H as [old h5] Hm. injection H as <- <-.
    pose proof (mergeConfigs_target _ _ _ _ _ _ Hm) as ->.
    assert (Hk5 : keeps I h4 h5).
    { refine (mergeConfigs_keeps I fuel _ _ _ _ _ (keeps_sealed _ _ Hk4) Hi4 _ Hm).
      by constructor. }
    cbn [objects disk config defaultConfig oldConfig configFileName].
    split_and!; try done.
    eapply keeps_trans; [| done]. eapply keeps_trans; [| done].
    by eapply keeps_trans.
  - injection H as <- <-.
    cbn [objects disk config defaultConfig oldConfig configFileName].
    split_and!; try done.
  - destruct (new_object_keeps I h2 (keeps_sealed _ _ Hk2)) as [Hk3 Hi3].
    destruct (new_object h2) as [cfg h3]. cbn [fst snd] in *.
    injection H as <- <-.
    cbn [objects disk config defaultConfig oldConfig configFileName].
    split_and!; try done. by eapply keeps_trans.
Qed.
End FootprintStore.

(** * The factory *)

Lemma configSection_root fuel cm d w r w' :
  configSection fuel cm "" d w = Ok (r, w') -> r = config cm.
Proof.
  intros H. unfold configSection in H.
  cbn [getOrCreateConfigPath String.eqb] in H. ostep_in H.
  destruct (strict_eq (config cm) d); [by injection H as <- _ |].
  oinv H as h2 Hadd.
  destruct (if truthy (config cm) then (config cm, h2) else new_object h2)
    as [src h3].
  oinv H as [merged h4] Hmerge.
  unfold updateConfigPath in H.
  cbn [getOrCreateConfigPath String.eqb objects disk negb] in H. ostep_in H.
  oinv H as h5 Hassign. oinv H as w3 Hsave. by injection H as <- _.
Qed.

Section Factory.
Variable join : string -> string -> string.
Variable I : loc -> Prop.

Lemma readConfig_step_inv fuel f ld visited st key st' :
  ConfigFactory._defaultConfig f = VRef ld ->
  ConfigFactory._config f = VRef ld ->
  ~ I ld ->
  factory_inv join I f ld visited st ->
  ConfigFactory.readConfig_step join fuel f (Ok st) key = Ok st' ->
  factory_inv join I f ld (key :: visited) st'.
Proof.
  intros Hdef Hcfg HnI (Hs & Hlt & Hch & Hvis) H.
  destruct st as [cms w]. cbn [fst snd] in *.
  unfold ConfigFactory.readConfig_step in H. ostep_in H.
  oinv H as [cm w1] Hnew.
  destruct (constructor_keeps I _ _ _ _ _ Hs Hnew)
    as (Hk1 & Hic & Hid & _ & Hname & _).
  oinv H as dk Hdk. rewrite Hdef in Hdk.
  assert (Hld1 : heap_get (objects w1) ld = heap_get (objects w) ld).
  { by apply Hk1. }
  assert (Hdki : inside I dk).
  { intros l ->. simpl in Hdk. injection Hdk as Hdk. rewrite Hld1 in Hdk.
    by eapply Hch. }
  oinv H as [r w2] Hsec.
  pose proof (configSection_root _ _ _ _ _ _ Hsec) as ->.
  destruct (configSection_keeps I _ _ _ _ _ _ _ (keeps_sealed _ _ _ Hk1)
              Hic Hid Hdki Hsec) as [Hk2 _].
  assert (Hld2 : heap_get (objects w2) ld = heap_get (objects w) ld).
  { rewrite <- Hld1. by apply Hk2. }
  oinv H as h3 Hset. injection H as <-. cbn [fst snd objects].
  rewrite Hcfg in Hset.
  destruct Hk1 as (_ & Hlen1 & _). destruct Hk2 as (Hs2 & Hlen2 & _).
  assert (Hlt2 : (ld < length (objects w2))%nat) by lia.
  pose proof (set_length _ _ _ _ _ Hset) as Hlen3.
  pose proof (get_set_same _ _ _ _ _ Hset Hlt2) as Hget3.
  assert (Hoff : forall l, l <> ld -> heap_get h3 l = heap_get (objects w2) l).
  { intros l Hl. unfold heap_get. by rewrite (set_other _ _ _ _ _ _ Hset). }
  simpl in Hset. oinv Hset as o' Ho'. injection Hset as <-.
  assert (Hh3 : heap_get (heap_set (objects w2) ld o') ld = o').
  { unfold heap_get, heap_set. by rewrite list_lookup_insert_eq. }
  unfold factory_inv. cbn [fst snd objects].
  split; [| split; [| split]].
  - destruct Hs2 as [Hcov Hclo]. split.
    + intros l Hl. apply Hcov. lia.
    + intros l k l' Hl Hk. rewrite Hoff in Hk by (by intros ->).
      by eapply Hclo.
  - lia.
  - intros k l Hk. rewrite Hh3 in Hk.
    destruct (set_prop_ref _ _ _ _ _ _ Ho' Hk) as [Hr | Hold].
    + by apply Hic.
    + rewrite Hld2 in Hold. by eapply Hch.
  - intros k Hk. rewrite Hh3, (set_prop_plain _ _ _ _ Ho'), Hld2.
    destruct (decide (k = key)) as [-> | Hne].
    + split.
      * destruct (decide (key = length_key)) as [Hl | Hl]; [right | by left].
        rewrite <- Hld2. by eapply set_prop_length.
      * exists cm. rewrite assoc_get_set_eq. by rewrite Hget3, Hname.
    + apply elem_of_cons in Hk as [? | Hk]; [done |].
      destruct (Hvis k Hk) as (Hgood & cm0 & Hcm0 & Hget0 & Hname0).
      split; [done |]. exists cm0. rewrite assoc_get_set_ne by done.
      split; [done |]. split; [| done].
      rewrite <- Hget0. simpl. rewrite Hh3. f_equal.
      rewrite <- Hld2. eapply set_prop_keep; [done | done |].
      by rewrite Hld2.
Qed.

Lemma readConfig_step_acc fuel f acc key r :
  ConfigFactory.readConfig_step join fuel f acc key = Ok r ->
  exists a, acc = Ok a.
Proof. destruct acc; try done. eauto. Qed.

Lemma readConfig_fold_inv fuel f ld ks : forall visited st st',
  ConfigFactory._defaultConfig f = VRef ld ->
  ConfigFactory._config f = VRef ld ->
  ~ I ld ->
  factory_inv join I f ld visited st ->
  fold_left (ConfigFactory.readConfig_step join fuel f) ks (Ok st) = Ok st' ->
  factory_inv join I f ld (rev ks ++ visited) st'.
Proof.
  induction ks as [| k ks IH]; intros visited st st' Hdef Hcfg HnI Hinv H.
  - by injection H as <-.
  - cbn [fold_left] in H.
    destruct (fold_left_Ok_acc _ (readConfig_step_acc fuel f) _ _ _ H)
      as [st1 H1].
    rewrite H1 in H. cbn [rev]. rewrite <- app_assoc. cbn [app].
    apply (IH (k :: visited) st1); try done.
    by eapply readConfig_step_inv.
Qed.
End Factory.

(** X22: a factory cannot be made from a value that is not an object:
    [undefined], a boolean, a number and a string fail the [typeof] test,
    and [null] passes it and fails in [Object.keys]. *)
Theorem ConfigFactory_new_rejects join fuel d folder w :
  (forall l, d <> VRef l) ->
  ConfigFactory.new join fuel d folder w = Throw TypeError.
Proof. intros Hd. destruct d; try done. by destruct (Hd l). Qed.

(** X23: a factory made from the object [d], when no entry of [d] leads
    back to [d]: its [config] and its [defaultConfig] are both [d] itself,
    and [d] then holds, at each of its keys, the Document of the store of
    that key -- a store over the file [<key>.json] of the folder -- in
    place of the defaults that were given. *)
Theorem ConfigFactory_new_entries join (I : loc -> Prop) fuel ld folder w f w' kl :
  sealed I (objects w) -> ~ I ld ->
  (forall k l, get_prop (heap_get (objects w) ld) k = VRef l -> I l) ->
  ConfigFactory.new join fuel (VRef ld) folder w = Ok (f, w') ->
  keys (objects w) (VRef ld) = Ok kl ->
  ConfigFactory.config f = VRef ld
  /\ ConfigFactory.defaultConfig f = VRef ld
  /\ forall k, k ∈ kl ->
       exists cm,
         assoc_get k (ConfigFactory._configManagers f) = Some cm
         /\ get (objects w') (VRef ld) k = Ok (config cm)
         /\ configFileName cm = join (ConfigFactory.folder f) (k +:+ ".json").
Proof.
  intros Hs HnI Hch H Hkl. unfold ConfigFactory.new in H.
  cbn [typeof] in H. rewrite bool_decide_eq_false_2 in H by (by intros ?).
  unfold ConfigFactory.readConfig in H.
  cbn [ConfigFactory._defaultConfig ConfigFactory._config
       ConfigFactory._folder] in H.
  rewrite Hkl in H. ostep_in H. oinv H as [cms w1] Hfold. injection H as <- <-.
  split; [done |]. split; [done |].
  assert (Hlt : (ld < length (objects w))%nat).
  { destruct (decide (ld < length (objects w))%nat); [done |].
    destruct HnI. apply Hs. lia. }
  pose proof (readConfig_fold_inv join I fuel
                (ConfigFactory.Build [] (VRef ld) (VRef ld) folder)
                ld kl [] ([], w) (cms, w1) eq_refl eq_refl HnI) as Hinv.
  destruct Hinv as (_ & _ & _ & Hvis); [| exact Hfold |].
  { split; [done |]. split; [done |]. split; [done |].
    by intros k ?%elem_of_nil. }
  intros k Hk. cbn [ConfigFactory._configManagers ConfigFactory.folder
                    ConfigFactory._folder fst snd] in *.
  destruct (Hvis k) as (_ & cm & Hcm); [| by exists cm].
  rewrite app_nil_r. apply list_elem_of_In. apply -> in_rev.
  by apply list_elem_of_In.
Qed.

Lemma sealed_stored (I : loc -> Prop) h :
  (forall l, (length h <= l)%nat -> I l) ->
  Forall (fun o => Forall (inside I) (stored o)) h ->
  sealed I h.
Proof.
  intros Hcov Hall. split; [done |]. intros l k l' _ Hk.
  apply get_prop_stored in Hk. unfold heap_get in Hk.
  destruct (h !! l) as [o |] eqn:Hl; simpl in Hk; [| by apply elem_of_nil in Hk].
  rewrite Forall_forall in Hall.
  specialize (Hall o (list_elem_of_lookup_2 _ _ _ Hl)).
  rewrite Forall_forall in Hall. by apply (Hall _ Hk).
Qed.






Lemma ConfigFactory_new_rejects_witness :
  ConfigFactory.new posix_join 16 VNull None (World [] []) = Throw TypeError.
Proof. by apply ConfigFactory_new_rejects. Defined.

Lemma ConfigFactory_new_entries_witness :
  exists f w',
    ConfigFactory.new posix_join 16 (VRef 2) None (World factory_objects [])
    = Ok (f, w')
    /\ ConfigFactory.config f = VRef 2
    /\ ConfigFactory.defaultConfig f = VRef 2
    /\ exists cm,
         assoc_get "db" (ConfigFactory._configManagers f) = Some cm
         /\ get (objects w') (VRef 2) "db" = Ok (config cm)
         /\ configFileName cm = "conf/db.json".
Proof.
  eexists _, _. split; [vm_compute; reflexivity |].
  edestruct (ConfigFactory_new_entries posix_join (fun l => l <> 2%nat) 16 2
               None (World factory_objects []))
    as (Hc & Hd & Hk).
  - apply sealed_stored; [simpl; lia |]. repeat constructor; by intros l [= <-].
  - by intros Hne.
  - intros k l Hg. apply get_prop_stored in Hg. simpl in Hg. set_solver.
  - vm_compute. reflexivity.
  - reflexivity.
  - split; [exact Hc |]. split; [exact Hd |].
    apply (Hk "db"). apply list_elem_of_here.
Defined.

Lemma validateConfig_read_only fuel cm w rep w' :
  validateConfig fuel cm false w = Ok (rep, w') ->
  disk w' = disk w
  /\ forall l, heap_get (objects w') l = heap_get (objects w) l.
Proof.
  intros H. unfold validateConfig in H. oinv H as [r h] Hres.
  ostep_in H. injection H as <- <-. split; [done |].
  by destruct (resolve_plain _ _ _ _ _ _ _ _ _ _ Hres) as [Hext _].
Qed.

(** X24: the getter [configAnalysis] validates every store of the factory
    without [clearUnusedValues]: it gives one report for each key that has
    a store, and it changes neither the files nor any object. *)
Theorem configAnalysis_read_only fuel f w out w' :
  ConfigFactory.configAnalysis fuel f w = Ok (out, w') ->
  disk w' = disk w
  /\ (forall l, heap_get (objects w') l = heap_get (objects w) l)
  /\ forall k, is_Some (assoc_get k out)
               <-> is_Some (assoc_get k (ConfigFactory._configManagers f)).
Proof.
  unfold ConfigFactory.configAnalysis.
  generalize (ConfigFactory._configManagers f). intros cms.
  assert (Hgen : forall out0 w0,
            fold_left
              (fun acc (kc : string * ConfigManager) =>
                 '(out, w0) ← acc;
                 '(rep, w1) ← validateConfig fuel kc.2 false w0;
                 Ok (assoc_set kc.1 rep out, w1))
              cms (Ok (out0, w0)) = Ok (out, w') ->
            disk w' = disk w0
            /\ (forall l, heap_get (objects w') l = heap_get (objects w0) l)
            /\ forall k, is_Some (assoc_get k out)
                         <-> is_Some (assoc_get k out0)
                             \/ is_Some (assoc_get k cms)).
  { induction cms as [| [k0 cm] cms IH]; intros out0 w0 H.
    - injection H as <- <-. split; [done |]. split; [done |].
      intros k. split; [by left | by intros [? | [? [=]]]].
    - cbn [fold_left] in H.
      assert (Hacc : forall acc (kc : string * ConfigManager) r,
                ('(out, w0) ← acc;
                 '(rep, w1) ← validateConfig fuel kc.2 false w0;
                 Ok (assoc_set kc.1 rep out, w1)) = Ok r ->
                exists a, acc = Ok a).
      { intros [] ? ? ?; try done. eauto. }
      destruct (fold_left_Ok_acc _ Hacc _ _ _ H) as [[out1 w1] H1].
      rewrite H1 in H. ostep_in H1. oinv H1 as [rep w1'] Hv.
      injection H1 as <- <-. cbn [fst snd] in *.
      destruct (validateConfig_read_only _ _ _ _ _ Hv) as [Hd1 He1].
      destruct (IH _ _ H) as (Hd & He & Hk).
      split; [congruence |]. split; [intros l; by rewrite He, He1 |].
      intros k. rewrite Hk. cbn [assoc_get].
      destruct (String.eqb_spec k k0) as [-> | Hne].
      + rewrite assoc_get_set_eq. split; [intros _; right; by eexists |].
        intros _. left. by eexists.
      + by rewrite assoc_get_set_ne. }
  intros H. destruct (Hgen _ _ H) as (Hd & He & Hk).
  split; [done |]. split; [done |]. intros k. rewrite Hk.
  split; [by intros [[? [=]] | ?] | by right].
Qed.

Lemma configAnalysis_read_only_witness :
  exists f w out w',
    example_factory = Ok (f, w)
    /\ ConfigFactory.configAnalysis 16 f w = Ok (out, w')
    /\ disk w' = disk w
    /\ is_Some (assoc_get "db" out).
Proof.
  destruct example_factory as [[f w] | | |] eqn:E;
    try (exfalso; vm_compute in E; discriminate E).
  destruct (ConfigFactory.configAnalysis 16 f w) as [[out w'] | | |] eqn:E2.
  2-4: exfalso; vm_compute in E; injection E as <- <-;
       vm_compute in E2; discriminate E2.
  destruct (configAnalysis_read_only 16 f w out w' E2) as (Hd & _ & Hk).
  exists f, w, out, w'. split; [done |]. split; [done |]. split; [done |].
  apply Hk. vm_compute in E. injection E as <- <-. by eexists.
Defined.

(** * Registering again, and the files of a store *)

(** X25: registering the same defaults object a second time is the fast
    path: after a call of [configSection] that merged and installed the
    object [d], a second call with [d] at the same path returns [d] and
    changes neither the objects nor the files. *)
Theorem configSection_again fuel cm path (d : loc) w r w' :
  path <> "" ->
  (forall c, config cm = VRef c -> (c < length (objects w))%nat) ->
  configSection fuel cm path (VRef d) w = Ok (r, w') ->
  (forall root h1, getOrCreateConfigPath cm path (objects w) = Ok (root, h1) ->
                   root <> VRef d) ->
  configSection fuel cm path (VRef d) w' = Ok (VRef d, w').
Proof.
  intros Hne Hc H Hslow.
  destruct (configSection_installs _ _ _ _ _ _ _ Hne Hc H Hslow)
    as (_ & _ & Hgoc & _).
  unfold configSection. rewrite Hgoc. ostep.
  unfold strict_eq. rewrite bool_decide_eq_true_2 by done.
  by destruct w'.
Qed.

Lemma configSection_again_witness :
  exists r w',
    configSection 16 siblings_cm "X" (VRef 0) siblings_world = Ok (r, w')
    /\ configSection 16 siblings_cm "X" (VRef 0) w' = Ok (VRef 0, w').
Proof.
  eexists _, _. split; [vm_compute; reflexivity |].
  eapply (configSection_again 16 siblings_cm "X" 0 siblings_world).
  - done.
  - intros c [= <-]. vm_compute. lia.
  - vm_compute. reflexivity.
  - intros root h1 Hg. vm_compute in Hg. by injection Hg as <- _.
Defined.

Lemma saveConfig_disk cm w w' :
  saveConfig cm w = Ok w' ->
  exists t, disk w' = assoc_set (configFileName cm) (JsonText t) (disk w).
Proof.
  unfold saveConfig. intros H. oinv H as t Ht.
  destruct t as [t |]; [| done]. injection H as <-. by exists t.
Qed.

(** X26: a store writes no file but its own: after [configSection],
    [updateConfigPath] or [validateConfig], every file under another name
    is as it was; and the constructor writes no file at all. *)
Theorem store_writes_own_file fuel cm path v clear w name :
  name <> configFileName cm ->
  (forall r w', configSection fuel cm path v w = Ok (r, w') ->
                assoc_get name (disk w') = assoc_get name (disk w))
  /\ (forall r w', updateConfigPath cm path v w = Ok (r, w') ->
                   assoc_get name (disk w') = assoc_get name (disk w))
  /\ (forall rep w', validateConfig fuel cm clear w = Ok (rep, w') ->
                     assoc_get name (disk w') = assoc_get name (disk w))
  /\ (forall n cm' w', constructor fuel n w = Ok (cm', w') ->
                       disk w' = disk w).
Proof.
  intros Hname.
  assert (Hupd : forall v0 w0 r w',
            updateConfigPath cm path v0 w0 = Ok (r, w') ->
            assoc_get name (disk w') = assoc_get name (disk w0)).
  { intros v0 w0 r w' H. unfold updateConfigPath in H.
    oinv H as [x h1] Hg. oinv H as h2 Hh2. oinv H as w3 Hsave.
    oinv H as [r4 h4] Hg4. injection H as <- <-. cbn [disk].
    destruct (saveConfig_disk _ _ _ Hsave) as [t ->]. cbn [disk].
    by apply assoc_get_set_ne. }
  split; [| split; [| split]].
  - intros r w' H. unfold configSection in H. oinv H as [root h1] Hg.
    destruct (strict_eq root v); [by injection H as <- <- |].
    oinv H as h2 Hadd.
    destruct (if truthy root then (root, h2) else new_object h2) as [src h3].
    oinv H as [merged h4] Hm. by rewrite (Hupd _ _ _ _ H).
  - intros r w'. apply Hupd.
  - intros rep w' H. unfold validateConfig in H. oinv H as [r h] Hres.
    oinv H as w1 Hsave. injection H as <- <-.
    destruct clear; [| by injection Hsave as <-].
    destruct (saveConfig_disk _ _ _ Hsave) as [t ->]. cbn [disk].
    by apply assoc_get_set_ne.
  - intros n cm' w' H. unfold constructor in H.
    cbn [new_object alloc] in H.
    destruct (assoc_get n (disk w)) as [[t |] |].
    + destruct (build t _) as [cfg h3]. oinv H as [old h5] Hm.
      by injection H as <- <-.
    + by injection H as <- <-.
    + by injection H as <- <-.
Qed.

Lemma store_writes_own_file_witness :
  exists r w',
    configSection 16 siblings_cm "S" (VRef 0)
      (World (objects siblings_world)
         (("other.json", BadText) :: disk siblings_world))
    = Ok (r, w')
    /\ assoc_get "other.json" (disk w') = Some BadText.
Proof.
  eexists _, _. split; [vm_compute; reflexivity |].
  edestruct (store_writes_own_file 16 siblings_cm "S" (VRef 0) false
               (World (objects siblings_world)
                  (("other.json", BadText) :: disk siblings_world))
               "other.json") as (Hsec & _); [done |].
  erewrite Hsec; [reflexivity | vm_compute; reflexivity].
Defined.
